(** * A shallow embedding of the [rest] package of trustwallet-assignment

    The package is a fluent HTTP request builder ([rest.go]), a family of
    body providers, a response decoder, and a retrying executor
    ([RetryDoer], [DefaultRetryPolicy], [DefaultBackoff], [DoCustom]).

    Conventions of the embedding:
    - Go [int], [int64] and [time.Duration] are [Z]; where the source can
      overflow, the wrap-around is written out with [wrap64].
    - A Go value that may be [nil] is an [option].
    - A Go panic is the [Panic] result of the [outcome] type.
    - Go slices are triples (pointer, length, capacity) into a store of
      backing arrays, because [Clone] copies slice headers, not arrays.
    - [float64] (used by [DefaultBackoff]) is modelled by dyadic numbers
      [m * 2^e] rounded to 53 significant bits.
    - The parts of the Go standard library the package calls ([net/url],
      [net/textproto], [strconv], [strings], the slice runtime) are
      modelled next to the code that uses them. *)

From Stdlib Require Import ZArith String Ascii List Bool Lia.
From Stdlib Require Import Numbers.DecimalString.
From Stdlib Require Import Floats.SpecFloat.
From stdpp Require Import gmap strings list.

Local Open Scope Z_scope.
#[local] Set Warnings "-register-all".

(** ** Results of code that may panic *)

Inductive outcome (A : Type) : Type :=
| Ok (a : A)
| Panic (msg : string).
Arguments Ok {A} a.
Arguments Panic {A} msg.

#[global] Instance outcome_ret : MRet outcome := fun A a => Ok a.

#[global] Instance outcome_bind : MBind outcome := fun A B k m =>
  match m with
  | Ok a => k a
  | Panic msg => Panic msg
  end.

(** ** 64-bit integers *)

Definition MinInt64 : Z := - 2 ^ 63.
Definition MaxInt64 : Z := 2 ^ 63 - 1.

Definition in_int64 (z : Z) : Prop := MinInt64 <= z <= MaxInt64.

Definition in_int64b (z : Z) : bool := (MinInt64 <=? z) && (z <=? MaxInt64).

(** Two's-complement wrap-around of a mathematical integer into [int64]. *)
Definition wrap64 (z : Z) : Z := (z + 2 ^ 63) mod 2 ^ 64 - 2 ^ 63.

(** ** Bytes and the [strings] package *)

Definition byte_between (lo hi c : ascii) : bool :=
  ((nat_of_ascii lo <=? nat_of_ascii c)%nat && (nat_of_ascii c <=? nat_of_ascii hi)%nat)%bool.

Definition is_lower (c : ascii) : bool := byte_between "a" "z" c.
Definition is_upper (c : ascii) : bool := byte_between "A" "Z" c.
Definition is_digit (c : ascii) : bool := byte_between "0" "9" c.
Definition is_alpha (c : ascii) : bool := is_lower c || is_upper c.

Definition byte_in (cs : string) (c : ascii) : bool :=
  existsb (Ascii.eqb c) (list_ascii_of_string cs).

Definition to_lower_byte (c : ascii) : ascii :=
  if is_upper c then ascii_of_nat (nat_of_ascii c + 32) else c.

Definition to_upper_byte (c : ascii) : ascii :=
  if is_lower c then ascii_of_nat (nat_of_ascii c - 32) else c.

Fixpoint string_map (f : ascii -> ascii) (s : string) : string :=
  match s with
  | EmptyString => EmptyString
  | String c s' => String (f c) (string_map f s')
  end.

Fixpoint string_forallb (p : ascii -> bool) (s : string) : bool :=
  match s with
  | EmptyString => true
  | String c s' => p c && string_forallb p s'
  end.

Definition string_existsb (p : ascii -> bool) (s : string) : bool :=
  negb (string_forallb (fun c => negb (p c)) s).

(** [strings.ToLower], on ASCII. *)
Definition ToLower (s : string) : string := string_map to_lower_byte s.

(** [strings.HasPrefix]. *)
Fixpoint HasPrefix (s p : string) {struct p} : bool :=
  match p, s with
  | EmptyString, _ => true
  | String _ _, EmptyString => false
  | String c p', String d s' => Ascii.eqb d c && HasPrefix s' p'
  end.

(** [strings.HasSuffix]: some tail of the text is the suffix. *)
Fixpoint HasSuffix (s suf : string) : bool :=
  String.eqb s suf ||
  match s with
  | EmptyString => false
  | String _ s' => HasSuffix s' suf
  end.

(** [strings.Contains]. *)
Fixpoint Contains (s sub : string) : bool :=
  String.prefix sub s ||
  match s with
  | EmptyString => false
  | String _ s' => Contains s' sub
  end.

(** [strings.ContainsRune] / [strings.IndexByte >= 0] for one byte. *)
Definition ContainsByte (s : string) (c : ascii) : bool :=
  string_existsb (Ascii.eqb c) s.

(** [strings.Cut] for a one-byte separator: the text before the first
    separator, the text after it, and whether the separator was found. *)
Fixpoint Cut (s : string) (sep : ascii) : string * string * bool :=
  match s with
  | EmptyString => (EmptyString, EmptyString, false)
  | String c s' =>
      if Ascii.eqb c sep then (EmptyString, s', true)
      else let '(b, a, found) := Cut s' sep in (String c b, a, found)
  end.

(** [strings.Count] for a one-byte separator. *)
Fixpoint Count (s : string) (sep : ascii) : nat :=
  match s with
  | EmptyString => O
  | String c s' => ((if Ascii.eqb c sep then 1 else 0) + Count s' sep)%nat
  end.

(** The text before the last occurrence of a byte (without it) and the
    text from that byte on: [s[:i]] and [s[i:]] for
    [i = strings.LastIndex(s, sep)], or [None] when [i = -1]. *)
Fixpoint cut_last (s : string) (sep : ascii) : option (string * string) :=
  match s with
  | EmptyString => None
  | String c s' =>
      match cut_last s' sep with
      | Some (b, a) => Some (String c b, a)
      | None => if Ascii.eqb c sep then Some (EmptyString, s) else None
      end
  end.

(** Longest prefix of bytes satisfying [p], and the rest. *)
Fixpoint span (p : ascii -> bool) (s : string) : string * string :=
  match s with
  | EmptyString => (EmptyString, EmptyString)
  | String c s' =>
      if p c then let '(a, b) := span p s' in (String c a, b)
      else (EmptyString, s)
  end.

Fixpoint str_drop (n : nat) (s : string) : string :=
  match n, s with
  | O, _ => s
  | S n', String _ s' => str_drop n' s'
  | S _, EmptyString => EmptyString
  end.

(** The double quote character. *)
Definition dquote : ascii := ascii_of_nat 34.
Definition backslash : ascii := ascii_of_nat 92.

Definition hex_digit_of (upper : bool) (n : nat) : ascii :=
  if (n <? 10)%nat then ascii_of_nat (48 + n)
  else ascii_of_nat ((if upper then 55 else 87) + n).

(** [strconv.Itoa]. *)
Definition Itoa (z : Z) : string := NilZero.string_of_int (Z.to_int z).

(** [strconv.Quote] ([%q]), on the bytes of the string: the quote and the
    backslash are escaped, control bytes are written as [\a \b \f \n \r \t \v]
    or [\xhh]; other bytes are kept (Go keeps every printable rune). *)
Definition quote_byte (c : ascii) : string :=
  let n := nat_of_ascii c in
  if Ascii.eqb c dquote then String backslash (String dquote EmptyString)
  else if Ascii.eqb c backslash then String backslash (String backslash EmptyString)
  else if (n =? 7)%nat then String backslash "a"
  else if (n =? 8)%nat then String backslash "b"
  else if (n =? 12)%nat then String backslash "f"
  else if (n =? 10)%nat then String backslash "n"
  else if (n =? 13)%nat then String backslash "r"
  else if (n =? 9)%nat then String backslash "t"
  else if (n =? 11)%nat then String backslash "v"
  else if ((n <? 32) || (n =? 127))%nat then
    String backslash (String "x" (String (hex_digit_of false (n / 16))
                                   (String (hex_digit_of false (n mod 16)) EmptyString)))
  else String c EmptyString.

Fixpoint quote_bytes (s : string) : string :=
  match s with
  | EmptyString => EmptyString
  | String c s' => quote_byte c +:+ quote_bytes s'
  end.

Definition Quote (s : string) : string :=
  String dquote (quote_bytes s +:+ String dquote EmptyString).

(** [strconv.ParseInt(s, 10, 64)]: an optional sign, then one or more
    decimal digits, whose value must fit in [int64]; [None] is any error
    (syntax or range). *)
Fixpoint parse_digits (acc : Z) (s : string) : option Z :=
  match s with
  | EmptyString => Some acc
  | String c s' =>
      if is_digit c
      then parse_digits (10 * acc + Z.of_nat (nat_of_ascii c - 48)) s'
      else None
  end.

Definition ParseUint10 (s : string) : option Z :=
  match s with
  | EmptyString => None
  | _ => parse_digits 0 s
  end.

Definition ParseInt10 (s : string) : option Z :=
  match s with
  | EmptyString => None
  | String c s' =>
      let neg := Ascii.eqb c "-" in
      let digits := if (Ascii.eqb c "+" || neg)%bool then s' else s in
      match ParseUint10 digits with
      | None => None
      | Some un =>
          if neg then (if un <=? 2 ^ 63 then Some (- un) else None)
          else (if un <=? MaxInt64 then Some un else None)
      end
  end.

(** ** Errors *)

(** The error values the package creates or inspects. *)
Inductive error : Type :=
| errorString (msg : string)                 (* errors.New, fmt.Errorf without %w *)
| Canceled                                   (* context.Canceled *)
| DeadlineExceeded                           (* context.DeadlineExceeded *)
| UnknownAuthorityError                      (* x509.UnknownAuthorityError *)
| UrlError (Op URL : string) (Err : error)   (* *url.Error *)
| GivingUp (method url : string) (attempts : Z) (cause : option error).
    (* fmt.Errorf("%s %s giving up after %d attempt(s)[: %w]", ...) *)

(** The [Error()] text of an error. *)
Fixpoint Error (e : error) : string :=
  match e with
  | errorString msg => msg
  | Canceled => "context canceled"
  | DeadlineExceeded => "context deadline exceeded"
  | UnknownAuthorityError => "x509: certificate signed by unknown authority"
  | UrlError op u err => op +:+ " " +:+ Quote u +:+ ": " +:+ Error err
  | GivingUp m u n cause =>
      m +:+ " " +:+ u +:+ " giving up after " +:+ Itoa n +:+ " attempt(s)" +:+
      match cause with
      | Some c => ": " +:+ Error c
      | None => ""
      end
  end.

(** [errors.Unwrap]: only [%w] and [*url.Error] wrap another error. *)
Definition Unwrap (e : error) : option error :=
  match e with
  | UrlError _ _ err => Some err
  | GivingUp _ _ _ cause => cause
  | _ => None
  end.

Fixpoint error_eqb (a b : error) : bool :=
  match a, b with
  | errorString x, errorString y => String.eqb x y
  | Canceled, Canceled => true
  | DeadlineExceeded, DeadlineExceeded => true
  | UnknownAuthorityError, UnknownAuthorityError => true
  | UrlError o u e, UrlError o' u' e' =>
      String.eqb o o' && String.eqb u u' && error_eqb e e'
  | GivingUp m u n c, GivingUp m' u' n' c' =>
      String.eqb m m' && String.eqb u u' && (n =? n') &&
      match c, c' with
      | Some x, Some y => error_eqb x y
      | None, None => true
      | _, _ => false
      end
  | _, _ => false
  end.

(** [errors.Is(e, target)]: [target] occurs on the unwrap chain of [e]. *)
Fixpoint errors_Is (e target : error) : bool :=
  error_eqb e target ||
  match e with
  | UrlError _ _ err => errors_Is err target
  | GivingUp _ _ _ (Some c) => errors_Is c target
  | _ => false
  end.

(** ** HTTP values *)

(** Byte sequences ([[]byte], the content of an [io.Reader]). *)
Abbreviation bytes := string (only parsing).

(** A response body stream: the bytes not yet read, the error the stream
    ends with (if any), and whether it was closed. *)
Record Body : Type := mkBody {
  content : bytes;
  readErr : option error;
  closed : bool
}.

(** [*http.Response], as far as the package looks at it. The header of a
    received response is read only, so its values are plain lists. *)
Record Response : Type := mkResponse {
  Status : string;
  StatusCode : Z;
  Header : gmap string (list string);
  RespBody : Body
}.

(** [*http.Request]: the context is kept in the retry [Request] below. *)
Record HttpRequest : Type := mkHttpRequest {
  Method : string;
  URL : string;
  ReqHeader : gmap string (list string);
  ReqBody : option bytes
}.

(** What one call of [Doer.Do] returns. *)
Abbreviation DoResult := (option Response * option error)%type (only parsing).

Definition StatusNoContent : Z := 204.
Definition StatusTooManyRequests : Z := 429.

(** ** retry: configuration and policies *)

Definition Second : Z := 1000000000.
Definition defaultRetryWaitMin : Z := 1 * Second.
Definition defaultRetryWaitMax : Z := 30 * Second.
Definition defaultRetryMax : Z := 4.
Definition respReadLimit : nat := 4096.

(** [redirectsErrorRe = `stopped after \d+ redirects\z`]: some suffix of
    the text is "stopped after ", one or more decimal digits, and
    " redirects". The digits are matched greedily, which loses nothing
    because the next byte must be a space. *)
Definition redirects_at (s : string) : bool :=
  HasPrefix s "stopped after " &&
  (let '(ds, tl) := span is_digit (str_drop 14 s) in
   negb (String.eqb ds "") && String.eqb tl " redirects").

Fixpoint redirectsErrorRe (s : string) : bool :=
  redirects_at s ||
  match s with
  | EmptyString => false
  | String _ s' => redirectsErrorRe s'
  end.

(** [schemeErrorRe = `unsupported protocol scheme`]. *)
Definition schemeErrorRe (s : string) : bool :=
  Contains s "unsupported protocol scheme".

(** [_, ok := v.Err.(x509.UnknownAuthorityError)]. *)
Definition isUnknownAuthorityError (e : error) : bool :=
  match e with
  | UnknownAuthorityError => true
  | _ => false
  end.

(** [CheckRetry]: the first argument is [ctx.Err()] at the time of the
    call, the only thing the policies of the package ask the context. *)
Definition CheckRetry : Type :=
  option error -> option Response -> option error -> outcome (bool * option error).

(** [Backoff(min, max, attemptNum, resp)]. *)
Definition Backoff : Type :=
  Z -> Z -> Z -> option Response -> outcome Z.

(** [ErrorHandler(resp, err, numTries)]. *)
Definition ErrorHandler : Type :=
  option Response -> option error -> Z -> option Response * option error.

Definition DefaultRetryPolicy : CheckRetry := fun ctxErr resp err =>
  match ctxErr with
  | Some e => Ok (false, Some e)
  | None =>
      match err with
      | Some e =>
          match e with
          | UrlError _ _ inner =>
              if redirectsErrorRe (Error e) then Ok (false, None)
              else if schemeErrorRe (Error e) then Ok (false, None)
              else if isUnknownAuthorityError inner then Ok (false, None)
              else Ok (true, None)
          | _ => Ok (true, None)
          end
      | None =>
          match resp with
          | None => Panic "invalid memory address or nil pointer dereference"
          | Some r =>
              if StatusCode r =? StatusTooManyRequests then Ok (true, None)
              else if (StatusCode r =? 0) ||
                      ((500 <=? StatusCode r) && negb (StatusCode r =? 501))
              then Ok (true, None)
              else Ok (false, None)
          end
      end
  end.

Definition ErrorPropagatedRetryPolicy : CheckRetry := fun ctxErr resp err =>
  match ctxErr with
  | Some e => Ok (false, Some e)
  | None =>
      match err with
      | Some e =>
          match e with
          | UrlError _ _ inner =>
              if redirectsErrorRe (Error e) then Ok (false, Some e)
              else if schemeErrorRe (Error e) then Ok (false, Some e)
              else if isUnknownAuthorityError inner then Ok (false, Some e)
              else Ok (true, None)
          | _ => Ok (true, None)
          end
      | None =>
          match resp with
          | None => Panic "invalid memory address or nil pointer dereference"
          | Some r =>
              if (StatusCode r =? 0) ||
                 ((500 <=? StatusCode r) && negb (StatusCode r =? 501))
              then Ok (true, Some (errorString ("unexpected HTTP status " +:+ Status r)))
              else Ok (false, None)
          end
      end
  end.

(** ** float64, as [DefaultBackoff] uses it

    A finite [float64] is [m * 2^e]; [round64] is IEEE-754 rounding to
    nearest, ties to even, with 53 significant bits, least exponent
    [-1074] and overflow to infinity from [2^1024] on. The sign of zero
    is not kept: no operation below tells the two zeros apart. *)

Inductive float64 : Type :=
| FNaN
| FInf (neg : bool)
| FFin (m e : Z).

Definition bitlen (m : Z) : Z :=
  if m =? 0 then 0 else Z.log2 (Z.abs m) + 1.

(** [m / 2^d] for [0 <= m] and [0 < d], rounded to nearest, ties to even. *)
Definition div_round_even (m d : Z) : Z :=
  let q := m / 2 ^ d in
  let r := m mod 2 ^ d in
  let half := 2 ^ (d - 1) in
  if r <? half then q
  else if half <? r then q + 1
  else if Z.even q then q else q + 1.

Definition round64 (m e : Z) : float64 :=
  let d := Z.max (bitlen m - 53) (-1074 - e) in
  let '(m', e') :=
    if d <=? 0 then (m, e)
    else (Z.sgn m * div_round_even (Z.abs m) d, e + d) in
  if negb (m' =? 0) && (1024 <? bitlen m' + e') then FInf (m' <? 0) else FFin m' e'.

(** [float64(z)] for an integer [z]. *)
Definition float64_of_int (z : Z) : float64 := round64 z 0.

(** [math.Pow(2, float64(n))] for an [int] n: the power of two, exactly
    when it is representable, infinity above and zero below. *)
Definition Pow2 (n : Z) : float64 := round64 1 n.

Definition fmul (x y : float64) : float64 :=
  match x, y with
  | FNaN, _ | _, FNaN => FNaN
  | FInf s, FInf t => FInf (xorb s t)
  | FInf s, FFin m _ | FFin m _, FInf s =>
      if m =? 0 then FNaN else FInf (xorb s (m <? 0))
  | FFin m1 e1, FFin m2 e2 => round64 (m1 * m2) (e1 + e2)
  end.

(** The [==] of two [float64]. *)
Definition feqb (x y : float64) : bool :=
  match x, y with
  | FFin m1 e1, FFin m2 e2 =>
      let e := Z.min e1 e2 in
      m1 * 2 ^ (e1 - e) =? m2 * 2 ^ (e2 - e)
  | FInf s, FInf t => Bool.eqb s t
  | _, _ => false
  end.

(** The integer part of [m * 2^e], towards zero. *)
Definition ftrunc (m e : Z) : Z :=
  if 0 <=? e then m * 2 ^ e else Z.quot m (2 ^ (- e)).

(** The conversion [int64(x)] of a [float64] is defined by the language
    only when the integer part fits; otherwise the result depends on the
    processor: amd64 yields the least [int64], arm64 saturates (and maps
    NaN to 0). *)
Inductive arch : Type := amd64 | arm64.

Definition float64_to_int64 (a : arch) (x : float64) : Z :=
  match x with
  | FFin m e =>
      let t := ftrunc m e in
      if in_int64b t then t
      else match a with
           | amd64 => MinInt64
           | arm64 => if t <? 0 then MinInt64 else MaxInt64
           end
  | FInf s =>
      match a with
      | amd64 => MinInt64
      | arm64 => if s then MinInt64 else MaxInt64
      end
  | FNaN =>
      match a with
      | amd64 => MinInt64
      | arm64 => 0
      end
  end.

(** The exponential branch of [DefaultBackoff]. *)
Definition exponentialBackoff (a : arch) (min max attemptNum : Z) : Z :=
  let mult := fmul (Pow2 attemptNum) (float64_of_int min) in
  let sleep := float64_to_int64 a mult in
  if negb (feqb (float64_of_int sleep) mult) || (max <? sleep) then max else sleep.

Definition DefaultBackoff (a : arch) : Backoff := fun min max attemptNum resp =>
  match resp with
  | Some r =>
      if StatusCode r =? StatusTooManyRequests then
        match Header r !! "Retry-After"%string with
        | Some s =>
            match s with
            | s0 :: _ =>
                match ParseInt10 s0 with
                | Some sleep => Ok (wrap64 (Second * sleep))
                | None => Ok (exponentialBackoff a min max attemptNum)
                end
            | [] => Panic "index out of range [0] with length 0"
            end
        | None => Ok (exponentialBackoff a min max attemptNum)
        end
      else Ok (exponentialBackoff a min max attemptNum)
  | None => Ok (exponentialBackoff a min max attemptNum)
  end.

(** ** retry: the executor *)

(** [context.Context] of a call, as the retry loop observes it:
    [ctx_Err i] is [ctx.Err()] when the policy is consulted in iteration
    [i]; [ctx_Done i wait] is the outcome of the [select] of iteration
    [i], [Some e] when the [Done] channel wins over the timer of duration
    [wait] and [ctx.Err()] is then [e], [None] when the timer wins. *)
Record Context : Type := mkContext {
  ctx_Err : nat -> option error;
  ctx_Done : nat -> Z -> option error
}.

(** [ReaderFunc]: the result of the [n]-th call, the bytes of a fresh
    reader or an error. *)
Definition ReaderFunc : Type := nat -> bytes + error.

(** The retry [Request]: the body factory, the embedded [*http.Request]
    and its context. *)
Record Request : Type := mkRequest {
  body : option ReaderFunc;
  Request_ : HttpRequest;
  Ctx : Context
}.

(** The inner executor of a [RetryDoer]: what its [n]-th call returns
    for the request it is given. *)
Definition Doer : Type := nat -> HttpRequest -> DoResult.

Record RetryDoer : Type := mkRetryDoer {
  HTTPClient : Doer;
  RetryWaitMin : Z;
  RetryWaitMax : Z;
  RetryMax : Z;
  CheckRetry_ : CheckRetry;
  Backoff_ : Backoff;
  ErrorHandler_ : option ErrorHandler
}.

(** What a call of [DoCustom] does to the outside, in order. *)
Inductive event : Type :=
| EvDo (n : nat) (r : HttpRequest)   (* c.HTTPClient.Do(req.Request) *)
| EvDrain (r : Response)             (* c.drainBody(resp.Body) *)
| EvWait (d : Z).                    (* the select on time.After(wait) *)

Definition is_EvDo (ev : event) : bool :=
  match ev with
  | EvDo _ _ => true
  | _ => false
  end.

(** The number of calls of the inner executor in a trace. *)
Definition invocations (tr : list event) : nat :=
  length (filter (fun ev => is_EvDo ev = true) tr).

(** [req.rewind()], for the [n]-th time. *)
Definition rewind (req : Request) (n : nat) : Request * option error :=
  match body req with
  | None => (req, None)
  | Some f =>
      match f n with
      | inr err => (req, Some err)
      | inl b =>
          let r := Request_ req in
          (mkRequest (body req)
             (mkHttpRequest (Method r) (URL r) (ReqHeader r) (Some b))
             (Ctx req),
           None)
      end
  end.


(** [drainBody]: at most [respReadLimit] bytes are read, then the body
    is closed. *)
Definition drainBody (r : Response) : Response :=
  mkResponse (Status r) (StatusCode r) (Header r)
    (mkBody (str_drop respReadLimit (content (RespBody r))) (readErr (RespBody r)) true).

(** The result of [DoCustom]: the response, the error, and the trace. *)
Abbreviation Result := (option Response * option error * list event)%type (only parsing).

(** The code after the loop of [DoCustom]. *)
Definition finish (c : RetryDoer) (req : Request)
    (resp : option Response) (doErr checkErr : option error)
    (shouldRetry : bool) (attempt : Z) (tr : list event) : Result :=
  match doErr, checkErr, shouldRetry with
  | None, None, false => (resp, None, tr)
  | _, _, _ =>
      let err := match checkErr with
                 | Some e => Some e
                 | None => doErr
                 end in
      match ErrorHandler_ c with
      | Some h => let '(r, e) := h resp err attempt in (r, e, tr)
      | None =>
          let tr := match resp with
                    | Some r => tr ++ [EvDrain r]
                    | None => tr
                    end in
          (None,
           Some (GivingUp (Method (Request_ req)) (URL (Request_ req)) attempt err),
           tr)
      end
  end.

(** The loop of [DoCustom], from iteration [i] on. [None] means that
    [fuel] iterations did not suffice. *)
Fixpoint DoCustom_loop (c : RetryDoer) (fuel : nat) (i : Z) (req : Request)
    (resp : option Response) (attempt : Z) (tr : list event)
  : option (outcome Result) :=
  match fuel with
  | O => None
  | S fuel' =>
      let attempt := attempt + 1 in
      match rewind req (Z.to_nat i) with
      | (_, Some err) => Some (Ok (resp, Some err, tr))
      | (req, None) =>
          let '(resp, doErr) := HTTPClient c (Z.to_nat i) (Request_ req) in
          let tr := tr ++ [EvDo (Z.to_nat i) (Request_ req)] in
          match CheckRetry_ c (ctx_Err (Ctx req) (Z.to_nat i)) resp doErr with
          | Panic msg => Some (Panic msg)
          | Ok (shouldRetry, checkErr) =>
              if negb shouldRetry
              then Some (Ok (finish c req resp doErr checkErr shouldRetry attempt tr))
              else
                let remain := RetryMax c - i in
                if remain <=? 0
                then Some (Ok (finish c req resp doErr checkErr shouldRetry attempt tr))
                else
                  let drained :=
                    match doErr, resp with
                    | None, Some r => Ok (Some (drainBody r), tr ++ [EvDrain r])
                    | None, None =>
                        Panic "invalid memory address or nil pointer dereference"
                    | Some _, _ => Ok (resp, tr)
                    end in
                  match drained with
                  | Panic msg => Some (Panic msg)
                  | Ok (resp, tr) =>
                      match Backoff_ c (RetryWaitMin c) (RetryWaitMax c) i resp with
                      | Panic msg => Some (Panic msg)
                      | Ok wait =>
                          let tr := tr ++ [EvWait wait] in
                          match ctx_Done (Ctx req) (Z.to_nat i) wait with
                          | Some e => Some (Ok (None, Some e, tr))
                          | None => DoCustom_loop c fuel' (i + 1) req resp attempt tr
                          end
                      end
                  end
          end
      end
  end.

(** [DoCustom]: the loop runs at most [RetryMax + 1] times. *)
Definition DoCustom (c : RetryDoer) (req : Request) : option (outcome Result) :=
  DoCustom_loop c (S (Z.to_nat (RetryMax c))) 0 req None 0 [].

(** [NewRetryDoer] with no options ([log] is left out: logging changes
    nothing that is returned). *)
Definition NewRetryDoer (a : arch) (doer : Doer) : RetryDoer :=
  mkRetryDoer doer defaultRetryWaitMin defaultRetryWaitMax defaultRetryMax
    DefaultRetryPolicy (DefaultBackoff a) None.

Definition WithRetryTimes (times : Z) (c : RetryDoer) : RetryDoer :=
  mkRetryDoer (HTTPClient c) (RetryWaitMin c) (RetryWaitMax c) times
    (CheckRetry_ c) (Backoff_ c) (ErrorHandler_ c).


(** ** The [net/url] package, as [Base], [Path] and [Clone] use it *)

Module url.

Local Open Scope string_scope.

Record Userinfo : Type := mkUserinfo {
  username : string;
  password : string;
  passwordSet : bool
}.

Record URL : Type := mkURL {
  Scheme : string;
  Opaque : string;
  User : option Userinfo;
  Host : string;
  Path : string;
  RawPath : string;
  OmitHost : bool;
  ForceQuery : bool;
  RawQuery : string;
  Fragment : string;
  RawFragment : string
}.

Definition empty : URL :=
  mkURL "" "" None "" "" "" false false "" "" "".

Inductive encoding : Type :=
| encodePath
| encodePathSegment
| encodeHost
| encodeZone
| encodeUserPassword
| encodeQueryComponent
| encodeFragment.

Definition is_host_mode (mode : encoding) : bool :=
  match mode with
  | encodeHost | encodeZone => true
  | _ => false
  end.

Definition is_query_mode (mode : encoding) : bool :=
  match mode with
  | encodeQueryComponent => true
  | _ => false
  end.

Definition ishex (c : ascii) : bool :=
  is_digit c || byte_between "a" "f" c || byte_between "A" "F" c.

Definition unhex (c : ascii) : nat :=
  if is_digit c then nat_of_ascii c - 48
  else if byte_between "a" "f" c then nat_of_ascii c - 97 + 10
  else if byte_between "A" "F" c then nat_of_ascii c - 65 + 10
  else 0.

(** [shouldEscape(c, mode)]. *)
Definition shouldEscape (c : ascii) (mode : encoding) : bool :=
  if is_alpha c || is_digit c then false
  else if is_host_mode mode &&
          byte_in (String dquote "!$&'()*+,;=:[]<>") c then false
  else if byte_in "-_.~" c then false
  else if byte_in "$&+,/:;=?@" c then
    match mode with
    | encodePath => Ascii.eqb c "?"
    | encodePathSegment => byte_in "/;,?" c
    | encodeUserPassword => byte_in "@/?:" c
    | encodeQueryComponent => true
    | encodeFragment => false
    | encodeHost | encodeZone => true
    end
  else match mode with
       | encodeFragment => negb (byte_in "!()*" c)
       | _ => true
       end.

Definition EscapeError (s : string) : error :=
  errorString ("invalid URL escape " +:+ Quote s).

Definition InvalidHostError (s : string) : error :=
  errorString ("invalid character " +:+ Quote s +:+ " in host name").

(** The first loop of [unescape]: the escapes are well formed and, in a
    host, nothing is written that a host cannot hold. *)
Fixpoint unescape_check (mode : encoding) (s : string) : option error :=
  match s with
  | EmptyString => None
  | String c s' =>
      if Ascii.eqb c "%" then
        match s' with
        | String h1 (String h2 s'') =>
            let esc := String c (String h1 (String h2 EmptyString)) in
            if negb (ishex h1 && ishex h2) then Some (EscapeError esc)
            else if match mode with encodeHost => true | _ => false end
                    && (unhex h1 <? 8)%nat && negb (String.eqb esc "%25")
            then Some (EscapeError esc)
            else if match mode with encodeZone => true | _ => false end
                    && negb (String.eqb esc "%25")
                    && negb (unhex h1 * 16 + unhex h2 =? 32)%nat
                    && shouldEscape (ascii_of_nat (unhex h1 * 16 + unhex h2)) encodeHost
            then Some (EscapeError esc)
            else unescape_check mode s''
        | _ => Some (EscapeError s)
        end
      else if is_host_mode mode && (nat_of_ascii c <? 128)%nat
              && negb (Ascii.eqb c "+") && shouldEscape c encodeHost
      then Some (InvalidHostError (String c EmptyString))
      else unescape_check mode s'
  end.

(** The second loop of [unescape]. *)
Fixpoint unescape_bytes (mode : encoding) (s : string) : string :=
  match s with
  | EmptyString => EmptyString
  | String c s' =>
      if Ascii.eqb c "%" then
        match s' with
        | String h1 (String h2 s'') =>
            String (ascii_of_nat (unhex h1 * 16 + unhex h2)) (unescape_bytes mode s'')
        | _ => String c (unescape_bytes mode s')
        end
      else if Ascii.eqb c "+" && is_query_mode mode
      then String " " (unescape_bytes mode s')
      else String c (unescape_bytes mode s')
  end.

Definition unescape (s : string) (mode : encoding) : string + error :=
  match unescape_check mode s with
  | Some err => inr err
  | None => inl (unescape_bytes mode s)
  end.

Definition escape_byte (c : ascii) (mode : encoding) : string :=
  if shouldEscape c mode then
    if Ascii.eqb c " " && is_query_mode mode then "+"
    else String "%" (String (hex_digit_of true (nat_of_ascii c / 16))
                       (String (hex_digit_of true (nat_of_ascii c mod 16)) EmptyString))
  else String c EmptyString.

Fixpoint escape (s : string) (mode : encoding) : string :=
  match s with
  | EmptyString => EmptyString
  | String c s' => escape_byte c mode +:+ escape s' mode
  end.

(** [validEncoded(s, mode)]. *)
Definition validEncoded (s : string) (mode : encoding) : bool :=
  string_forallb
    (fun c => byte_in "!$&'()*+,;=:@[]%" c || negb (shouldEscape c mode)) s.

Definition stringContainsCTLByte (s : string) : bool :=
  string_existsb (fun c => (nat_of_ascii c <? 32)%nat || (nat_of_ascii c =? 127)%nat) s.

(** The loop of [getScheme] from position [i]; [first] says [i = 0].
    [inl None] is "no scheme": the caller then returns the whole text. *)
Fixpoint scheme_scan (first : bool) (s : string) : option (string * string) + error :=
  match s with
  | EmptyString => inl None
  | String c s' =>
      let continue :=
        match scheme_scan false s' with
        | inl (Some (sch, rest)) => inl (Some (String c sch, rest))
        | other => other
        end in
      if is_alpha c then continue
      else if is_digit c || byte_in "+-." c then
        if first then inl None else continue
      else if Ascii.eqb c ":" then
        if first then inr (errorString "missing protocol scheme")
        else inl (Some (EmptyString, s'))
      else inl None
  end.

Definition getScheme (rawURL : string) : (string * string) + error :=
  match scheme_scan true rawURL with
  | inl (Some r) => inl r
  | inl None => inl (EmptyString, rawURL)
  | inr err => inr err
  end.

Definition validUserinfo (s : string) : bool :=
  string_forallb
    (fun c => is_alpha c || is_digit c || byte_in "-._:~!$&'()*+,;=%@" c) s.

Definition validOptionalPort (port : string) : bool :=
  match port with
  | EmptyString => true
  | String c ds => Ascii.eqb c ":" && string_forallb is_digit ds
  end.

(** [s[:i]] and [s[i:]] for [i = strings.Index(s, sub)]. *)
Fixpoint cut_sub (s sub : string) : option (string * string) :=
  if String.prefix sub s then Some (EmptyString, s)
  else match s with
       | EmptyString => None
       | String c s' =>
           match cut_sub s' sub with
           | Some (b, a) => Some (String c b, a)
           | None => None
           end
       end.

Definition parseHost (host : string) : string + error :=
  let plain := unescape host encodeHost in
  if HasPrefix host "[" then
    match cut_last host "]" with
    | None => inr (errorString "missing ']' in host")
    | Some (before, from) =>
        let colonPort := str_drop 1 from in
        if negb (validOptionalPort colonPort)
        then inr (errorString ("invalid port " +:+ Quote colonPort +:+ " after host"))
        else
          match cut_sub before "%25" with
          | Some (h1, z) =>
              match unescape h1 encodeHost with
              | inr err => inr err
              | inl host1 =>
                  match unescape z encodeZone with
                  | inr err => inr err
                  | inl host2 =>
                      match unescape from encodeHost with
                      | inr err => inr err
                      | inl host3 => inl (host1 +:+ host2 +:+ host3)
                      end
                  end
              end
          | None => plain
          end
    end
  else
    match cut_last host ":" with
    | Some (_, colonPort) =>
        if negb (validOptionalPort colonPort)
        then inr (errorString ("invalid port " +:+ Quote colonPort +:+ " after host"))
        else plain
    | None => plain
    end.

Definition parseAuthority (authority : string) : (option Userinfo * string) + error :=
  match cut_last authority "@" with
  | None =>
      match parseHost authority with
      | inr err => inr err
      | inl host => inl (None, host)
      end
  | Some (userinfo, from) =>
      match parseHost (str_drop 1 from) with
      | inr err => inr err
      | inl host =>
          if negb (validUserinfo userinfo)
          then inr (errorString "net/url: invalid userinfo")
          else if negb (ContainsByte userinfo ":") then
            match unescape userinfo encodeUserPassword with
            | inr err => inr err
            | inl u => inl (Some (mkUserinfo u "" false), host)
            end
          else
            let '(uname, pass, _) := Cut userinfo ":" in
            match unescape uname encodeUserPassword with
            | inr err => inr err
            | inl u =>
                match unescape pass encodeUserPassword with
                | inr err => inr err
                | inl p => inl (Some (mkUserinfo u p true), host)
                end
            end
      end
  end.

(** [(u *URL) setPath]. *)
Definition setPath (u : URL) (p : string) : URL + error :=
  match unescape p encodePath with
  | inr err => inr err
  | inl path =>
      let raw := if String.eqb p (escape path encodePath) then "" else p in
      inl (mkURL (Scheme u) (Opaque u) (User u) (Host u) path raw
             (OmitHost u) (ForceQuery u) (RawQuery u) (Fragment u) (RawFragment u))
  end.

(** [(u *URL) setFragment]. *)
Definition setFragment (u : URL) (f : string) : URL + error :=
  match unescape f encodeFragment with
  | inr err => inr err
  | inl frag =>
      let raw := if String.eqb f (escape frag encodeFragment) then "" else f in
      inl (mkURL (Scheme u) (Opaque u) (User u) (Host u) (Path u) (RawPath u)
             (OmitHost u) (ForceQuery u) (RawQuery u) frag raw)
  end.

(** All of a text but its last byte. *)
Fixpoint init (s : string) : string :=
  match s with
  | EmptyString => EmptyString
  | String c EmptyString => EmptyString
  | String c s' => String c (init s')
  end.

(** [parse(rawURL, viaRequest)], the text without its fragment. *)
Definition parse (rawURL : string) (viaRequest : bool) : URL + error :=
  if stringContainsCTLByte rawURL
  then inr (errorString "net/url: invalid control character in URL")
  else if String.eqb rawURL "" && viaRequest
  then inr (errorString "empty url")
  else if String.eqb rawURL "*"
  then inl (mkURL "" "" None "" "*" "" false false "" "" "")
  else
    match getScheme rawURL with
    | inr err => inr err
    | inl (scheme0, rest0) =>
        let scheme := ToLower scheme0 in
        let '(rest, force, query) :=
          if HasSuffix rest0 "?" && (Count rest0 "?" =? 1)%nat
          then (init rest0, true, "")
          else let '(b, a, _) := Cut rest0 "?" in (b, false, a) in
        let rootless := negb (HasPrefix rest "/") in
        if rootless && negb (String.eqb scheme "")
        then inl (mkURL scheme rest None "" "" "" false force query "" "")
        else if rootless && viaRequest
        then inr (errorString "invalid URI for request")
        else if rootless && ContainsByte (fst (fst (Cut rest "/"))) ":"
        then inr (errorString "first path segment in URL cannot contain colon")
        else if (negb (String.eqb scheme "") ||
                 (negb viaRequest && negb (HasPrefix rest "///")))
                && HasPrefix rest "//"
        then
          let '(authority, after, found) := Cut (str_drop 2 rest) "/" in
          let rest' := if found then String "/" after else "" in
          match parseAuthority authority with
          | inr err => inr err
          | inl (user, host) =>
              setPath (mkURL scheme "" user host "" "" false force query "" "") rest'
          end
        else
          let omit := negb (String.eqb scheme "") && HasPrefix rest "/" in
          setPath (mkURL scheme "" None "" "" "" omit force query "" "") rest
    end.

(** [url.Parse]: the pair Go returns; the URL is [nil] on every error. *)
Definition Parse (rawURL : string) : option URL * option error :=
  let '(u, frag, _) := Cut rawURL "#" in
  match parse u false with
  | inr err => (None, Some (UrlError "parse" u err))
  | inl url =>
      if String.eqb frag "" then (Some url, None)
      else match setFragment url frag with
           | inr err => (None, Some (UrlError "parse" rawURL err))
           | inl url' => (Some url', None)
           end
  end.

(** [(u *URL) EscapedPath]. *)
Definition EscapedPath (u : URL) : string :=
  let dflt := if String.eqb (Path u) "*" then "*" else escape (Path u) encodePath in
  if negb (String.eqb (RawPath u) "") && validEncoded (RawPath u) encodePath then
    match unescape (RawPath u) encodePath with
    | inl p => if String.eqb p (Path u) then RawPath u else dflt
    | inr _ => dflt
    end
  else dflt.

(** [(u *URL) EscapedFragment]. *)
Definition EscapedFragment (u : URL) : string :=
  let dflt := escape (Fragment u) encodeFragment in
  if negb (String.eqb (RawFragment u) "") && validEncoded (RawFragment u) encodeFragment then
    match unescape (RawFragment u) encodeFragment with
    | inl f => if String.eqb f (Fragment u) then RawFragment u else dflt
    | inr _ => dflt
    end
  else dflt.

(** [(u *Userinfo) String]. *)
Definition Userinfo_String (ui : Userinfo) : string :=
  escape (username ui) encodeUserPassword +:+
  (if passwordSet ui then ":" +:+ escape (password ui) encodeUserPassword else "").

(** What [(u *URL) String] writes before the path. *)
Definition String_prefix (u : URL) : string :=
  (if String.eqb (Scheme u) "" then "" else Scheme u +:+ ":") +:+
  (if negb (String.eqb (Scheme u) "") || negb (String.eqb (Host u) "")
      || match User u with Some _ => true | None => false end
   then
     if OmitHost u && String.eqb (Host u) ""
        && match User u with Some _ => false | None => true end
     then ""
     else
       (if negb (String.eqb (Host u) "") || negb (String.eqb (Path u) "")
           || match User u with Some _ => true | None => false end
        then "//" else "") +:+
       (match User u with
        | Some ui => Userinfo_String ui +:+ "@"
        | None => ""
        end) +:+
       (if String.eqb (Host u) "" then "" else escape (Host u) encodeHost)
   else "").

(** [(u *URL) String]. *)
Definition URL_String (u : URL) : string :=
  (if String.eqb (Opaque u) "" then
     let pre := String_prefix u in
     let path := EscapedPath u in
     pre +:+
     (if negb (String.eqb path "") && negb (HasPrefix path "/")
         && negb (String.eqb (Host u) "")
      then "/" else "") +:+
     (if String.eqb pre "" &&
         negb (negb (String.eqb path "") && negb (HasPrefix path "/")
               && negb (String.eqb (Host u) ""))
         && ContainsByte (fst (fst (Cut path "/"))) ":"
      then "./" else "") +:+
     path
   else (if String.eqb (Scheme u) "" then "" else Scheme u +:+ ":") +:+ Opaque u) +:+
  (if ForceQuery u || negb (String.eqb (RawQuery u) "")
   then "?" +:+ RawQuery u else "") +:+
  (if String.eqb (Fragment u) "" then "" else "#" +:+ EscapedFragment u).

(** [strings.Split(s, "/")]-like split on one byte; never empty. *)
Fixpoint split (s : string) (sep : ascii) : list string :=
  match s with
  | EmptyString => [EmptyString]
  | String c s' =>
      if Ascii.eqb c sep then EmptyString :: split s' sep
      else match split s' sep with
           | x :: xs => String c x :: xs
           | [] => [String c EmptyString]
           end
  end.

(** One turn of the loop of [resolvePath]: the builder [dst] and the
    flag [first], for the next element. *)
Definition resolve_step (st : string * bool) (elem : string) : string * bool :=
  let '(dst, first) := st in
  if String.eqb elem "." then (dst, false)
  else if String.eqb elem ".." then
    match cut_last (str_drop 1 dst) "/" with
    | None => ("/", true)
    | Some (before, _) => ("/" +:+ before, first)
    end
  else ((if first then dst else dst +:+ "/") +:+ elem, false).

(** [resolvePath(base, ref)]. *)
Definition resolvePath (base ref : string) : string :=
  let full :=
    if String.eqb ref "" then base
    else if negb (HasPrefix ref "/") then
      match cut_last base "/" with
      | Some (before, _) => before +:+ "/" +:+ ref
      | None => ref
      end
    else ref in
  if String.eqb full "" then ""
  else
    let elems := split full "/" in
    let '(dst, _) := fold_left resolve_step elems ("/", true) in
    let last_elem := List.last elems "" in
    let r := if String.eqb last_elem "." || String.eqb last_elem ".."
             then dst +:+ "/" else dst in
    match r with
    | String _ (String c2 _ as tl) => if Ascii.eqb c2 "/" then tl else r
    | _ => r
    end.

(** [setPath] whose error is ignored, as [ResolveReference] does. *)
Definition setPath_ignore (u : URL) (p : string) : URL :=
  match setPath u p with
  | inl u' => u'
  | inr _ => u
  end.

(** [(u *URL) ResolveReference(ref)]. *)
Definition ResolveReference (u ref : URL) : URL :=
  let scheme := if String.eqb (Scheme ref) "" then Scheme u else Scheme ref in
  let url := mkURL scheme (Opaque ref) (User ref) (Host ref) (Path ref) (RawPath ref)
               (OmitHost ref) (ForceQuery ref) (RawQuery ref) (Fragment ref)
               (RawFragment ref) in
  if negb (String.eqb (Scheme ref) "") || negb (String.eqb (Host ref) "")
     || match User ref with Some _ => true | None => false end
  then setPath_ignore url (resolvePath (EscapedPath ref) "")
  else if negb (String.eqb (Opaque ref) "")
  then mkURL scheme (Opaque ref) None "" "" (RawPath ref)
         (OmitHost ref) (ForceQuery ref) (RawQuery ref) (Fragment ref) (RawFragment ref)
  else
    let inherit := String.eqb (Path ref) "" && negb (ForceQuery ref)
                   && String.eqb (RawQuery ref) "" in
    let query := if inherit then RawQuery u else RawQuery ref in
    let '(frag, rawfrag) :=
      if inherit && String.eqb (Fragment ref) ""
      then (Fragment u, RawFragment u) else (Fragment ref, RawFragment ref) in
    if String.eqb (Path ref) "" && negb (String.eqb (Opaque u) "")
    then mkURL scheme (Opaque u) None "" "" (RawPath ref)
           (OmitHost ref) (ForceQuery ref) query frag rawfrag
    else
      setPath_ignore
        (mkURL scheme (Opaque ref) (User u) (Host u) (Path ref) (RawPath ref)
           (OmitHost ref) (ForceQuery ref) query frag rawfrag)
        (resolvePath (EscapedPath u) (EscapedPath ref)).

End url.

(** ** Go slices

    A slice is a pointer to a backing array, a length and a capacity; the
    store holds the arrays, each as long as its capacity. [append] writes
    in place while the capacity suffices and moves to a fresh array
    otherwise, so two slices on one array can overwrite each other. *)

Record slice : Type := mkSlice {
  ptr : nat;
  len : nat;
  cap : nat
}.

(** A [nil] slice, and any empty slice of capacity 0. *)
Definition nil_slice : slice := mkSlice 0 0 0.

(** The loop of the runtime's [nextslicecap] for capacities from 256 on:
    the capacity grows by a quarter plus 192 until it suffices. *)
Fixpoint grow_loop (fuel newLen newcap : nat) : nat :=
  if (newLen <=? newcap)%nat then newcap
  else match fuel with
       | O => newLen
       | S fuel' => grow_loop fuel' newLen (newcap + (newcap + 768) / 4)%nat
       end.

(** The capacity [append] allocates when [oldCap] does not hold
    [newLen] elements (the runtime's [nextslicecap]). The rounding up to
    an allocation size class, which the runtime applies afterwards, is
    left out: it is the identity on the 16-byte elements used here for
    every capacity up to 16, and can only enlarge a capacity. *)
Definition growcap (oldCap newLen : nat) : nat :=
  if (2 * oldCap <? newLen)%nat then newLen
  else if (oldCap <? 256)%nat then (2 * oldCap)%nat
  else grow_loop newLen newLen (oldCap + (oldCap + 768) / 4)%nat.

(** The backing arrays of the slices of one element type; a pointer is
    an index in this list. *)
Abbreviation heap T := (list (list T)) (only parsing).

Section slices.
Context {T : Type} (zero : T).

(** The elements a slice shows. *)
Definition slice_elems (h : list (list T)) (s : slice) : list T :=
  take (len s) (default [] (h !! ptr s)).

(** [append(s, xs...)]. *)
Definition append (h : list (list T)) (s : slice) (xs : list T)
  : list (list T) * slice :=
  let n := (len s + length xs)%nat in
  if (n <=? cap s)%nat then
    (alter (fun arr : list T => (take (len s) arr ++ xs ++ drop n arr)%list) (ptr s) h,
     mkSlice (ptr s) n (cap s))
  else
    let newcap := growcap (cap s) n in
    ((h ++ [(slice_elems h s ++ xs ++ replicate (newcap - n) zero)%list])%list,
     mkSlice (length h) n newcap).

(** A composite literal [[]T{x1, ..., xn}]. *)
Definition literal (h : list (list T)) (xs : list T) : list (list T) * slice :=
  ((h ++ [xs])%list, mkSlice (length h) (length xs) (length xs)).
End slices.

(** ** [net/textproto] and [net/http] headers *)

(** [validHeaderFieldByte]: the bytes of an HTTP token. *)
Definition validHeaderFieldByte (c : ascii) : bool :=
  is_alpha c || is_digit c || byte_in "!#$%&'*+-.^_`|~" c.

(** The second loop of [canonicalMIMEHeaderKey]: upper case at the start
    and after each dash, lower case elsewhere. *)
Fixpoint canonical_case (upper : bool) (s : string) : string :=
  match s with
  | EmptyString => EmptyString
  | String c s' =>
      let c' := if upper then to_upper_byte c else to_lower_byte c in
      String c' (canonical_case (Ascii.eqb c' "-") s')
  end.

(** [textproto.CanonicalMIMEHeaderKey]: a key with a byte that is not a
    token byte is returned unchanged. *)
Definition CanonicalMIMEHeaderKey (s : string) : string :=
  if string_forallb validHeaderFieldByte s then canonical_case true s else s.

(** [http.Header], a [map[string][]string]: each value is a slice. *)
Abbreviation HeaderMap := (gmap string slice) (only parsing).

(** [Header.Add]: [h[key] = append(h[key], value)]. *)
Definition Header_Add (strs : heap string) (h : HeaderMap) (key value : string)
  : heap string * HeaderMap :=
  let key := CanonicalMIMEHeaderKey key in
  let '(strs', sl) := append ""%string strs (default nil_slice (h !! key)) [value] in
  (strs', <[key := sl]> h).

(** [Header.Set]: [h[key] = []string{value}]. *)
Definition Header_Set (strs : heap string) (h : HeaderMap) (key value : string)
  : heap string * HeaderMap :=
  let key := CanonicalMIMEHeaderKey key in
  let '(strs', sl) := literal strs [value] in
  (strs', <[key := sl]> h).

(** What a reader of the header sees: the values of each key. *)
Definition Header_view (strs : heap string) (h : HeaderMap) : gmap string (list string) :=
  slice_elems strs <$> h.

(** ** Body providers and response decoders *)

(** A Go value of type [interface{}] handed to the package: a payload, a
    query structure or the value a decode target points to. *)
Inductive any : Type :=
| AnyString (s : string)
| AnyInt (z : Z)
| AnyFields (fields : list (string * string)).

Definition jsonContentType : string := "application/json".
Definition formContentType : string := "application/x-www-form-urlencoded".
Definition xmlContentType : string := "text/xml".
Definition hdrContentTypeKey : string := "Content-Type".
Definition hdrAuthorizationKey : string := "Authorization".

(** The implementations of the [BodyProvider] interface: the five of the
    package and any other one, given by what its methods return. *)
Inductive BodyProvider : Type :=
| bodyProvider' (body : bytes)                        (* bodyProvider{body} *)
| jsonBodyProvider (payload : any)
| formBodyProvider (payload : any)
| formUrlEncodedProvider (values : gmap string string)
| xmlProvider (payload : any)
| otherBodyProvider (contentType : string) (body : bytes + error).

Definition ContentType (p : BodyProvider) : string :=
  match p with
  | bodyProvider' _ => ""
  | jsonBodyProvider _ => jsonContentType
  | formBodyProvider _ => formContentType
  | formUrlEncodedProvider _ => formContentType
  | xmlProvider _ => xmlContentType
  | otherBodyProvider ct _ => ct
  end.

(** The implementations of [BodyMultipartProvider]. *)
Inductive BodyMultipartProvider : Type :=
| multipartDataBodyProvider (payload filePayload : option (gmap string bytes))
| otherMultipartProvider (contentType : string) (body : bytes + error).

(** [SuccessDecider]. *)
Definition SuccessDecider : Type := Response -> bool.

Definition DecodeOnSuccess : SuccessDecider := fun resp =>
  (200 <=? StatusCode resp) && (StatusCode resp <=? 299).

(** [ResponseDecoder.Decode(resp, v)]: the body after the decoder has
    read from it, the value [v] points to afterwards, and the error. *)
Definition ResponseDecoder : Type := Body -> any -> Body * any * option error.

(** What [successV] and [failureV] of [Do] can be: [nil], a [*Raw] (with
    the [Raw] it points to, [None] for a nil [Raw]), or a pointer to
    another value. *)
Inductive target : Type :=
| NilTarget
| RawTarget (raw : option bytes)
| ValueTarget (v : any).

Definition is_nil_target (t : target) : bool :=
  match t with
  | NilTarget => true
  | _ => false
  end.

(** ** [rest.go]: the builder *)

(** The memory the builders share: the backing arrays of the header
    values and of the query structure lists. *)
Record store : Type := mkStore {
  strs : heap string;
  vals : heap any
}.

(** [Rest]. The mutex, the logger and the metrics counter are left out:
    they change neither the builder nor what its methods return. *)
Record Rest : Type := mkRest {
  ctx : option Context;
  httpClient : HttpRequest -> DoResult;
  method : string;
  baseURL : option url.URL;
  rawURL : string;
  header : gmap string slice;
  queryStructs : slice;
  queryParams : option (gmap string string);
  bodyProvider : option BodyProvider;
  multipartBodyProvider : option BodyMultipartProvider;
  responseDecoder : ResponseDecoder;
  isSuccess : option SuccessDecider
}.

(** The [config] that [New] fills from its options. *)
Record config : Type := mkConfig {
  cfg_httpClient : HttpRequest -> DoResult;
  cfg_responseDecoder : ResponseDecoder;
  cfg_isSuccess : SuccessDecider
}.

Definition set_header (s : Rest) (h : gmap string slice) : Rest :=
  mkRest (ctx s) (httpClient s) (method s) (baseURL s) (rawURL s) h
    (queryStructs s) (queryParams s) (bodyProvider s) (multipartBodyProvider s)
    (responseDecoder s) (isSuccess s).

Definition set_url (s : Rest) (b : option url.URL) (raw : string) : Rest :=
  mkRest (ctx s) (httpClient s) (method s) b raw (header s)
    (queryStructs s) (queryParams s) (bodyProvider s) (multipartBodyProvider s)
    (responseDecoder s) (isSuccess s).

Definition set_method (s : Rest) (m : string) : Rest :=
  mkRest (ctx s) (httpClient s) m (baseURL s) (rawURL s) (header s)
    (queryStructs s) (queryParams s) (bodyProvider s) (multipartBodyProvider s)
    (responseDecoder s) (isSuccess s).

Definition set_queryStructs (s : Rest) (q : slice) : Rest :=
  mkRest (ctx s) (httpClient s) (method s) (baseURL s) (rawURL s) (header s)
    q (queryParams s) (bodyProvider s) (multipartBodyProvider s)
    (responseDecoder s) (isSuccess s).

Definition set_queryParams (s : Rest) (q : option (gmap string string)) : Rest :=
  mkRest (ctx s) (httpClient s) (method s) (baseURL s) (rawURL s) (header s)
    (queryStructs s) q (bodyProvider s) (multipartBodyProvider s)
    (responseDecoder s) (isSuccess s).

Definition set_bodies (s : Rest) (b : option BodyProvider)
    (m : option BodyMultipartProvider) : Rest :=
  mkRest (ctx s) (httpClient s) (method s) (baseURL s) (rawURL s) (header s)
    (queryStructs s) (queryParams s) b m (responseDecoder s) (isSuccess s).

(** [New]. *)
Definition New (c : config) : Rest :=
  mkRest None (cfg_httpClient c) "GET" None "" ∅ nil_slice (Some ∅) None None
    (cfg_responseDecoder c) (Some (cfg_isSuccess c)).

(** [ioutil.ReadAll(resp.Body)]: the bytes read, the error, and the body
    left behind. *)
Definition ReadAll (b : Body) : bytes * option error * Body :=
  (content b, readErr b, mkBody ""%string (readErr b) (closed b)).

Definition with_body (resp : Response) (b : Body) : Response :=
  mkResponse (Status resp) (StatusCode resp) (Header resp) b.

Module Rest.

Local Open Scope string_scope.

(** A method that updates the builder and the shared store. *)
Abbreviation method_of A := (store -> Rest -> A -> store * Rest) (only parsing).

Definition AddHeader (st : store) (s : Rest) (key value : string) : store * Rest :=
  let '(strs', h) := Header_Add (strs st) (header s) key value in
  (mkStore strs' (vals st), set_header s h).

Definition SetHeader (st : store) (s : Rest) (key value : string) : store * Rest :=
  let '(strs', h) := Header_Set (strs st) (header s) key value in
  (mkStore strs' (vals st), set_header s h).

Definition SetAuthToken (st : store) (s : Rest) (token : string) : store * Rest :=
  SetHeader st s hdrAuthorizationKey ("Bearer " +:+ token).

Definition WithSuccessDecider (s : Rest) (d : option SuccessDecider) : Rest :=
  mkRest (ctx s) (httpClient s) (method s) (baseURL s) (rawURL s) (header s)
    (queryStructs s) (queryParams s) (bodyProvider s) (multipartBodyProvider s)
    (responseDecoder s) d.

(** [Base]: a base URL that does not parse makes [Base] panic. *)
Definition Base (s : Rest) (base : string) : outcome Rest :=
  match url.Parse base with
  | (_, Some err) => Panic (Error err)
  | (None, None) => Panic "invalid memory address or nil pointer dereference"
  | (Some u, None) => Ok (set_url s (Some u) (url.URL_String u))
  end.

(** [Path]. *)
Definition Path (s : Rest) (path : string) : Rest :=
  let fixup (raw : string) : string :=
    if HasSuffix path "/" && negb (HasSuffix raw "/") then raw +:+ "/" else raw in
  match baseURL s with
  | None =>
      let '(u, err) := url.Parse path in
      let s := set_url s u (rawURL s) in
      match err, u with
      | Some _, _ => s
      | None, Some pathURL =>
          set_url s (baseURL s) (fixup (url.URL_String (url.ResolveReference pathURL pathURL)))
      | None, None => s
      end
  | Some base =>
      let '(u, err) := url.Parse path in
      match err, u with
      | Some _, _ => s
      | None, Some pathURL =>
          set_url s (baseURL s) (fixup (url.URL_String (url.ResolveReference base pathURL)))
      | None, None => s
      end
  end.

Definition Head (s : Rest) (pathURL : string) : Rest := Path (set_method s "HEAD") pathURL.
Definition Get (s : Rest) (pathURL : string) : Rest := Path (set_method s "GET") pathURL.
Definition Post (s : Rest) (pathURL : string) : Rest := Path (set_method s "POST") pathURL.
Definition Put (s : Rest) (pathURL : string) : Rest := Path (set_method s "PUT") pathURL.
Definition Patch (s : Rest) (pathURL : string) : Rest := Path (set_method s "PATCH") pathURL.
Definition Delete (s : Rest) (pathURL : string) : Rest := Path (set_method s "DELETE") pathURL.
Definition Options (s : Rest) (pathURL : string) : Rest := Path (set_method s "OPTIONS") pathURL.

(** [QueryStruct]. *)
Definition QueryStruct (st : store) (s : Rest) (queryStruct : option any) : store * Rest :=
  match queryStruct with
  | Some q =>
      let '(vals', sl) := append (AnyInt 0) (vals st) (queryStructs s) [q] in
      (mkStore (strs st) vals', set_queryStructs s sl)
  | None => (st, s)
  end.

(** [QueryParams]. *)
Definition QueryParams (s : Rest) (params : option (gmap string string)) : Rest :=
  match params with
  | Some p => set_queryParams s (Some p)
  | None => s
  end.

(** [Clone]. The header map is copied entry by entry, each value slice
    as it is; the query structures are appended to an empty slice. *)
Definition Clone (st : store) (s : Rest) : outcome (store * Rest) :=
  let headerCopy : gmap string slice :=
    map_fold (fun k v (acc : gmap string slice) => <[k := v]> acc) ∅ (header s) in
  match baseURL s with
  | None => Panic "invalid memory address or nil pointer dereference"
  | Some u =>
      let '(baseURL', _) := url.Parse (url.URL_String u) in
      let '(vals', qs) :=
        append (AnyInt 0) (vals st) nil_slice (slice_elems (vals st) (queryStructs s)) in
      Ok (mkStore (strs st) vals',
          mkRest (ctx s) (httpClient s) (method s) baseURL' (rawURL s) headerCopy
            qs (queryParams s) (bodyProvider s) None
            (responseDecoder s) (isSuccess s))
  end.

(** [BodyProvider]. *)
Definition BodyProvider (st : store) (s : Rest) (body : option BodyProvider) : store * Rest :=
  match body with
  | None => (st, s)
  | Some b =>
      let s := set_bodies s (Some b) None in
      let ct := ContentType b in
      if negb (String.eqb ct "") then SetHeader st s hdrContentTypeKey ct
      else (st, s)
  end.

(** [BodyMultipartProvider]. *)
Definition BodyMultipartProvider (st : store) (s : Rest)
    (body : option BodyMultipartProvider) : store * Rest :=
  match body with
  | None => (st, s)
  | Some b => (st, set_bodies s None (Some b))
  end.

(** [Body]. *)
Definition Body (st : store) (s : Rest) (body : option bytes) : store * Rest :=
  match body with
  | None => (st, s)
  | Some b => BodyProvider st s (Some (bodyProvider' b))
  end.

(** [BodyJSON]. *)
Definition BodyJSON (st : store) (s : Rest) (bodyJSON : option any) : store * Rest :=
  match bodyJSON with
  | None => (st, s)
  | Some v => BodyProvider st s (Some (jsonBodyProvider v))
  end.

(** [BodyForm]. *)
Definition BodyForm (st : store) (s : Rest) (bodyForm : option any) : store * Rest :=
  match bodyForm with
  | None => (st, s)
  | Some v => BodyProvider st s (Some (formBodyProvider v))
  end.

(** [BodyUrlEncode]. *)
Definition BodyUrlEncode (st : store) (s : Rest) (values : option (gmap string string))
  : store * Rest :=
  match values with
  | None => (st, s)
  | Some v => BodyProvider st s (Some (formUrlEncodedProvider v))
  end.

(** [BodyMultipart]. *)
Definition BodyMultipart (st : store) (s : Rest)
    (payload filePayload : option (gmap string bytes)) : store * Rest :=
  match payload, filePayload with
  | None, None => (st, s)
  | _, _ => BodyMultipartProvider st s (Some (multipartDataBodyProvider payload filePayload))
  end.

(** [BodyXML]. *)
Definition BodyXML (st : store) (s : Rest) (bodyXml : option any) : store * Rest :=
  match bodyXml with
  | None => (st, s)
  | Some v => BodyProvider st s (Some (xmlProvider v))
  end.

(** [decodeResponse]: the response (its body read), the two targets and
    the error. *)
Definition decodeResponse (s : Rest) (resp : Response) (successV failureV : target)
  : outcome (Response * target * target * option error) :=
  match isSuccess s with
  | None => Panic "invalid memory address or nil pointer dereference"
  | Some decide =>
      if decide resp then
        match successV with
        | NilTarget => Ok (resp, successV, failureV, None)
        | RawTarget _ =>
            let '(respBody, err, b) := ReadAll (RespBody resp) in
            Ok (with_body resp b, RawTarget (Some respBody), failureV, err)
        | ValueTarget v =>
            let '(b, v', err) := responseDecoder s (RespBody resp) v in
            Ok (with_body resp b, ValueTarget v', failureV, err)
        end
      else
        match failureV with
        | NilTarget =>
            let '(_, _, b) := ReadAll (RespBody resp) in
            Ok (with_body resp b, successV, failureV, None)
        | RawTarget _ =>
            let '(respBody, err, b) := ReadAll (RespBody resp) in
            Ok (with_body resp b, successV, RawTarget (Some respBody), err)
        | ValueTarget v =>
            let '(b, v', err) := responseDecoder s (RespBody resp) v in
            Ok (with_body resp b, successV, ValueTarget v', err)
        end
  end.

(** The two deferred calls of [Do]: the rest of the body is read and
    dropped, then the body is closed. *)
Definition drain_and_close (resp : Response) : Response :=
  with_body resp (mkBody "" (readErr (RespBody resp)) true).

(** [Do]: the wrapped response, the error, and the two targets as they
    are when [Do] returns. *)
Definition Do (s : Rest) (req : HttpRequest) (successV failureV : target)
  : outcome (option Response * option error * target * target) :=
  match httpClient s req with
  | (resp, Some err) => Ok (resp, Some err, successV, failureV)
  | (None, None) => Panic "invalid memory address or nil pointer dereference"
  | (Some resp, None) =>
      if (StatusCode resp =? StatusNoContent)%Z
      then Ok (Some (drain_and_close resp), None, successV, failureV)
      else if negb (is_nil_target successV) || negb (is_nil_target failureV) then
        '(resp', sv, fv, err) ← decodeResponse s resp successV failureV;
        Ok (Some (drain_and_close resp'), err, sv, fv)
      else Ok (Some (drain_and_close resp), None, successV, failureV)
  end.

End Rest.

(** ** retry: the jitter backoff *)

(** The [/] of two [float64]. The quotient of the significands is taken
    with more bits than the format keeps, and a last bit that records a
    remainder, so that [round64] rounds the exact quotient. The divisor
    of the package is converted from an integer: a zero divisor is the
    positive zero. *)
Definition fdiv (x y : float64) : float64 :=
  match x, y with
  | FNaN, _ | _, FNaN => FNaN
  | FInf _, FInf _ => FNaN
  | FInf s, FFin m _ => FInf (xorb s (m <? 0))
  | FFin _ _, FInf _ => FFin 0 0
  | FFin m1 e1, FFin m2 e2 =>
      if m2 =? 0 then (if m1 =? 0 then FNaN else FInf (m1 <? 0))
      else
        let k := Z.max 0 (56 + bitlen m2 - bitlen m1) in
        let q := (Z.abs m1 * 2 ^ k) / Z.abs m2 in
        let r := (Z.abs m1 * 2 ^ k) mod Z.abs m2 in
        let sticky := if r =? 0 then 0 else 1 in
        round64 (Z.sgn m1 * Z.sgn m2 * (2 * q + sticky)) (e1 - e2 - k - 1)
  end.

(** [crand.Int(crand.Reader, max)]: the call panics unless [max] is
    positive; [reader max] is what the entropy source then yields, a
    number in [[0, max)] or an error. *)
Definition crand_Int (reader : Z -> Z + error) (max : Z) : outcome (Z + error) :=
  if max <=? 0 then Panic "crypto/rand: argument to Int is <= 0"
  else Ok (reader max).

(** [randomFloat]: [maxInt := ^int64(0)] is the complement of zero. *)
Definition randomFloat (reader : Z -> Z + error) : outcome (float64 * option error) :=
  let maxInt := Z.lnot 0 in
  r ← crand_Int reader maxInt;
  match r with
  | inr err => Ok (FFin 0 0, Some err)
  | inl randed =>
      Ok (fdiv (float64_of_int (wrap64 randed)) (float64_of_int maxInt), None)
  end.

Definition LinearJitterBackoff (a : arch) (reader : Z -> Z + error) : Backoff :=
  fun min max attemptNum resp =>
  let attemptNum := wrap64 (attemptNum + 1) in
  if max <=? min then Ok (wrap64 (min * attemptNum))
  else
    '(randedF, err) ← randomFloat reader;
    match err with
    | Some _ => Ok (wrap64 (min * attemptNum))
    | None =>
        let jitter := fmul randedF (float64_of_int (wrap64 (max - min))) in
        let jitterMin := wrap64 (float64_to_int64 a jitter + min) in
        Ok (wrap64 (jitterMin * attemptNum))
    end.

(** ** retry: what a trace shows *)

(** The backoff waits of a trace, the responses that were drained, and
    the calls of the inner executor, each in order. *)
Definition waits (tr : list event) : list Z :=
  omap (fun ev => match ev with EvWait d => Some d | _ => None end) tr.

Definition drained (tr : list event) : list Response :=
  omap (fun ev => match ev with EvDrain r => Some r | _ => None end) tr.

Definition calls (tr : list event) : list (nat * HttpRequest) :=
  omap (fun ev => match ev with EvDo n r => Some (n, r) | _ => None end) tr.

(** ** [strconv.ParseInt] and [utils.ConvertHexToDec] *)

Inductive NumError : Type := ErrSyntax | ErrRange | ErrBase | ErrBitSize.

(** [lower(c) = c | ('x' - 'X')]. *)
Definition lower (c : ascii) : ascii := ascii_of_N (N.lor (N_of_ascii c) 32).

Definition byte_val (c : ascii) : Z := Z.of_N (N_of_ascii c).

(** The loop of [underscoreOK]: [saw] is the kind of the last byte. *)
Fixpoint underscoreOK_loop (hex : bool) (saw : ascii) (s : string) : bool :=
  match s with
  | EmptyString => negb (Ascii.eqb saw "_")
  | String c s' =>
      if is_digit c || (hex && byte_between "a" "f" (lower c))
      then underscoreOK_loop hex "0" s'
      else if Ascii.eqb c "_"
      then (if negb (Ascii.eqb saw "0") then false else underscoreOK_loop hex "_" s')
      else if Ascii.eqb saw "_" then false
      else underscoreOK_loop hex "!" s'
  end.

(** [underscoreOK]: underscores only between digits, or between the
    base prefix and a digit. *)
Definition underscoreOK (s : string) : bool :=
  let s :=
    match s with
    | String c s' => if Ascii.eqb c "-" || Ascii.eqb c "+" then s' else s
    | EmptyString => s
    end in
  match s with
  | String c0 (String c1 rest) =>
      if Ascii.eqb c0 "0" &&
         (Ascii.eqb (lower c1) "b" || Ascii.eqb (lower c1) "o" || Ascii.eqb (lower c1) "x")
      then underscoreOK_loop (Ascii.eqb (lower c1) "x") "0" rest
      else underscoreOK_loop false "^" s
  | _ => underscoreOK_loop false "^" s
  end.

(** The loop of [ParseUint] over the digits: the number read and whether
    an underscore was seen, or the value and the error returned from
    inside the loop. *)
Fixpoint ParseUint_loop (base0 : bool) (base cutoff maxVal : Z) (n : Z)
    (underscores : bool) (s : string) : (Z * bool) + (Z * NumError) :=
  match s with
  | EmptyString => inl (n, underscores)
  | String c s' =>
      if Ascii.eqb c "_" && base0
      then ParseUint_loop base0 base cutoff maxVal n true s'
      else
        let d :=
          if is_digit c then Some (byte_val c - byte_val "0")
          else if byte_between "a" "z" (lower c)
          then Some (byte_val (lower c) - byte_val "a" + 10)
          else None in
        match d with
        | None => inr (0, ErrSyntax)
        | Some d =>
            if base <=? d then inr (0, ErrSyntax)
            else if cutoff <=? n then inr (maxVal, ErrRange)
            else
              let n := (n * base) mod 2 ^ 64 in
              let n1 := (n + d) mod 2 ^ 64 in
              if (n1 <? n) || (maxVal <? n1) then inr (maxVal, ErrRange)
              else ParseUint_loop base0 base cutoff maxVal n1 underscores s'
        end
  end.

Definition maxUint64 : Z := 2 ^ 64 - 1.

(** [strconv.ParseUint(s, base, bitSize)]. *)
Definition ParseUint (s : string) (base bitSize : Z) : Z * option NumError :=
  if String.eqb s "" then (0, Some ErrSyntax)
  else
    let base0 := base =? 0 in
    let s0 := s in
    let based : option (Z * string) :=
      if (2 <=? base) && (base <=? 36) then Some (base, s)
      else if base =? 0 then
        match s with
        | String c0 rest =>
            if Ascii.eqb c0 "0" then
              match rest with
              | String c1 (String _ _ as digits) =>
                  if Ascii.eqb (lower c1) "b" then Some (2, digits)
                  else if Ascii.eqb (lower c1) "o" then Some (8, digits)
                  else if Ascii.eqb (lower c1) "x" then Some (16, digits)
                  else Some (8, rest)
              | _ => Some (8, rest)
              end
            else Some (10, s)
        | EmptyString => Some (10, s)
        end
      else None in
    match based with
    | None => (0, Some ErrBase)
    | Some (base, s) =>
        if (bitSize <? 0) || (64 <? bitSize) then (0, Some ErrBitSize)
        else
          let bitSize := if bitSize =? 0 then 64 else bitSize in
          let cutoff := maxUint64 / base + 1 in
          let maxVal := 2 ^ bitSize - 1 in
          match ParseUint_loop base0 base cutoff maxVal 0 false s with
          | inr (v, err) => (v, Some err)
          | inl (n, underscores) =>
              if underscores && negb (underscoreOK s0) then (0, Some ErrSyntax)
              else (n, None)
          end
    end.

(** [strconv.ParseInt(s, base, bitSize)]. *)
Definition ParseInt (s : string) (base bitSize : Z) : Z * option NumError :=
  if String.eqb s "" then (0, Some ErrSyntax)
  else
    let '(neg, s') :=
      match s with
      | String c r =>
          if Ascii.eqb c "+" then (false, r)
          else if Ascii.eqb c "-" then (true, r)
          else (false, s)
      | EmptyString => (false, s)
      end in
    let '(un, err) := ParseUint s' base bitSize in
    match err with
    | Some ErrSyntax => (0, err)
    | Some ErrBase => (0, err)
    | Some ErrBitSize => (0, err)
    | _ =>
        let bitSize := if bitSize =? 0 then 64 else bitSize in
        let cutoff := 2 ^ (bitSize - 1) in
        if negb neg && (cutoff <=? un) then (cutoff - 1, Some ErrRange)
        else if neg && (cutoff <? un) then (- cutoff, Some ErrRange)
        else
          let n := wrap64 un in
          (if neg then wrap64 (- n) else n, None)
    end.

(** [utils.ConvertHexToDec]. *)
Definition ConvertHexToDec (hexString : string) : Z :=
  match ParseInt hexString 0 64 with
  | (_, Some _) => 0
  | (decimalInt, None) => decimalInt
  end.

(** ** [fmt.Sprintf("%#x", idx)] for an [int] *)

(** The digits of [fmtInteger] in base 16, written from the right in
    front of [acc]; a [uint64] has at most 16 of them. *)
Fixpoint hex_digits (fuel : nat) (u : Z) (acc : string) : string :=
  match fuel with
  | O => acc
  | S fuel' =>
      if 16 <=? u
      then hex_digits fuel' (Z.shiftr u 4)
             (String (hex_digit_of false (Z.to_nat (Z.land u 15))) acc)
      else String (hex_digit_of false (Z.to_nat u)) acc
  end.

Definition Sprintf_sharp_x (v : Z) : string :=
  let negative := v <? 0 in
  let u := if negative then (- v) mod 2 ^ 64 else v in
  ((if negative then "-" else "") +:+ "0x" +:+ hex_digits 16 u "")%string.

(** ** [models] and [repositories] *)

Module models.

Record BlockInfo : Type := mkBlockInfo {
  BlockAddress : string;
  Count : Z;
  LatestTransactionAddress : string
}.

(** [CreatedAt] is a [time.Time], here the instant as a number. The
    field [BlockAddress] of the source is [TxBlockAddress]. *)
Record BlockTransaction : Type := mkBlockTransaction {
  ID : Z;
  TxBlockAddress : string;
  TransactionAddress : string;
  CreatedAt : Z
}.

End models.

Module repositories.

Definition ErrNotFound : error := errorString "record not found".

(** The [Repository] interface. The context argument of the methods is
    left out: the implementation of the package does not look at it. A
    [nil] pointer given to [UpsertBlockInfo] is [None]. *)
Class Repository (R : Type) : Type := {
  GetBlockInfo : R -> string -> option models.BlockInfo * option error;
  UpsertBlockInfo : R -> option models.BlockInfo -> outcome (R * option error);
  CreateBlockTransactions : R -> list models.BlockTransaction -> R * option error
}.

(** [InMemory]: the [sync.Map] from block addresses to block infos and
    the slice of transactions. *)
Record InMemory : Type := mkInMemory {
  mapBlockInfo : gmap string models.BlockInfo;
  blockTransactions : list models.BlockTransaction
}.

Definition New : InMemory := mkInMemory ∅ [].

Definition InMemory_GetBlockInfo (s : InMemory) (blockAddress : string)
  : option models.BlockInfo * option error :=
  match mapBlockInfo s !! blockAddress with
  | None => (None, Some ErrNotFound)
  | Some value => (Some value, None)
  end.

Definition InMemory_UpsertBlockInfo (s : InMemory) (blockInfo : option models.BlockInfo)
  : outcome (InMemory * option error) :=
  match blockInfo with
  | None => Panic "invalid memory address or nil pointer dereference"
  | Some b =>
      Ok (mkInMemory (<[models.BlockAddress b := b]> (mapBlockInfo s))
                     (blockTransactions s),
          None)
  end.

Definition InMemory_CreateBlockTransactions (s : InMemory)
    (txs : list models.BlockTransaction) : InMemory * option error :=
  (mkInMemory (mapBlockInfo s) (blockTransactions s ++ txs), None).

#[global] Instance InMemory_Repository : Repository InMemory := {
  GetBlockInfo := InMemory_GetBlockInfo;
  UpsertBlockInfo := InMemory_UpsertBlockInfo;
  CreateBlockTransactions := InMemory_CreateBlockTransactions
}.

End repositories.

(** ** [parser]: [subscribe] *)

Module parser.

Record Transaction : Type := mkTransaction {
  Type_ : string;
  BlockHash : string;
  BlockNumber : string;
  From : string;
  To : string;
  Gas : string;
  Hash : string;
  Input : string;
  Nonce : string;
  TransactionIndex : string;
  Value : string;
  V : string;
  R : string;
  S : string;
  GasPrice : string;
  ChainID : string
}.

(** What [subscribe] gets from outside the process: the result of
    [CountBlockTransaction(address)], the result of the [k]-th call of
    [GetTransactionByIndex(address, index)] ([None] for [nil]), and the
    clock read by the [k]-th [time.Now()]. *)
Record Node : Type := mkNode {
  CountBlockTransaction : string -> string;
  GetTransactionByIndex : nat -> string -> string -> option Transaction;
  Now : nat -> Z
}.

(** The loop [for idx := nexIndex; idx < count; idx++] of [subscribe]
    with [n] turns left, in its [k]-th turn. *)
Fixpoint subscribe_loop (node : Node) (address : string) (n : nat) (idx : Z) (k : nat)
    (blockTransactions : list models.BlockTransaction) (latest : string)
  : outcome (list models.BlockTransaction * string) :=
  match n with
  | O => Ok (blockTransactions, latest)
  | Datatypes.S n' =>
      let hexIndex := Sprintf_sharp_x idx in
      match GetTransactionByIndex node k address hexIndex with
      | None => Panic "invalid memory address or nil pointer dereference"
      | Some trans =>
          subscribe_loop node address n' (idx + 1) (Datatypes.S k)
            (blockTransactions ++
             [models.mkBlockTransaction 0 address (Hash trans) (Now node k)])
            (Hash trans)
      end
  end.

(** [(s *Invoker) subscribe(address)]: the repository afterwards and the
    error. *)
Definition subscribe {Repo : Type} `{repositories.Repository Repo}
    (repo : Repo) (node : Node) (address : string) : outcome (Repo * option error) :=
  let '(blockInfo, err) := repositories.GetBlockInfo repo address in
  let stop :=
    match err with
    | Some e => negb (errors_Is e repositories.ErrNotFound)
    | None => false
    end in
  if stop then Ok (repo, err)
  else
    let hexCount := CountBlockTransaction node address in
    if String.eqb hexCount "" then
      Ok (repo, Some (errorString "failed to fetch block count"))
    else
      let count := ConvertHexToDec hexCount in
      let same :=
        match blockInfo with
        | Some b => models.Count b =? count
        | None => false
        end in
      if same then Ok (repo, None)
      else
        let nexIndex :=
          match blockInfo with
          | Some b => models.Count b
          | None => 0
          end in
        '(blockTransactions, latest) ←
          subscribe_loop node address (Z.to_nat (count - nexIndex)) nexIndex 0 [] "";
        let '(repo, _) := repositories.CreateBlockTransactions repo blockTransactions in
        '(repo, _) ←
          repositories.UpsertBlockInfo repo
            (Some (models.mkBlockInfo address count latest));
        Ok (repo, None).

End parser.

(** ** More of [net/url]: query strings *)

Definition QueryEscape (s : string) : string := url.escape s url.encodeQueryComponent.

Definition QueryUnescape (s : string) : string + error :=
  url.unescape s url.encodeQueryComponent.

(** [sort.Strings]: the strings in increasing order, bytewise. *)
Fixpoint insert_sorted (k : string) (l : list string) : list string :=
  match l with
  | [] => [k]
  | x :: r => if String.leb k x then k :: l else x :: insert_sorted k r
  end.

Definition sort_Strings (l : list string) : list string :=
  fold_right insert_sorted [] l.

Module Values.

(** [url.Values], a [map[string][]string]. The value lists are built
    and read by one owner, so they are plain lists here. *)
Abbreviation t := (gmap string (list string)) (only parsing).

(** [v.Add(key, value)]: [v[key] = append(v[key], value)]. *)
Definition Add (v : t) (key value : string) : t :=
  <[key := default [] (v !! key) ++ [value]]> v.

(** [v.Set(key, value)]: [v[key] = []string{value}]. *)
Definition Set_ (v : t) (key value : string) : t :=
  <[key := [value]]> v.

(** The inner loop of [Encode], over the values of one key. *)
Definition encode_values (keyEscaped : string) (buf : string) (vs : list string)
  : string :=
  fold_left
    (fun buf v =>
       ((if negb (String.eqb buf "") then buf +:+ "&" else buf)
        +:+ keyEscaped +:+ "=" +:+ QueryEscape v)%string)
    vs buf.

(** [v.Encode()]: "key=value" pairs joined by "&", the keys sorted. *)
Definition Encode (v : t) : string :=
  let keys := sort_Strings (map fst (map_to_list v)) in
  fold_left
    (fun buf k => encode_values (QueryEscape k) buf (default [] (v !! k)))
    keys ""%string.

End Values.

(** One turn of the loop of [parseQuery], for the text up to the next
    "&". *)
Definition parseQuery_pair (st : Values.t * option error) (pair : string)
  : Values.t * option error :=
  let '(m, err) := st in
  if Contains pair ";" then
    (m, Some (errorString "invalid semicolon separator in query"))
  else if String.eqb pair "" then (m, err)
  else
    let '(key, value, _) := Cut pair "=" in
    let first_error (err1 : error) :=
      match err with
      | None => Some err1
      | Some _ => err
      end in
    match QueryUnescape key with
    | inr err1 => (m, first_error err1)
    | inl key =>
        match QueryUnescape value with
        | inr err1 => (m, first_error err1)
        | inl value => (Values.Add m key value, err)
        end
    end.

(** [parseQuery(m, query)]: the loop cuts the query at each "&" until
    nothing is left, which visits the texts between the "&" in order. *)
Definition parseQuery (m : Values.t) (query : string) : Values.t * option error :=
  fold_left parseQuery_pair
    (if String.eqb query "" then [] else url.split query "&") (m, None).

(** [url.ParseQuery]. *)
Definition ParseQuery (query : string) : Values.t * option error :=
  parseQuery ∅ query.

(** ** [rest.go]: the query of a request *)

(** The loop over the values of a query structure: every value of every
    key is added. The keys are walked in the order of [map_fold]; every
    other order gives the same map ([add_values_any_order] below). *)
Definition add_values (urlValues queryValues : Values.t) : Values.t :=
  map_fold
    (fun key values acc => fold_left (fun a value => Values.Add a key value) values acc)
    urlValues queryValues.

(** The loop of [buildQueryParamUrl] over the query structures.
    [goquery_Values] is [goquery.Values] of go-querystring, which reads
    the "url" tags of a structure by reflection. *)
Fixpoint add_queryStructs (goquery_Values : any -> Values.t + error)
    (urlValues : Values.t) (queryStructs : list any) : Values.t + error :=
  match queryStructs with
  | [] => inl urlValues
  | queryStruct :: rest =>
      match goquery_Values queryStruct with
      | inr err => inr err
      | inl queryValues =>
          add_queryStructs goquery_Values (add_values urlValues queryValues) rest
      end
  end.

(** [buildQueryParamUrl]: the URL afterwards (unchanged when an error
    is returned) and the error. A [nil] map of parameters is [None]; the
    order in which the parameters are walked does not matter
    ([queryParams_any_order] below). *)
Definition buildQueryParamUrl (goquery_Values : any -> Values.t + error)
    (reqURL : url.URL) (queryStructs : list any)
    (queryParams : option (gmap string string)) : url.URL * option error :=
  match ParseQuery (url.RawQuery reqURL) with
  | (_, Some err) => (reqURL, Some err)
  | (urlValues, None) =>
      match add_queryStructs goquery_Values urlValues queryStructs with
      | inr err => (reqURL, Some err)
      | inl urlValues =>
          let urlValues :=
            map_fold (fun k v acc => Values.Add acc k v) urlValues
              (default ∅ queryParams) in
          (url.mkURL (url.Scheme reqURL) (url.Opaque reqURL) (url.User reqURL)
             (url.Host reqURL) (url.Path reqURL) (url.RawPath reqURL)
             (url.OmitHost reqURL) (url.ForceQuery reqURL) (Values.Encode urlValues)
             (url.Fragment reqURL) (url.RawFragment reqURL),
           None)
      end
  end.

(** [formUrlEncodedProvider.Body]: the text the reader yields, the
    same for every order in which the map is walked
    ([formUrlEncodedProvider_any_order] below). *)
Definition formUrlEncodedProvider_Body (values : gmap string string) : string :=
  Values.Encode (map_fold (fun k v data => Values.Set_ data k v) ∅ values).

(** ** Options of [New] *)

(** What the package takes from [net/http], [encoding/json] and
    [encoding/xml] for its defaults. *)
Record library : Type := mkLibrary {
  defaultClient : HttpRequest -> DoResult;
  jsonDecoder : ResponseDecoder;
  xmlDecoder : ResponseDecoder
}.

(** The options; an argument that is [nil] is [None]. *)
Inductive Option_ : Type :=
| WithHttpClient (httpClient : option (HttpRequest -> DoResult))
| WithJsonResponseDecoder
| WithXmlResponseDecoder
| WithResponseDecoder (decoder : option ResponseDecoder)
| WithSuccessDecider (decider : option SuccessDecider).

Definition apply (lib : library) (o : Option_) (c : config) : config :=
  match o with
  | WithHttpClient (Some httpClient) =>
      mkConfig httpClient (cfg_responseDecoder c) (cfg_isSuccess c)
  | WithHttpClient None => c
  | WithJsonResponseDecoder =>
      mkConfig (cfg_httpClient c) (jsonDecoder lib) (cfg_isSuccess c)
  | WithXmlResponseDecoder =>
      mkConfig (cfg_httpClient c) (xmlDecoder lib) (cfg_isSuccess c)
  | WithResponseDecoder (Some decoder) =>
      mkConfig (cfg_httpClient c) decoder (cfg_isSuccess c)
  | WithResponseDecoder None => c
  | WithSuccessDecider (Some decider) =>
      mkConfig (cfg_httpClient c) (cfg_responseDecoder c) decider
  | WithSuccessDecider None => c
  end.

Definition newConfig (lib : library) (opts : list Option_) : config :=
  fold_left (fun c o => apply lib o c) opts
    (mkConfig (defaultClient lib) (jsonDecoder lib) DecodeOnSuccess).

(** [New(opts...)]. *)
Definition New_opts (lib : library) (opts : list Option_) : Rest :=
  New (fold_left (fun c o => apply lib o c) opts (newConfig lib [])).

(** ** [SetHeaders] *)

(** [SetHeaders]: [headers] is the entries of the map in the order in
    which [range] yields them, which the language does not fix. *)
Definition SetHeaders (st : store) (s : Rest) (headers : list (string * string))
  : store * Rest :=
  fold_left (fun p hv => Rest.SetHeader (fst p) (snd p) (fst hv) (snd hv)) headers (st, s).

(** * Definitions for the statements

    The classifications, scenarios and sampled inputs that the
    properties below are stated with. *)

(** The transport errors the policy never retries, in the words of the
    specification: a [*url.Error] whose text reports the redirect limit
    or an unsupported protocol scheme, or that wraps a certificate signed
    by an unknown authority. *)
Definition redirect_limit_error (e : error) : bool :=
  match e with
  | UrlError _ _ _ => redirectsErrorRe (Error e)
  | _ => false
  end.

Definition unsupported_scheme_error (e : error) : bool :=
  match e with
  | UrlError _ _ _ => schemeErrorRe (Error e)
  | _ => false
  end.

Definition certificate_trust_error (e : error) : bool :=
  match e with
  | UrlError _ _ inner => isUnknownAuthorityError inner
  | _ => false
  end.

Definition permanent_transport_error (e : error) : bool :=
  redirect_limit_error e || unsupported_scheme_error e || certificate_trust_error e.

(** A response that has only a status code. *)
Definition response_with_status (code : Z) : Response :=
  mkResponse "" code ∅ (mkBody "" None false).

(** A call of a body setter. *)
Inductive body_call : Type :=
| CallBody (body : option bytes)
| CallBodyProvider (body : option BodyProvider)
| CallBodyMultipartProvider (body : option BodyMultipartProvider)
| CallBodyJSON (v : option any)
| CallBodyForm (v : option any)
| CallBodyUrlEncode (values : option (gmap string string))
| CallBodyMultipart (payload filePayload : option (gmap string bytes))
| CallBodyXML (v : option any).

Definition run_body_call (sts : store * Rest) (c : body_call) : store * Rest :=
  let '(st, s) := sts in
  match c with
  | CallBody b => Rest.Body st s b
  | CallBodyProvider b => Rest.BodyProvider st s b
  | CallBodyMultipartProvider b => Rest.BodyMultipartProvider st s b
  | CallBodyJSON v => Rest.BodyJSON st s v
  | CallBodyForm v => Rest.BodyForm st s v
  | CallBodyUrlEncode v => Rest.BodyUrlEncode st s v
  | CallBodyMultipart p f => Rest.BodyMultipart st s p f
  | CallBodyXML v => Rest.BodyXML st s v
  end.

(** The arguments of the call are not [nil] ([BodyMultipart]: not both). *)
Definition non_nil_call (c : body_call) : bool :=
  match c with
  | CallBody b => bool_decide (is_Some b)
  | CallBodyProvider b => bool_decide (is_Some b)
  | CallBodyMultipartProvider b => bool_decide (is_Some b)
  | CallBodyJSON v | CallBodyForm v | CallBodyXML v => bool_decide (is_Some v)
  | CallBodyUrlEncode v => bool_decide (is_Some v)
  | CallBodyMultipart p f => bool_decide (is_Some p) || bool_decide (is_Some f)
  end.

(** The call selects a multipart provider. *)
Definition multipart_call (c : body_call) : bool :=
  match c with
  | CallBodyMultipartProvider _ | CallBodyMultipart _ _ => true
  | _ => false
  end.

(** At most one of the two body slots is set. *)
Definition at_most_one_body (s : Rest) : Prop :=
  bodyProvider s = None \/ multipartBodyProvider s = None.

(** A configuration for the examples: a transport that answers every
    request with the given status, and a decoder that stores the body
    text in the target. *)
Definition example_config (code : Z) : config :=
  mkConfig (fun _ => (Some (mkResponse "" code ∅ (mkBody "{}" None false)), None))
           (fun b _ => (mkBody "" (readErr b) (closed b), AnyString (content b), None))
           DecodeOnSuccess.

Definition empty_store : store := mkStore [] [].

Definition example_body_calls : list body_call :=
  [CallBodyJSON (Some (AnyInt 1)); CallBodyMultipart None (Some ∅); CallBody None].

Definition example_request : HttpRequest :=
  mkHttpRequest "DELETE" "https://example.com/nocontent" ∅ None.

(** The three ways in which [DoCustom] returns an error it did not get
    from an [ErrorHandler]. *)
Definition rewind_failed (req : Request) (e : error) : Prop :=
  exists f n, body req = Some f /\ f n = inr e.



(** The attempt count an error reports, if it reports one. *)
Definition attempts_reported (e : error) : option Z :=
  match e with
  | GivingUp _ _ n _ => Some n
  | _ => None
  end.

(** A scenario: the default executor with [RetryMax = 1] over a server
    that always answers 503; a context that is canceled during the first
    backoff wait; and a context that is canceled from the start. *)
Definition cancelled_wait_doer : RetryDoer :=
  WithRetryTimes 1
    (NewRetryDoer amd64 (fun _ _ => (Some (response_with_status 503), None))).

Definition cancelled_wait_request : Request :=
  mkRequest None (mkHttpRequest "GET" "https://a.io/" ∅ None)
    (mkContext (fun _ => None) (fun _ _ => Some Canceled)).


(** The values of the [Retry-After] header that [DefaultBackoff] looks
    at: those of a non-nil response with status 429. *)
Definition Retry_After (resp : option Response) : option (list string) :=
  match resp with
  | Some r =>
      if StatusCode r =? StatusTooManyRequests
      then Header r !! "Retry-After"%string
      else None
  | None => None
  end.

Definition response_retry_after (v : string) : Response :=
  mkResponse "" 429 {[ "Retry-After"%string := [v] ]} (mkBody "" None false).

(** A [float64] of the model and a float of the Standard Library's
    specification of IEEE-754 have the same value. *)
Definition same_float (x : float64) (y : spec_float) : bool :=
  match x, y with
  | FNaN, S754_nan => true
  | FInf s, S754_infinity t => Bool.eqb s t
  | FFin m _, S754_zero _ => m =? 0
  | FFin m e, S754_finite s p e' =>
      let v := if s then Z.neg p else Z.pos p in
      let e0 := Z.min e e' in
      m * 2 ^ (e - e0) =? v * 2 ^ (e' - e0)
  | _, _ => false
  end.

(** Significands and exponents to compare the two roundings on. *)
Definition rounding_grid : list (Z * Z) :=
  list_prod
    [0; 1; 3; 2 ^ 52; 2 ^ 53 - 1; 2 ^ 53; 2 ^ 53 + 1; 2 ^ 53 + 2; 2 ^ 53 + 3;
     2 ^ 54 + 2; 2 ^ 54 + 6; 2 ^ 60 + 12345; 2 ^ 63 - 1; 2 ^ 63; 1000000000;
     2 ^ 100 + 2 ^ 47; 2 ^ 100 + 3 * 2 ^ 47; -1; - (2 ^ 53 + 1); - 2 ^ 63]
    [0; 1; 10; 63; 969; 970; 971; 1023; 1024; 1100;
     -1; -10; -1022; -1074; -1075; -1076; -1126; -1127; -1128; -1200].

(** [New().Base(base).Path(path).rawURL]. *)
Definition base_then_path (base path : string) : outcome string :=
  s ← Rest.Base (New (example_config 200)) base; Ok (rawURL (Rest.Path s path)).

(** A byte that a path holds unescaped and that is not a colon. *)
Definition plain_path_byte (c : ascii) : bool :=
  negb (url.shouldEscape c url.encodePath) && negb (Ascii.eqb c ":").

Definition not_dot_segment (seg : string) : bool :=
  negb (String.eqb seg ".") && negb (String.eqb seg "..").

(** A relative path in its plain form: not empty, no leading slash, only
    bytes that need no escaping, no colon, and no "." or ".." segment. *)
Definition plain_relative_path (path : string) : bool :=
  negb (String.eqb path "") && negb (HasPrefix path "/") &&
  string_forallb plain_path_byte path &&
  forallb not_dot_segment (url.split path "/").

(** A base URL in the form in which [Base] stores it, with a host and
    with no path, query or fragment, such as "https://a.io". *)
Definition host_only_base (base : string) : bool :=
  match url.Parse base with
  | (Some u, None) =>
      String.eqb (url.URL_String u) base &&
      negb (String.eqb (url.Host u) "") &&
      String.eqb (url.Path u) "" && String.eqb (url.RawPath u) "" &&
      String.eqb (url.Opaque u) "" && String.eqb (url.RawQuery u) "" &&
      negb (url.ForceQuery u) && String.eqb (url.Fragment u) ""
  | _ => false
  end.

(** The elements of a path joined by slashes. *)
Fixpoint join_slash (elems : list string) : string :=
  match elems with
  | [] => ""
  | [x] => x
  | x :: rest => x +:+ "/" +:+ join_slash rest
  end.

(** A template builder with three values under one header key: the
    third [append] left the value slice with length 3 and capacity 4. *)
Definition template_builder : outcome (store * Rest) :=
  b ← Rest.Base (New (example_config 200)) "https://a.io";
  let '(st, b) := Rest.AddHeader empty_store b "Accept" "a/1" in
  let '(st, b) := Rest.AddHeader st b "Accept" "a/2" in
  let '(st, b) := Rest.AddHeader st b "Accept" "a/3" in
  Ok (st, b).

Definition header_values (st : store) (s : Rest) (key : string) : option (list string) :=
  Header_view (strs st) (header s) !! key.

(** The header a reader sees on a builder. *)
Definition header_of (p : store * Rest) : gmap string (list string) :=
  Header_view (strs (fst p)) (header (snd p)).

(** A scenario: an executor with retry budget [n] over a server that is
    never available, and a request without body in a context that is
    never canceled. *)
Definition unavailable_doer (n : Z) : RetryDoer :=
  WithRetryTimes n
    (NewRetryDoer amd64 (fun _ _ => (Some (response_with_status 503), None))).

Definition background : Context := mkContext (fun _ => None) (fun _ _ => None).


(** A slice is in order in a heap: its length is within its capacity,
    and, unless the capacity is 0, it points to an array of the heap
    that is as long as the capacity. *)
Definition slice_ok {T : Type} (h : list (list T)) (s : slice) : bool :=
  (len s <=? cap s)%nat &&
  ((cap s =? 0)%nat ||
   match h !! ptr s with
   | Some arr => (length arr =? cap s)%nat
   | None => false
   end).

(** Two slices do not share an array that one of them could write to. *)
Definition slices_apart (s1 s2 : slice) : bool :=
  (cap s1 =? 0)%nat || (cap s2 =? 0)%nat || negb (ptr s1 =? ptr s2)%nat.

(** A header map is in order in a heap: each value slice is, and the
    value slices of different keys are apart. Every builder that [New]
    returns and that only [AddHeader] and [SetHeader] have changed has
    such a header; [Clone] gives up the second part across builders. *)
Definition header_ok (strs : heap string) (h : gmap string slice) : bool :=
  forallb
    (fun p1 : string * slice =>
       slice_ok strs (snd p1) &&
       forallb
         (fun p2 : string * slice =>
            String.eqb (fst p1) (fst p2) || slices_apart (snd p1) (snd p2))
         (map_to_list h))
    (map_to_list h).

(** A call of a header setter, and what it means for the header as a
    map from canonical keys to lists of values ([http.Header.Add] and
    [http.Header.Set] in the words of their documentation). *)
Inductive header_call : Type :=
| CallAddHeader (key value : string)
| CallSetHeader (key value : string).

Definition run_header_call (p : store * Rest) (c : header_call) : store * Rest :=
  match c with
  | CallAddHeader k v => Rest.AddHeader (fst p) (snd p) k v
  | CallSetHeader k v => Rest.SetHeader (fst p) (snd p) k v
  end.

Definition header_call_meaning (m : gmap string (list string)) (c : header_call)
  : gmap string (list string) :=
  match c with
  | CallAddHeader k v =>
      <[CanonicalMIMEHeaderKey k := default [] (m !! CanonicalMIMEHeaderKey k) ++ [v]]> m
  | CallSetHeader k v => <[CanonicalMIMEHeaderKey k := [v]]> m
  end.

(** The query structures a reader sees on a builder, and a call of
    [QueryStruct] on a builder and its store. *)
Definition query_structs (p : store * Rest) : list any :=
  slice_elems (vals (fst p)) (queryStructs (snd p)).

Definition run_QueryStruct (p : store * Rest) (q : option any) : store * Rest :=
  Rest.QueryStruct (fst p) (snd p) q.

(** The template builder with its store, and its clone. *)
Definition template_pair : store * Rest :=
  match template_builder with
  | Ok p => p
  | Panic _ => (empty_store, New (example_config 200))
  end.

Definition template_clone : store * Rest :=
  match Rest.Clone (fst template_pair) (snd template_pair) with
  | Ok p => p
  | Panic _ => template_pair
  end.

(** The block info of an address in an [InMemory] repository, and the
    count [subscribe] starts from. *)
Definition stored_info (repo : repositories.InMemory) (address : string)
  : option models.BlockInfo :=
  repositories.mapBlockInfo repo !! address.

Definition stored_count (repo : repositories.InMemory) (address : string) : Z :=
  match stored_info repo address with
  | Some b => models.Count b
  | None => 0
  end.

(** The transaction records [subscribe] makes of the transactions
    [txs 0], [txs 1], ... that it fetched. *)
Definition fetched (node : parser.Node) (address : string)
    (txs : nat -> parser.Transaction) (n : nat) : list models.BlockTransaction :=
  map (fun k => models.mkBlockTransaction 0 address (parser.Hash (txs k))
                  (parser.Now node k))
      (seq 0 n).

Definition latest_hash (txs : nat -> parser.Transaction) (n : nat) : string :=
  match n with
  | O => ""
  | S m => parser.Hash (txs m)
  end.

(** A node with three transactions in the block, whose hashes are made
    from the index they were asked with; and a node that cannot deliver
    the transaction with index 1. *)
Definition plain_transaction (hash : string) : parser.Transaction :=
  parser.mkTransaction "" "" "" "" "" "" hash "" "" "" "" "" "" "" "" "".

Definition example_node : parser.Node :=
  parser.mkNode (fun _ => "0x3"%string)
    (fun _ _ index => Some (plain_transaction ("hash-" +:+ index)))
    (fun k => Z.of_nat k).

Definition failing_node : parser.Node :=
  parser.mkNode (fun _ => "0x3"%string)
    (fun k _ index => if (k =? 1)%nat then None
                      else Some (plain_transaction ("hash-" +:+ index)))
    (fun k => Z.of_nat k).

(** No key of the values has an empty list. *)
Definition no_empty_list (v : Values.t) : Prop :=
  forall k vs, v !! k = Some vs -> vs <> [].

(** [goquery.Values] for the query structures of the model: the fields
    in their order; anything else is not a structure. *)
Definition fields_Values (q : any) : Values.t + error :=
  match q with
  | AnyFields fields =>
      inl (fold_left (fun m kv => Values.Add m (fst kv) (snd kv)) fields ∅)
  | _ => inr (errorString "query: Values() expects struct input")
  end.

(** The success decider that the last option which gives one sets. *)
Definition last_SuccessDecider (opts : list Option_) : SuccessDecider :=
  fold_left
    (fun d o => match o with WithSuccessDecider (Some decider) => decider | _ => d end)
    opts DecodeOnSuccess.

Definition example_library : library :=
  mkLibrary (cfg_httpClient (example_config 200))
    (cfg_responseDecoder (example_config 200))
    (cfg_responseDecoder (example_config 200)).

(** * Properties *)

(** ** The default retry policy *)


(** The same holds for the status 0. *)
Lemma DefaultRetryPolicy_retries_status_0 :
  DefaultRetryPolicy None (Some (response_with_status 0)) None = Ok (true, None).
Proof. reflexivity. Qed.


(** ** Body setters *)


(** [BodyMultipart] with one map only does set the multipart provider. *)
Lemma BodyMultipart_one_nil (st : store) (s : Rest) (files : gmap string string) :
  multipartBodyProvider (snd (Rest.BodyMultipart st s None (Some files)))
  = Some (multipartDataBodyProvider None (Some files)).
Proof. reflexivity. Qed.

Lemma SetHeader_bodies (st : store) (s : Rest) (k v : string) :
  bodyProvider (snd (Rest.SetHeader st s k v)) = bodyProvider s /\
  multipartBodyProvider (snd (Rest.SetHeader st s k v)) = multipartBodyProvider s.
Proof.
  unfold Rest.SetHeader. destruct (Header_Set _ _ _ _) as [strs' h]. split; reflexivity.
Qed.

Lemma BodyProvider_bodies (st : store) (s : Rest) (b : BodyProvider) :
  bodyProvider (snd (Rest.BodyProvider st s (Some b))) = Some b /\
  multipartBodyProvider (snd (Rest.BodyProvider st s (Some b))) = None.
Proof.
  unfold Rest.BodyProvider.
  destruct (negb _); [|split; reflexivity].
  destruct (SetHeader_bodies st (set_bodies s (Some b) None) hdrContentTypeKey (ContentType b))
    as [-> ->].
  split; reflexivity.
Qed.

(** A call with non-nil arguments sets the slot of its kind and clears
    the other one, whatever the builder held. *)
Lemma non_nil_call_selects (st : store) (s : Rest) (c : body_call) :
  non_nil_call c = true ->
  let s' := snd (run_body_call (st, s) c) in
  if multipart_call c
  then bodyProvider s' = None /\ is_Some (multipartBodyProvider s')
  else is_Some (bodyProvider s') /\ multipartBodyProvider s' = None.
Proof.
  destruct c as [b|b|b|v|v|v|p f|v];
    cbn [non_nil_call multipart_call run_body_call Rest.Body Rest.BodyJSON
         Rest.BodyForm Rest.BodyUrlEncode Rest.BodyXML Rest.BodyMultipart
         Rest.BodyMultipartProvider];
    try (destruct b as [b|]; [intros _ | discriminate]);
    try (destruct v as [v|]; [intros _ | discriminate]);
    unfold Rest.Body, Rest.BodyJSON, Rest.BodyForm, Rest.BodyUrlEncode, Rest.BodyXML,
      Rest.BodyMultipart, Rest.BodyMultipartProvider.
  - destruct (BodyProvider_bodies st s (bodyProvider' b)) as [-> ->]. eauto.
  - destruct (BodyProvider_bodies st s b) as [-> ->]. eauto.
  - eauto.
  - destruct (BodyProvider_bodies st s (jsonBodyProvider v)) as [-> ->]. eauto.
  - destruct (BodyProvider_bodies st s (formBodyProvider v)) as [-> ->]. eauto.
  - destruct (BodyProvider_bodies st s (formUrlEncodedProvider v)) as [-> ->]. eauto.
  - destruct p, f; simpl; try discriminate; intros _; eauto.
  - destruct (BodyProvider_bodies st s (xmlProvider v)) as [-> ->]. eauto.
Qed.

Lemma run_body_call_at_most_one (sts : store * Rest) (c : body_call) :
  at_most_one_body (snd sts) -> at_most_one_body (snd (run_body_call sts c)).
Proof.
  destruct sts as [st s]. intros Hs.
  destruct (non_nil_call c) eqn:Hc.
  - pose proof (non_nil_call_selects st s c Hc) as H. simpl in H.
    destruct (multipart_call c); destruct H as [H1 H2]; [left | right]; assumption.
  - destruct c as [b|b|b|v|v|v|p f|v]; simpl in *;
      try (destruct b; simpl in Hc; [discriminate | exact Hs]);
      try (destruct v; simpl in Hc; [discriminate | exact Hs]).
    destruct p, f; simpl in Hc; try discriminate. exact Hs.
Qed.

(** C7: a body-setter call with non-nil arguments, after any sequence of
    body-setter calls and on any builder, sets the slot of its kind and
    clears the slot of the other kind, so that exactly one of the two
    slots is set; and at most one of the two slots is set after any
    sequence of body-setter calls on a builder whose slots are not both
    set, such as a new builder. *)
Theorem body_slots_exclusive (st : store) (s : Rest) (calls : list body_call)
    (c : body_call) :
  non_nil_call c = true ->
  (let s' := snd (run_body_call (fold_left run_body_call calls (st, s)) c) in
   if multipart_call c
   then bodyProvider s' = None /\ is_Some (multipartBodyProvider s')
   else is_Some (bodyProvider s') /\ multipartBodyProvider s' = None) /\
  (at_most_one_body s ->
   at_most_one_body (snd (fold_left run_body_call calls (st, s)))).
Proof.
  intros Hc. split.
  - destruct (fold_left run_body_call calls (st, s)) as [st1 s1].
    apply non_nil_call_selects, Hc.
  - revert st s. induction calls as [|c0 calls IH]; intros st s Hs; [exact Hs|].
    cbn [fold_left]. pose proof (run_body_call_at_most_one (st, s) c0 Hs) as H.
    destruct (run_body_call (st, s) c0) as [st1 s1]. apply IH, H.
Qed.

Lemma body_slots_exclusive_witness :
  non_nil_call (CallBodyXML (Some (AnyInt 2))) = true /\
  (let s' := snd (run_body_call
                    (fold_left run_body_call example_body_calls
                       (empty_store, New (example_config 200)))
                    (CallBodyXML (Some (AnyInt 2)))) in
   bodyProvider s' = Some (xmlProvider (AnyInt 2)) /\
   multipartBodyProvider s' = None) /\
  at_most_one_body
    (snd (fold_left run_body_call example_body_calls
            (empty_store, New (example_config 200)))).
Proof.
  split; [reflexivity|].
  destruct (body_slots_exclusive empty_store (New (example_config 200))
              example_body_calls (CallBodyXML (Some (AnyInt 2))) eq_refl)
    as [Hsel Hinv].
  split.
  - split; [reflexivity | apply Hsel].
  - apply Hinv. left. reflexivity.
Defined.

(** ** Status 204 *)

(** C6: when the transport returns a response with status 204 and no
    error, [Do] returns that response (its body drained and closed) with
    a nil error, and both targets are what they were, whichever targets
    were passed. *)
Theorem Do_no_content_skips_decoding (s : Rest) (req : HttpRequest)
    (successV failureV : target) (resp : Response) :
  httpClient s req = (Some resp, None) ->
  StatusCode resp = StatusNoContent ->
  Rest.Do s req successV failureV
  = Ok (Some (Rest.drain_and_close resp), None, successV, failureV).
Proof.
  intros Hdo Hcode. unfold Rest.Do. rewrite Hdo, Hcode. reflexivity.
Qed.

Lemma Do_no_content_skips_decoding_witness :
  Rest.Do (New (example_config 204)) example_request
    (ValueTarget (AnyInt 0)) (RawTarget None)
  = Ok (Some (Rest.drain_and_close (mkResponse "" 204 ∅ (mkBody "{}" None false))),
        None, ValueTarget (AnyInt 0), RawTarget None).
Proof.
  apply (Do_no_content_skips_decoding (New (example_config 204)) example_request
           (ValueTarget (AnyInt 0)) (RawTarget None)
           (mkResponse "" 204 ∅ (mkBody "{}" None false))); reflexivity.
Defined.

(** For contrast, a 200 response is decoded into the success target. *)
Example Do_ok_decodes :
  Rest.Do (New (example_config 200)) example_request
    (ValueTarget (AnyInt 0)) (RawTarget None)
  = Ok (Some (mkResponse "" 200 ∅ (mkBody "" None true)), None,
        ValueTarget (AnyString "{}"), RawTarget None).
Proof. reflexivity. Qed.

(** ** [Path] and a path that does not parse *)

Lemma Parse_error_nil (rawURL : string) (e : error) :
  snd (url.Parse rawURL) = Some e -> fst (url.Parse rawURL) = None.
Proof.
  unfold url.Parse. destruct (Cut rawURL "#") as [[u frag] found].
  destruct (url.parse u false) as [parsed|err]; [|reflexivity].
  destruct (String.eqb frag ""); [discriminate|].
  destruct (url.setFragment parsed frag); [discriminate | reflexivity].
Qed.

Lemma set_url_same (s : Rest) : set_url s (baseURL s) (rawURL s) = s.
Proof. destruct s; reflexivity. Qed.

(** C10: when [url.Parse] rejects the path, [Path] returns the builder
    exactly as it was ([baseURL], [rawURL] and every other field), and
    [Path] has no error result to report the failure with. *)
Theorem Path_ignores_unparsable_path (s : Rest) (path : string) (e : error) :
  snd (url.Parse path) = Some e ->
  Rest.Path s path = s.
Proof.
  intros Herr. pose proof (Parse_error_nil path e Herr) as Hnil.
  unfold Rest.Path. destruct (url.Parse path) as [u err]. simpl in *. subst.
  destruct (baseURL s) eqn:Hb; [reflexivity|].
  rewrite <- Hb. apply set_url_same.
Qed.

Lemma Path_ignores_unparsable_path_witness :
  snd (url.Parse ":foo")
  = Some (UrlError "parse" ":foo" (errorString "missing protocol scheme")) /\
  Rest.Path (New (example_config 200)) ":foo" = New (example_config 200).
Proof.
  split; [reflexivity|].
  apply (Path_ignores_unparsable_path (New (example_config 200)) ":foo"
           (UrlError "parse" ":foo" (errorString "missing protocol scheme"))).
  reflexivity.
Defined.

(** ** The retry loop *)

Lemma invocations_app (a b : list event) :
  invocations (a ++ b) = (invocations a + invocations b)%nat.
Proof. unfold invocations. rewrite filter_app, length_app. reflexivity. Qed.




Lemma rewind_ok (req req' : Request) (n : nat) :
  rewind req n = (req', None) ->
  body req' = body req /\ Ctx req' = Ctx req /\
  Method (Request_ req') = Method (Request_ req) /\
  URL (Request_ req') = URL (Request_ req).
Proof.
  unfold rewind. destruct (body req) as [f|] eqn:Hb.
  - destruct (f n); intros H; inversion H; subst; simpl; auto.
  - intros H; inversion H; subst; auto.
Qed.

Lemma rewind_err (req req' : Request) (n : nat) (e : error) :
  rewind req n = (req', Some e) ->
  exists f, body req = Some f /\ f n = inr e.
Proof.
  unfold rewind. destruct (body req) as [f|] eqn:Hb; [|discriminate].
  destruct (f n) eqn:Hf; intros H; inversion H; subst. eauto.
Qed.




(** A negative [RetryMax] still gives one call, more than [RetryMax + 1]. *)
Example DoCustom_negative_RetryMax :
  match DoCustom (WithRetryTimes (-3) cancelled_wait_doer) cancelled_wait_request with
  | Some (Ok (_, Some e, tr)) =>
      invocations tr = 1%nat /\ attempts_reported e = Some 1
  | _ => False
  end.
Proof. vm_compute. split; reflexivity. Qed.


(** The scenario of the specification: 503 three times, then 200, with
    [RetryMax = 4]: four calls, and the response of the fourth. *)
Example DoCustom_503_503_503_200 :
  match DoCustom
          (NewRetryDoer amd64
             (fun n _ => (Some (response_with_status (if (n <? 3)%nat then 503 else 200)),
                          None)))
          (mkRequest None (mkHttpRequest "GET" "https://a.io/" ∅ None)
             (mkContext (fun _ => None) (fun _ _ => None))) with
  | Some (Ok (Some r, None, tr)) => StatusCode r = 200 /\ invocations tr = 4%nat
  | _ => False
  end.
Proof. vm_compute. split; reflexivity. Qed.

(** ** Cancellation *)





(** ** The default backoff *)

Lemma bitlen_nonneg (m : Z) : 0 <= bitlen m.
Proof.
  unfold bitlen. destruct (m =? 0); [lia|]. pose proof (Z.log2_nonneg (Z.abs m)). lia.
Qed.

Lemma bitlen_bound (m n : Z) : 0 <= m < 2 ^ n -> 0 <= n -> bitlen m <= n.
Proof.
  intros Hm Hn. unfold bitlen. destruct (Z.eqb_spec m 0) as [->|Hne]; [lia|].
  rewrite Z.abs_eq by lia.
  assert (Z.log2 m < n) by (apply Z.log2_lt_pow2; lia). lia.
Qed.

Lemma bitlen_lower (m : Z) : 0 < m -> 2 ^ (bitlen m - 1) <= m.
Proof.
  intros Hm. unfold bitlen. destruct (Z.eqb_spec m 0) as [->|Hne]; [lia|].
  rewrite Z.abs_eq by lia. replace (Z.log2 m + 1 - 1) with (Z.log2 m) by lia.
  apply Z.log2_spec, Hm.
Qed.

Lemma bitlen_mul_pow2 (m k : Z) : 0 < m -> 0 <= k -> bitlen (m * 2 ^ k) = bitlen m + k.
Proof.
  intros Hm Hk. unfold bitlen.
  assert (0 < 2 ^ k) by (apply Z.pow_pos_nonneg; lia).
  assert (0 < m * 2 ^ k) by nia.
  destruct (Z.eqb_spec (m * 2 ^ k) 0); [lia|].
  destruct (Z.eqb_spec m 0); [lia|].
  rewrite !Z.abs_eq by lia. rewrite Z.log2_mul_pow2 by lia. lia.
Qed.

(** A number of at most 53 bits with an exponent in range is represented
    as it is. *)
Lemma round64_exact (m e : Z) :
  bitlen m <= 53 -> -1074 <= e -> bitlen m + e <= 1024 ->
  round64 m e = FFin m e.
Proof.
  intros Hb He Ho. unfold round64.
  replace (Z.max (bitlen m - 53) (-1074 - e) <=? 0) with true
    by (symmetry; apply Z.leb_le; lia).
  replace (1024 <? bitlen m + e) with false by (symmetry; apply Z.ltb_ge; lia).
  rewrite andb_false_r. reflexivity.
Qed.

Lemma round64_overflow (m e : Z) :
  m <> 0 -> bitlen m <= 53 -> -1074 <= e -> 1024 < bitlen m + e ->
  round64 m e = FInf (m <? 0).
Proof.
  intros Hm Hb He Ho. unfold round64.
  replace (Z.max (bitlen m - 53) (-1074 - e) <=? 0) with true
    by (symmetry; apply Z.leb_le; lia).
  replace (1024 <? bitlen m + e) with true by (symmetry; apply Z.ltb_lt; lia).
  replace (m =? 0) with false by (symmetry; apply Z.eqb_neq; exact Hm).
  reflexivity.
Qed.

(** An [int64] of the form [m * 2^k] with [m] below [2^53] converts to
    [float64] without rounding. *)
Lemma float64_of_int_scaled (m k : Z) :
  0 <= m < 2 ^ 53 -> 0 <= k -> m * 2 ^ k <= MaxInt64 ->
  exists m' e', float64_of_int (m * 2 ^ k) = FFin m' e' /\
                0 <= e' <= k /\ m' = m * 2 ^ (k - e').
Proof.
  intros Hm Hk Ht. unfold float64_of_int.
  assert (Hpk : 0 < 2 ^ k) by (apply Z.pow_pos_nonneg; lia).
  assert (Ht0 : 0 <= m * 2 ^ k) by nia.
  assert (Hbt : bitlen (m * 2 ^ k) <= 63).
  { apply bitlen_bound; [|lia]. unfold MaxInt64 in Ht. lia. }
  destruct (Z.le_gt_cases (bitlen (m * 2 ^ k)) 53) as [Hsmall|Hbig].
  - exists (m * 2 ^ k), 0. rewrite round64_exact by lia.
    rewrite Z.sub_0_r. repeat split; lia.
  - assert (Hmpos : 0 < m).
    { destruct (Z.eq_dec m 0) as [->|]; [|lia]. rewrite Z.mul_0_l in Hbig.
      vm_compute in Hbig. discriminate. }
    pose proof (bitlen_mul_pow2 m k Hmpos Hk) as Hbl.
    pose proof (bitlen_bound m 53 Hm ltac:(lia)) as Hbm.
    set (d := bitlen (m * 2 ^ k) - 53) in *.
    assert (Hd : 0 < d <= k) by lia.
    assert (Hsplit : m * 2 ^ k = m * 2 ^ (k - d) * 2 ^ d).
    { rewrite <- Z.mul_assoc, <- Z.pow_add_r by lia. f_equal. f_equal. lia. }
    assert (Hpd : 0 < 2 ^ d) by (apply Z.pow_pos_nonneg; lia).
    assert (Hpkd : 0 < 2 ^ (k - d)) by (apply Z.pow_pos_nonneg; lia).
    exists (m * 2 ^ (k - d)), d. unfold round64.
    replace (Z.max (bitlen (m * 2 ^ k) - 53) (-1074 - 0)) with d by (unfold d; lia).
    replace (d <=? 0) with false by (symmetry; apply Z.leb_gt; lia).
    assert (Hdiv : div_round_even (Z.abs (m * 2 ^ k)) d = m * 2 ^ (k - d)).
    { rewrite Z.abs_eq by lia. unfold div_round_even. cbv zeta.
      assert (Hq : m * 2 ^ k / 2 ^ d = m * 2 ^ (k - d))
        by (rewrite Hsplit; apply Z.div_mul; lia).
      assert (Hr : (m * 2 ^ k) mod 2 ^ d = 0)
        by (rewrite Hsplit; apply Z.mod_mul; lia).
      rewrite Hq, Hr.
      assert (0 < 2 ^ (d - 1)) by (apply Z.pow_pos_nonneg; lia).
      replace (0 <? 2 ^ (d - 1)) with true by (symmetry; apply Z.ltb_lt; lia).
      reflexivity. }
    rewrite Hdiv. rewrite Z.sgn_pos by nia. rewrite Z.mul_1_l, Z.add_0_l.
    assert (Hq : bitlen (m * 2 ^ (k - d)) <= 63).
    { apply bitlen_bound; [|lia]. unfold MaxInt64 in Ht. split; [nia|]. nia. }
    replace (1024 <? bitlen (m * 2 ^ (k - d)) + d) with false
      by (symmetry; apply Z.ltb_ge; lia).
    rewrite andb_false_r. repeat split; lia.
Qed.

(** The exponential branch on its exact range. *)
Lemma exponentialBackoff_clamp (a : arch) (min max k : Z) :
  0 <= min < 2 ^ 53 -> in_int64 max -> 0 <= k -> (0 < min \/ k <= 1023) ->
  exponentialBackoff a min max k = if max <? min * 2 ^ k then max else min * 2 ^ k.
Proof.
  intros Hmin Hmax Hk Hnan. unfold in_int64, MinInt64, MaxInt64 in Hmax.
  assert (Hpk : 0 < 2 ^ k) by (apply Z.pow_pos_nonneg; lia).
  pose proof (bitlen_bound min 53 Hmin ltac:(lia)) as Hbm.
  pose proof (bitlen_nonneg min) as Hb0.
  assert (Hinf : forall s : Z,
            (s = MinInt64 \/ s = MaxInt64) -> 0 < min -> 2 ^ 63 <= min * 2 ^ k ->
            (if negb (feqb (float64_of_int s) (FInf false)) || (max <? s)
             then max else s)
            = if max <? min * 2 ^ k then max else min * 2 ^ k).
  { intros s Hs Hpos Hbig.
    replace (max <? min * 2 ^ k) with true by (symmetry; apply Z.ltb_lt; lia).
    destruct Hs as [-> | ->]; reflexivity. }
  assert (Hof : float64_of_int min = FFin min 0).
  { unfold float64_of_int. apply round64_exact; lia. }
  unfold exponentialBackoff. rewrite Hof.
  destruct (Z.le_gt_cases k 1023) as [Hk1|Hk1].
  - (* the power of two is finite *)
    assert (Hpow : Pow2 k = FFin 1 k).
    { unfold Pow2. apply round64_exact; change (bitlen 1) with 1; lia. }
    rewrite Hpow. cbn [fmul]. rewrite Z.mul_1_l, Z.add_0_r.
    destruct (Z.le_gt_cases (bitlen min + k) 1024) as [Hfin|Hovf].
    + rewrite round64_exact by lia.
      cbn [float64_to_int64]. unfold ftrunc.
      replace (0 <=? k) with true by (symmetry; apply Z.leb_le; lia).
      destruct (in_int64b (min * 2 ^ k)) eqn:Hin.
      * unfold in_int64b in Hin. apply andb_prop in Hin. destruct Hin as [_ Hin].
        apply Z.leb_le in Hin.
        destruct (float64_of_int_scaled min k Hmin Hk Hin) as (m' & e' & Hf & He' & Hm').
        rewrite Hf. cbn [feqb]. rewrite Z.min_l by lia.
        rewrite Z.sub_diag, Z.pow_0_r, Z.mul_1_r, Hm', Z.eqb_refl. reflexivity.
      * assert (Hbig : 2 ^ 63 <= min * 2 ^ k).
        { unfold in_int64b, MinInt64, MaxInt64 in Hin.
          apply andb_false_iff in Hin. destruct Hin as [Hin|Hin].
          - apply Z.leb_gt in Hin. nia.
          - apply Z.leb_gt in Hin. lia. }
        replace (max <? min * 2 ^ k) with true by (symmetry; apply Z.ltb_lt; lia).
        destruct a.
        -- (* amd64: the least int64, a negative float *)
           change (float64_of_int MinInt64) with (FFin (- 2 ^ 52) 11).
           cbn [feqb].
           assert (Hneq : (- 2 ^ 52 * 2 ^ (11 - Z.min 11 k)
                           =? min * 2 ^ (k - Z.min 11 k)) = false).
           { apply Z.eqb_neq.
             assert (0 < 2 ^ (11 - Z.min 11 k)) by (apply Z.pow_pos_nonneg; lia).
             assert (0 < 2 ^ (k - Z.min 11 k)) by (apply Z.pow_pos_nonneg; lia).
             nia. }
           rewrite Hneq. reflexivity.
        -- (* arm64: the greatest int64 *)
           replace (min * 2 ^ k <? 0) with false by (symmetry; apply Z.ltb_ge; lia).
           destruct (negb (feqb (float64_of_int MaxInt64) (FFin min k))); [reflexivity|].
           cbn [orb]. unfold MaxInt64.
           destruct (Z.ltb_spec max (2 ^ 63 - 1)); [reflexivity | lia].
    + (* the product overflows *)
      assert (Hpos : 0 < min).
      { destruct (Z.eq_dec min 0) as [->|]; [|lia]. change (bitlen 0) with 0 in Hovf. lia. }
      rewrite round64_overflow by lia.
      replace (min <? 0) with false by (symmetry; apply Z.ltb_ge; lia).
      assert (Hbig : 2 ^ 63 <= min * 2 ^ k).
      { pose proof (bitlen_lower min Hpos) as Hlow.
        assert (2 ^ 63 <= 2 ^ (bitlen min - 1) * 2 ^ k).
        { rewrite <- Z.pow_add_r by lia. apply Z.pow_le_mono_r; lia. }
        nia. }
      destruct a; cbn [float64_to_int64]; apply Hinf; auto.
  - (* the power of two is infinite *)
    assert (Hpos : 0 < min) by lia.
    assert (Hpow : Pow2 k = FInf false).
    { unfold Pow2. rewrite round64_overflow; change (bitlen 1) with 1; try lia. reflexivity. }
    rewrite Hpow. cbn [fmul].
    replace (min =? 0) with false by (symmetry; apply Z.eqb_neq; lia).
    replace (min <? 0) with false by (symmetry; apply Z.ltb_ge; lia).
    assert (Hbig : 2 ^ 63 <= min * 2 ^ k).
    { assert (2 ^ 63 <= 2 ^ k) by (apply Z.pow_le_mono_r; lia). nia. }
    destruct a; cbn [float64_to_int64 xorb]; apply Hinf; auto.
Qed.

(** C3, as stated, fails: a 429 response with [Retry-After: 9223372037]
    carries a header that parses as an integer, but the product with
    [time.Second] overflows [int64], and the result is a negative
    duration, not 9223372037 seconds. *)
Lemma DefaultBackoff_retry_after_overflow :
  ParseInt10 "9223372037" = Some 9223372037 /\
  DefaultBackoff amd64 Second (30 * Second) 0 (Some (response_retry_after "9223372037"))
  = Ok (-9223372036709551616) /\
  -9223372036709551616 <> 9223372037 * Second.
Proof. split; [reflexivity|]. split; [vm_compute; reflexivity | discriminate]. Qed.

(** Outside the exact range of [float64] the exponential branch is not
    [min * 2^attemptNum] clamped to [max] either: a zero minimum at the
    attempt 1024 gives [max] (the product is infinity times zero), a
    minimum of [2^53 + 1] is rounded, and a negative attempt number whose
    product is not an integer gives [max]. *)
Example exponentialBackoff_nan :
  exponentialBackoff amd64 0 (30 * Second) 1024 = 30 * Second.
Proof. vm_compute. reflexivity. Qed.

Example exponentialBackoff_rounds :
  exponentialBackoff amd64 (2 ^ 53 + 1) (2 ^ 62) 0 = 2 ^ 53.
Proof. vm_compute. reflexivity. Qed.

Example exponentialBackoff_negative_attempt :
  exponentialBackoff amd64 1 100 (-1) = 100.
Proof. vm_compute. reflexivity. Qed.

(** A 429 response whose [Retry-After] header has no value makes
    [DefaultBackoff] panic on [s[0]]. *)
Example DefaultBackoff_empty_retry_after_panics :
  exists msg,
    DefaultBackoff amd64 Second (30 * Second) 0
      (Some (mkResponse "" 429 {[ "Retry-After"%string := [] ]} (mkBody "" None false)))
    = Panic msg.
Proof. eexists. reflexivity. Qed.

(** [round64] agrees with the rounding of the Standard Library's
    specification of IEEE-754 binary64 on a grid that covers exact
    values, ties, subnormal numbers, underflow and overflow. *)
Example round64_agrees_with_binary_normalize :
  forallb (fun '(m, e) => same_float (round64 m e) (binary_normalize 53 1024 m e false))
    rounding_grid = true.
Proof. vm_compute. reflexivity. Qed.

Lemma wrap64_in_range (z : Z) : in_int64 z -> wrap64 z = z.
Proof.
  unfold in_int64, MinInt64, MaxInt64, wrap64. intros H.
  rewrite Z.mod_small by lia. lia.
Qed.

Lemma clamp_monotone (min max k1 k2 : Z) :
  0 <= min -> 0 <= k1 <= k2 ->
  (if max <? min * 2 ^ k1 then max else min * 2 ^ k1)
  <= (if max <? min * 2 ^ k2 then max else min * 2 ^ k2).
Proof.
  intros Hmin Hk.
  assert (2 ^ k1 <= 2 ^ k2) by (apply Z.pow_le_mono_r; lia).
  assert (0 < 2 ^ k1) by (apply Z.pow_pos_nonneg; lia).
  destruct (Z.ltb_spec max (min * 2 ^ k1)), (Z.ltb_spec max (min * 2 ^ k2)); nia.
Qed.

(** In the [Retry-After] branch the seconds are multiplied in [int64]. *)
Lemma DefaultBackoff_retry_after (a : arch) (min max k : Z) (resp : option Response)
    (s0 : string) (rest : list string) (n : Z) :
  Retry_After resp = Some (s0 :: rest) -> ParseInt10 s0 = Some n ->
  DefaultBackoff a min max k resp = Ok (wrap64 (Second * n)).
Proof.
  intros Hra Hparse. unfold DefaultBackoff. unfold Retry_After in Hra.
  destruct resp as [r|]; [|discriminate].
  destruct (StatusCode r =? StatusTooManyRequests); [|discriminate].
  rewrite Hra, Hparse. reflexivity.
Qed.

(** C3 (amended): [DefaultBackoff(min, max, attemptNum, resp)]
    - returns [n] seconds whenever [resp] is not nil, has status 429, and
      the first value of its [Retry-After] header parses as an integer
      [n] with [|n| <= 9223372036], so that [n] seconds are a [Duration];
    - otherwise (no such header, or a first value that does not parse),
      for [0 <= attemptNum], [0 <= min < 2^53] nanoseconds, and
      [attemptNum <= 1023] when [min = 0], returns [min * 2^attemptNum]
      if that is at most [max], and [max] if not;
    - on that range the exponential value is at most [max] once clamped
      and never decreases when [attemptNum] grows. *)
Theorem DefaultBackoff_spec (a : arch) (min max k1 k2 : Z) (resp : option Response) :
  (forall s0 rest n,
     Retry_After resp = Some (s0 :: rest) -> ParseInt10 s0 = Some n ->
     -9223372036 <= n <= 9223372036 ->
     DefaultBackoff a min max k1 resp = Ok (n * Second)) /\
  (0 <= min < 2 ^ 53 -> in_int64 max -> 0 <= k1 <= k2 -> (0 < min \/ k2 <= 1023) ->
   ((Retry_After resp = None \/
     exists s0 rest, Retry_After resp = Some (s0 :: rest) /\ ParseInt10 s0 = None) ->
    DefaultBackoff a min max k1 resp
    = Ok (if max <? min * 2 ^ k1 then max else min * 2 ^ k1)) /\
   exponentialBackoff a min max k1 <= exponentialBackoff a min max k2 /\
   (min * 2 ^ k1 <= max -> exponentialBackoff a min max k1 = min * 2 ^ k1) /\
   (max < min * 2 ^ k1 -> exponentialBackoff a min max k1 = max)).
Proof.
  split.
  - intros s0 rest n Hra Hparse Hn.
    rewrite (DefaultBackoff_retry_after a min max k1 resp s0 rest n Hra Hparse).
    rewrite wrap64_in_range; [now rewrite Z.mul_comm|].
    unfold in_int64, MinInt64, MaxInt64, Second. lia.
  - intros Hmin Hmax Hk Hnan.
    assert (Hc1 := exponentialBackoff_clamp a min max k1 Hmin Hmax ltac:(lia) ltac:(lia)).
    assert (Hc2 := exponentialBackoff_clamp a min max k2 Hmin Hmax ltac:(lia) ltac:(lia)).
    split; [|split; [|split]].
    + intros Hra. rewrite <- Hc1. unfold DefaultBackoff. unfold Retry_After in Hra.
      destruct resp as [r|]; [|reflexivity].
      destruct (StatusCode r =? StatusTooManyRequests); [|reflexivity].
      destruct Hra as [Hra | (s0 & rest & Hra & Hparse)].
      * rewrite Hra. reflexivity.
      * rewrite Hra, Hparse. reflexivity.
    + rewrite Hc1, Hc2. apply clamp_monotone; lia.
    + intros Hle. rewrite Hc1.
      destruct (Z.ltb_spec max (min * 2 ^ k1)); [lia | reflexivity].
    + intros Hlt. rewrite Hc1.
      destruct (Z.ltb_spec max (min * 2 ^ k1)); [reflexivity | lia].
Qed.

Lemma DefaultBackoff_spec_witness :
  DefaultBackoff arm64 Second (30 * Second) 2 (Some (response_retry_after "2"))
  = Ok (2 * Second) /\
  (0 <= Second < 2 ^ 53) /\ in_int64 (30 * Second) /\ 0 <= 2 <= 5 /\
  (0 < Second \/ 5 <= 1023) /\
  DefaultBackoff arm64 Second (30 * Second) 2 (Some (response_with_status 503))
  = Ok (4 * Second) /\
  exponentialBackoff arm64 Second (30 * Second) 2
  <= exponentialBackoff arm64 Second (30 * Second) 5.
Proof.
  pose proof (DefaultBackoff_spec arm64 Second (30 * Second) 2 5
                (Some (response_retry_after "2"))) as [Hra _].
  pose proof (DefaultBackoff_spec arm64 Second (30 * Second) 2 5
                (Some (response_with_status 503))) as [_ Hexp].
  assert (H1 : 0 <= Second < 2 ^ 53) by (unfold Second; lia).
  assert (H2 : in_int64 (30 * Second))
    by (unfold in_int64, MinInt64, MaxInt64, Second; lia).
  assert (H3 : 0 <= 2 <= 5) by lia.
  assert (H4 : 0 < Second \/ 5 <= 1023) by (right; lia).
  assert (Ha := Hra "2"%string [] 2 eq_refl eq_refl ltac:(lia)).
  destruct (Hexp H1 H2 H3 H4) as (Hd & Hmono & _ & _).
  split; [exact Ha|].
  split; [exact H1|]. split; [exact H2|]. split; [exact H3|]. split; [exact H4|].
  split; [|exact Hmono].
  rewrite (Hd (or_introl eq_refl)). reflexivity.
Defined.

(** ** [Base] followed by [Path] *)

(** C5, as stated, fails: the base "https://a.io/foo" has no trailing
    slash and the path "bar" no leading slash, but the reference
    resolution replaces the last segment of the base (the case
    [{"https://a.io/foo", "bar", "https://a.io/bar"}] of the package's
    [TestPathSetter]). *)
Lemma Base_Path_replaces_last_segment :
  HasSuffix "https://a.io/foo" "/" = false /\
  HasPrefix "bar" "/" = false /\
  (s ← Rest.Base (New (example_config 200)) "https://a.io/foo";
   Ok (rawURL (Rest.Path s "bar"))) = Ok "https://a.io/bar"%string /\
  "https://a.io/bar"%string <> ("https://a.io/foo" +:+ "/" +:+ "bar")%string.
Proof. repeat split; try reflexivity. discriminate. Qed.

(** The cases of [TestPathSetter], on the model. *)
Example TestPathSetter_cases :
  map (fun '(base, path) => base_then_path base path)
    [("https://a.io/", "foo"); ("https://a.io/", "/foo");
     ("https://a.io", "foo"); ("https://a.io", "/foo");
     ("https://a.io/foo/", "bar");
     ("https://a.io/foo", "bar"); ("https://a.io/foo", "/bar");
     ("https://a.io", "https://b.io/"); ("https://a.io/", "https://b.io/");
     ("https://a.io", "https://b.io"); ("https://a.io/", "https://b.io");
     ("", "https://b.io"); ("https://a.io", ""); ("", "")]%string
  = map Ok
    ["https://a.io/foo"; "https://a.io/foo";
     "https://a.io/foo"; "https://a.io/foo";
     "https://a.io/foo/bar";
     "https://a.io/bar"; "https://a.io/bar";
     "https://b.io/"; "https://b.io/";
     "https://b.io"; "https://b.io";
     "https://b.io"; "https://a.io"; ""]%string.
Proof. vm_compute. reflexivity. Qed.

Lemma append_cons (c : ascii) (s t : string) : String c s +:+ t = String c (s +:+ t).
Proof. reflexivity. Qed.

Lemma append_nil_l (s : string) : "" +:+ s = s.
Proof. reflexivity. Qed.

Lemma append_nil_r (s : string) : s +:+ "" = s.
Proof.
  induction s as [|c s IH]; [reflexivity|]. rewrite append_cons, IH. reflexivity.
Qed.

Lemma append_assoc (a b c : string) : (a +:+ b) +:+ c = a +:+ (b +:+ c).
Proof.
  induction a as [|x a IH]; [reflexivity|]. rewrite !append_cons, IH. reflexivity.
Qed.

Lemma string_forallb_impl (p q : ascii -> bool) (s : string) :
  (forall c, p c = true -> q c = true) ->
  string_forallb p s = true -> string_forallb q s = true.
Proof.
  intros Hpq. induction s as [|c s IH]; simpl; [reflexivity|].
  intros H. apply andb_prop in H. destruct H as [Hc Hs].
  rewrite (Hpq c Hc), (IH Hs). reflexivity.
Qed.

(** What a plain path byte is not. *)
Lemma plain_path_byte_facts (c : ascii) :
  plain_path_byte c = true ->
  url.shouldEscape c url.encodePath = false /\
  ((nat_of_ascii c <? 32)%nat || (nat_of_ascii c =? 127)%nat) = false /\
  Ascii.eqb c "#" = false /\ Ascii.eqb c "?" = false /\
  Ascii.eqb c "%" = false /\ Ascii.eqb c ":" = false /\
  Ascii.eqb c "+" && url.is_query_mode url.encodePath = false.
Proof.
  destruct c as [[] [] [] [] [] [] [] []]; vm_compute; intros H;
    first [discriminate H | repeat split].
Qed.

Lemma Cut_absent (s : string) (sep : ascii) :
  string_forallb (fun c => negb (Ascii.eqb c sep)) s = true ->
  Cut s sep = (s, EmptyString, false).
Proof.
  induction s as [|c s IH]; simpl; [reflexivity|].
  intros H. apply andb_prop in H. destruct H as [Hc Hs].
  apply negb_true_iff in Hc. rewrite Hc, (IH Hs). reflexivity.
Qed.

Lemma Count_absent (s : string) (sep : ascii) :
  string_forallb (fun c => negb (Ascii.eqb c sep)) s = true ->
  Count s sep = 0%nat.
Proof.
  induction s as [|c s IH]; simpl; [reflexivity|].
  intros H. apply andb_prop in H. destruct H as [Hc Hs].
  apply negb_true_iff in Hc. rewrite Hc, (IH Hs). reflexivity.
Qed.

Lemma scheme_scan_no_colon (s : string) (first : bool) :
  string_forallb (fun c => negb (Ascii.eqb c ":")) s = true ->
  url.scheme_scan first s = inl None.
Proof.
  revert first. induction s as [|c s IH]; intros first; simpl; [reflexivity|].
  intros H. apply andb_prop in H. destruct H as [Hc Hs].
  apply negb_true_iff in Hc. rewrite Hc, (IH false Hs).
  destruct (is_alpha c); [reflexivity|].
  destruct (is_digit c || byte_in "+-." c); [destruct first|]; reflexivity.
Qed.

Lemma ContainsByte_absent (s : string) (sep : ascii) :
  string_forallb (fun c => negb (Ascii.eqb c sep)) s = true ->
  ContainsByte s sep = false.
Proof.
  intros H. unfold ContainsByte, string_existsb. apply negb_false_iff.
  revert H. apply string_forallb_impl. intros c Hc. now rewrite eqb_sym.
Qed.

Lemma Cut_before_forallb (p : ascii -> bool) (s : string) (sep : ascii) :
  string_forallb p s = true -> string_forallb p (fst (fst (Cut s sep))) = true.
Proof.
  induction s as [|c s IH]; simpl; [reflexivity|].
  intros H. apply andb_prop in H. destruct H as [Hc Hs].
  destruct (Ascii.eqb c sep); [reflexivity|].
  specialize (IH Hs). destruct (Cut s sep) as [[b a] f]. simpl in *.
  now rewrite Hc, IH.
Qed.

Section plain_strings.
Variable s : string.
Hypothesis Hplain : string_forallb plain_path_byte s = true.

Lemma plain_no (sep : ascii) :
  (forall c, plain_path_byte c = true -> Ascii.eqb c sep = false) ->
  string_forallb (fun c => negb (Ascii.eqb c sep)) s = true.
Proof.
  intros H. revert Hplain. apply string_forallb_impl.
  intros c Hc. now rewrite (H c Hc).
Qed.

Lemma plain_no_hash : string_forallb (fun c => negb (Ascii.eqb c "#")) s = true.
Proof. apply plain_no. intros c Hc. apply (plain_path_byte_facts c Hc). Qed.

Lemma plain_no_question : string_forallb (fun c => negb (Ascii.eqb c "?")) s = true.
Proof. apply plain_no. intros c Hc. apply (plain_path_byte_facts c Hc). Qed.

Lemma plain_no_colon : string_forallb (fun c => negb (Ascii.eqb c ":")) s = true.
Proof. apply plain_no. intros c Hc. apply (plain_path_byte_facts c Hc). Qed.

Lemma plain_no_CTL : url.stringContainsCTLByte s = false.
Proof.
  unfold url.stringContainsCTLByte, string_existsb. apply negb_false_iff.
  revert Hplain. apply string_forallb_impl. intros c Hc.
  destruct (plain_path_byte_facts c Hc) as (_ & -> & _). reflexivity.
Qed.

Lemma plain_unescape : url.unescape s url.encodePath = inl s.
Proof.
  unfold url.unescape.
  assert (Hcheck : url.unescape_check url.encodePath s = None).
  { clear -Hplain. induction s as [|c s0 IH]; [reflexivity|].
    simpl in Hplain. apply andb_prop in Hplain. destruct Hplain as [Hc Hs].
    destruct (plain_path_byte_facts c Hc) as (_ & _ & _ & _ & Hpct & _).
    cbn [url.unescape_check]. rewrite Hpct. cbn [url.is_host_mode andb].
    apply IH, Hs. }
  assert (Hbytes : url.unescape_bytes url.encodePath s = s).
  { clear -Hplain. induction s as [|c s0 IH]; [reflexivity|].
    simpl in Hplain. apply andb_prop in Hplain. destruct Hplain as [Hc Hs].
    destruct (plain_path_byte_facts c Hc) as (_ & _ & _ & _ & Hpct & _ & Hplus).
    cbn [url.unescape_bytes]. rewrite Hpct, Hplus. now rewrite (IH Hs). }
  rewrite Hcheck, Hbytes. reflexivity.
Qed.

Lemma plain_escape : url.escape s url.encodePath = s.
Proof.
  clear -Hplain. induction s as [|c s0 IH]; [reflexivity|].
  simpl in Hplain. apply andb_prop in Hplain. destruct Hplain as [Hc Hs].
  destruct (plain_path_byte_facts c Hc) as (Hesc & _).
  cbn [url.escape]. unfold url.escape_byte. rewrite Hesc. simpl.
  now rewrite (IH Hs).
Qed.

Lemma plain_not_star : String.eqb s "*" = false.
Proof.
  destruct s as [|c s0]; [reflexivity|].
  simpl in Hplain. apply andb_prop in Hplain. destruct Hplain as [Hc _].
  simpl. destruct (Ascii.eqb_spec c "*") as [->|]; [discriminate Hc | reflexivity].
Qed.

(** [setPath] of a plain text stores it, with no raw form. *)
Lemma plain_setPath (u : url.URL) :
  url.setPath u s
  = inl (url.mkURL (url.Scheme u) (url.Opaque u) (url.User u) (url.Host u) s ""
           (url.OmitHost u) (url.ForceQuery u) (url.RawQuery u) (url.Fragment u)
           (url.RawFragment u)).
Proof.
  unfold url.setPath. rewrite plain_unescape, plain_escape, String.eqb_refl.
  reflexivity.
Qed.
End plain_strings.

Lemma HasPrefix_double_slash (s : string) :
  HasPrefix s "/" = false -> HasPrefix s "//" = false.
Proof.
  destruct s as [|c s]; [reflexivity|]. cbn [HasPrefix].
  destruct (Ascii.eqb c "/"); [discriminate | reflexivity].
Qed.

(** A plain relative path parses to a URL that has only that path. *)
Lemma Parse_plain_path (path : string) :
  plain_relative_path path = true ->
  url.Parse path = (Some (url.mkURL "" "" None "" path "" false false "" "" ""), None).
Proof.
  unfold plain_relative_path. intros H.
  apply andb_prop in H. destruct H as [H _].
  apply andb_prop in H. destruct H as [H Hplain].
  apply andb_prop in H. destruct H as [Hne Hslash].
  apply negb_true_iff in Hne, Hslash.
  unfold url.Parse. rewrite (Cut_absent path "#" (plain_no_hash path Hplain)).
  unfold url.parse.
  rewrite (plain_no_CTL path Hplain), Hne, (plain_not_star path Hplain).
  cbn [andb]. unfold url.getScheme.
  rewrite (scheme_scan_no_colon path true (plain_no_colon path Hplain)).
  rewrite (Count_absent path "?" (plain_no_question path Hplain)).
  rewrite andb_false_r.
  rewrite (Cut_absent path "?" (plain_no_question path Hplain)).
  rewrite Hslash, (HasPrefix_double_slash path Hslash).
  rewrite (ContainsByte_absent _ ":"
             (Cut_before_forallb _ path "/" (plain_no_colon path Hplain))).
  change (ToLower "") with ""%string. cbn [negb andb orb String.eqb].
  rewrite andb_false_r.
  rewrite (plain_setPath path Hplain). reflexivity.
Qed.

Lemma split_cons (s : string) (sep : ascii) :
  exists x xs, url.split s sep = x :: xs.
Proof.
  destruct s as [|c s]; simpl; [eauto|].
  destruct (Ascii.eqb c sep); [eauto|]. destruct (url.split s sep); eauto.
Qed.

Lemma join_slash_cons (a b : string) (rest : list string) :
  join_slash (a :: b :: rest) = a +:+ "/" +:+ join_slash (b :: rest).
Proof. reflexivity. Qed.

Lemma join_split (s : string) : join_slash (url.split s "/") = s.
Proof.
  induction s as [|c s IH]; [reflexivity|]. cbn [url.split].
  destruct (split_cons s "/") as (x & xs & Hs). rewrite Hs in *.
  destruct (Ascii.eqb_spec c "/") as [->|Hc].
  - rewrite join_slash_cons, IH. reflexivity.
  - destruct xs as [|y ys].
    + change (join_slash [x]) with x in IH. rewrite IH. reflexivity.
    + rewrite join_slash_cons, append_cons. rewrite join_slash_cons in IH.
      rewrite IH. reflexivity.
Qed.

(** The loop of [resolvePath] over elements none of which is a dot
    segment only appends them. *)
Lemma fold_resolve_step (elems : list string) :
  forall (dst : string) (first : bool),
    elems <> [] -> forallb not_dot_segment elems = true ->
    fold_left url.resolve_step elems (dst, first)
    = (dst +:+ (if first then "" else "/") +:+ join_slash elems, false).
Proof.
  induction elems as [|x rest IH]; intros dst first Hne Hdots; [congruence|].
  cbn [forallb] in Hdots. apply andb_prop in Hdots. destruct Hdots as [Hx Hrest].
  unfold not_dot_segment in Hx. apply andb_prop in Hx. destruct Hx as [Hx1 Hx2].
  apply negb_true_iff in Hx1, Hx2.
  cbn [fold_left]. unfold url.resolve_step at 2. rewrite Hx1, Hx2.
  destruct rest as [|y ys].
  - cbn [fold_left join_slash]. destruct first; rewrite ?append_assoc; reflexivity.
  - rewrite IH by (congruence || assumption).
    rewrite (join_slash_cons x y ys).
    destruct first; rewrite ?append_assoc; reflexivity.
Qed.

Lemma last_not_dot (elems : list string) :
  elems <> [] -> forallb not_dot_segment elems = true ->
  not_dot_segment (List.last elems "") = true.
Proof.
  induction elems as [|x rest IH]; intros Hne Hdots; [congruence|].
  cbn [forallb] in Hdots. apply andb_prop in Hdots. destruct Hdots as [Hx Hrest].
  destruct rest as [|y ys]; [exact Hx|].
  change (List.last (x :: y :: ys) "") with (List.last (y :: ys) "").
  apply IH; [congruence | exact Hrest].
Qed.

Lemma resolvePath_plain (path : string) :
  plain_relative_path path = true ->
  url.resolvePath "" path = String "/" path.
Proof.
  unfold plain_relative_path. intros H.
  apply andb_prop in H. destruct H as [H Hdots].
  apply andb_prop in H. destruct H as [H Hplain].
  apply andb_prop in H. destruct H as [Hne Hslash].
  apply negb_true_iff in Hne, Hslash.
  unfold url.resolvePath. rewrite Hne, Hslash. cbn [negb cut_last].
  rewrite Hne.
  destruct (split_cons path "/") as (x & xs & Hs).
  assert (Hnil : url.split path "/" <> []) by (rewrite Hs; discriminate).
  rewrite (fold_resolve_step _ "/" true Hnil Hdots), join_split.
  pose proof (last_not_dot _ Hnil Hdots) as Hlast.
  unfold not_dot_segment in Hlast. apply andb_prop in Hlast.
  destruct Hlast as [Hl1 Hl2]. apply negb_true_iff in Hl1, Hl2.
  rewrite Hl1, Hl2. cbn [orb].
  destruct path as [|c p]; [discriminate|].
  change ("/" +:+ "" +:+ String c p) with (String "/" (String c p)).
  cbn [HasPrefix] in Hslash. rewrite andb_true_r in Hslash.
  cbv iota beta. rewrite Hslash. reflexivity.
Qed.

Lemma HasSuffix_after_slash (a p : string) :
  String.eqb p "" = false ->
  HasSuffix (a +:+ String "/" p) "/" = HasSuffix p "/".
Proof.
  intros Hp. induction a as [|x a IH].
  - rewrite append_nil_l. cbn [HasSuffix]. cbn [String.eqb]. rewrite Hp.
    rewrite Ascii.eqb_refl. reflexivity.
  - rewrite append_cons. cbn [HasSuffix]. rewrite IH.
    replace (String.eqb (String x (a +:+ String "/" p)) "/") with false; [reflexivity|].
    cbn [String.eqb]. destruct (Ascii.eqb x "/"); [|reflexivity].
    destruct a; reflexivity.
Qed.

(** With a host, what [String] writes before the path depends on the
    scheme, the user and the host only. *)
Lemma String_prefix_host (sch opq : string) (usr : option url.Userinfo)
    (host p rp : string) (omit fq : bool) (rq fr rfr : string) :
  String.eqb host "" = false ->
  url.String_prefix (url.mkURL sch opq usr host p rp omit fq rq fr rfr)
  = url.String_prefix (url.mkURL sch "" usr host "" "" false false "" "" "").
Proof.
  intros Hhost. unfold url.String_prefix.
  cbn [url.Scheme url.Host url.User url.OmitHost url.Path].
  rewrite Hhost. cbn [negb orb andb]. rewrite !andb_false_r, !orb_true_r.
  reflexivity.
Qed.

Lemma plain_slash (path : string) :
  string_forallb plain_path_byte path = true ->
  string_forallb plain_path_byte (String "/" path) = true.
Proof. intros H. cbn [string_forallb]. rewrite H. reflexivity. Qed.

Lemma plain_of_relative (path : string) :
  plain_relative_path path = true ->
  string_forallb plain_path_byte path = true /\ String.eqb path "" = false.
Proof.
  unfold plain_relative_path. intros H.
  apply andb_prop in H. destruct H as [H _].
  apply andb_prop in H. destruct H as [H Hplain].
  apply andb_prop in H. destruct H as [Hne _].
  apply negb_true_iff in Hne. auto.
Qed.

(** Resolving a plain relative path against a base that has a host and
    no path appends a slash and the path to what the base prints as. *)
Lemma resolve_plain_path (sch : string) (usr : option url.Userinfo) (host : string)
    (omit : bool) (rfr path : string) :
  String.eqb host "" = false ->
  plain_relative_path path = true ->
  let u := url.mkURL sch "" usr host "" "" omit false "" "" rfr in
  url.URL_String
    (url.ResolveReference u (url.mkURL "" "" None "" path "" false false "" "" ""))
  = url.URL_String u +:+ String "/" path.
Proof.
  intros Hhost Hpath u.
  destruct (plain_of_relative path Hpath) as [Hplain Hne].
  pose proof (plain_slash path Hplain) as Hplain'.
  assert (Hres :
    url.ResolveReference u (url.mkURL "" "" None "" path "" false false "" "" "")
    = url.mkURL sch "" usr host (String "/" path) "" false false "" "" "").
  { unfold url.ResolveReference, u.
    cbn [url.Scheme url.Host url.User url.Opaque url.Path url.RawPath url.OmitHost
         url.ForceQuery url.RawQuery url.Fragment url.RawFragment].
    rewrite Hne. cbn [String.eqb negb orb andb].
    assert (HEu : url.EscapedPath (url.mkURL sch "" usr host "" "" omit false "" "" rfr)
                  = ""%string) by reflexivity.
    assert (HEr : url.EscapedPath (url.mkURL "" "" None "" path "" false false "" "" "")
                  = path).
    { unfold url.EscapedPath. cbn [url.RawPath url.Path String.eqb negb andb].
      rewrite (plain_not_star path Hplain). apply (plain_escape path Hplain). }
    rewrite HEu, HEr, (resolvePath_plain path Hpath).
    unfold url.setPath_ignore. rewrite (plain_setPath _ Hplain'). reflexivity. }
  rewrite Hres. unfold url.URL_String, u.
  cbn [url.Opaque url.ForceQuery url.RawQuery url.Fragment url.Host String.eqb orb negb].
  rewrite (String_prefix_host sch "" usr host (String "/" path) "" false false "" "" ""
             Hhost).
  rewrite (String_prefix_host sch "" usr host "" "" omit false "" "" rfr Hhost).
  assert (HE1 : url.EscapedPath
                  (url.mkURL sch "" usr host (String "/" path) "" false false "" "" "")
                = String "/" path).
  { unfold url.EscapedPath. cbn [url.RawPath url.Path String.eqb negb andb].
    rewrite ?(plain_not_star _ Hplain'). apply (plain_escape _ Hplain'). }
  assert (HE2 : url.EscapedPath (url.mkURL sch "" usr host "" "" omit false "" "" rfr)
                = ""%string) by reflexivity.
  rewrite HE1, HE2.
  cbn [String.eqb negb andb HasPrefix Cut fst ContainsByte].
  rewrite Ascii.eqb_refl. cbn [negb andb].
  rewrite !andb_false_r. rewrite !append_nil_l, !append_nil_r. reflexivity.
Qed.

(** C5 (amended): for every base URL that [Base] stores unchanged and
    that has a host and no path, query or fragment (such as
    "https://a.io"), and every non-empty relative path without a leading
    slash that is made of bytes a path holds unescaped, has no colon and
    no "." or ".." segment, [Base(base)] followed by [Path(path)] yields
    the raw URL [base + "/" + path]. *)
Theorem Base_Path_extends_host_base (s : Rest) (base path : string) :
  host_only_base base = true ->
  plain_relative_path path = true ->
  exists s1, Rest.Base s base = Ok s1 /\
             rawURL (Rest.Path s1 path) = base +:+ "/" +:+ path.
Proof.
  intros Hbase Hpath. unfold host_only_base in Hbase.
  destruct (url.Parse base) as [[u|] [e|]] eqn:HP; try discriminate.
  repeat (apply andb_prop in Hbase; destruct Hbase as [Hbase ?]).
  repeat match goal with
         | H : String.eqb _ _ = true |- _ => apply String.eqb_eq in H
         | H : negb _ = true |- _ => apply negb_true_iff in H
         end.
  exists (set_url s (Some u) (url.URL_String u)). split.
  { unfold Rest.Base. rewrite HP. reflexivity. }
  unfold Rest.Path. cbn [baseURL set_url]. rewrite (Parse_plain_path path Hpath).
  cbn [rawURL set_url].
  destruct u as [sch opq usr host p rp omit fq rq fr rfr].
  cbn [url.Host url.Path url.RawPath url.Opaque url.RawQuery url.ForceQuery
       url.Fragment] in *. subst.
  rewrite (resolve_plain_path sch usr host omit rfr path) by assumption.
  destruct (plain_of_relative path Hpath) as [_ Hne].
  rewrite (HasSuffix_after_slash _ path Hne).
  destruct (HasSuffix path "/"); reflexivity.
Qed.

Lemma Base_Path_extends_host_base_witness :
  host_only_base "https://a.io" = true /\
  plain_relative_path "v1/users" = true /\
  exists s1, Rest.Base (New (example_config 200)) "https://a.io" = Ok s1 /\
             rawURL (Rest.Path s1 "v1/users") = "https://a.io/v1/users"%string.
Proof.
  split; [reflexivity|]. split; [reflexivity|].
  apply (Base_Path_extends_host_base (New (example_config 200))
           "https://a.io" "v1/users"); reflexivity.
Defined.

(** ** Headers

    The cases of [TestBaseSetter], [TestAddHeader] and [TestSetHeader]
    that do not clone, on the model. *)

Example TestBaseSetter_cases :
  map (fun base => s ← Rest.Base (New (example_config 200)) base; Ok (rawURL s))
    ["https://a.io/"; "https://b.io"; "/path"; "path"; ""]%string
  = map Ok ["https://a.io/"; "https://b.io"; "/path"; "path"; ""]%string.
Proof. vm_compute. reflexivity. Qed.

Example TestAddHeader_canonical_keys :
  header_of
    (let '(st, s) := Rest.AddHeader empty_store (New (example_config 200))
                       "content-tYPE" "application/json" in
     Rest.AddHeader st s "User-AGENT" "nap")
  = {[ "Content-Type"%string := ["application/json"%string];
       "User-Agent"%string := ["nap"%string] ]}.
Proof. vm_compute. reflexivity. Qed.

Example TestAddHeader_appends :
  header_of
    (let '(st, s) := Rest.AddHeader empty_store (New (example_config 200)) "A" "B" in
     Rest.AddHeader st s "a" "c")
  = {[ "A"%string := ["B"; "c"]%string ]}.
Proof. vm_compute. reflexivity. Qed.

Example TestSetHeader_replaces :
  header_of
    (let '(st, s) := Rest.AddHeader empty_store (New (example_config 200)) "A" "B" in
     Rest.SetHeader st s "a" "c")
  = {[ "A"%string := ["c"%string] ]}.
Proof. vm_compute. reflexivity. Qed.

(** ** [Clone] *)

Example template_builder_slice :
  (p ← template_builder; Ok (header (snd p) !! "Accept"%string))
  = Ok (Some (mkSlice 2 3 4)).
Proof. vm_compute. reflexivity. Qed.

(** C9 fails on the code: [Clone] copies the header map but shares each
    value slice with the original. After [c := b.Clone()], add a header
    value to the one builder and then one to the other: the second
    [append] writes into the shared backing array and replaces the value
    the first builder had added. In both directions the builder that was
    not touched sees its header change. *)
Theorem Clone_shares_header_values :
  (p ← template_builder;
   let '(st, b) := p in
   q ← Rest.Clone st b;
   let '(st, c) := q in
   let '(st, b) := Rest.AddHeader st b "Accept" "b/4" in
   let before := header_values st b "Accept" in
   let '(st, c) := Rest.AddHeader st c "Accept" "c/4" in
   Ok (before, header_values st b "Accept"))
  = Ok (Some ["a/1"; "a/2"; "a/3"; "b/4"], Some ["a/1"; "a/2"; "a/3"; "c/4"])%string
  /\
  (p ← template_builder;
   let '(st, b) := p in
   q ← Rest.Clone st b;
   let '(st, c) := q in
   let '(st, c) := Rest.AddHeader st c "Accept" "c/4" in
   let before := header_values st c "Accept" in
   let '(st, b) := Rest.AddHeader st b "Accept" "b/4" in
   Ok (before, header_values st c "Accept"))
  = Ok (Some ["a/1"; "a/2"; "a/3"; "c/4"], Some ["a/1"; "a/2"; "a/3"; "b/4"])%string.
Proof. split; vm_compute; reflexivity. Qed.

(** [Clone] of a builder that has no base URL yet panics: it calls
    [String] on the nil [baseURL]. *)
Example Clone_without_base_panics :
  exists msg, Rest.Clone empty_store (New (example_config 200)) = Panic msg.
Proof. eexists. reflexivity. Qed.

(** What [Clone] does keep apart. The copy of the header map is a map
    with the same entries. *)
Lemma headerCopy_same (h : gmap string slice) :
  map_fold (fun k v (acc : gmap string slice) => <[k := v]> acc) ∅ h = h.
Proof.
  apply (map_fold_weak_ind (fun r m => r = m)); [reflexivity|].
  intros k v m r Hk ->. reflexivity.
Qed.

(** [SetHeader] allocates a new array: no header that lives in the
    store changes its values, whichever builder holds it. *)
Lemma SetHeader_frame (st : store) (s : Rest) (key value : string)
    (h : gmap string slice) :
  (forall k sl, h !! k = Some sl -> (ptr sl < length (strs st))%nat) ->
  Header_view (strs (fst (Rest.SetHeader st s key value))) h = Header_view (strs st) h.
Proof.
  intros Hwf. unfold Rest.SetHeader, Header_Set, literal. cbn [fst strs].
  unfold Header_view. apply map_eq. intros k. rewrite !lookup_fmap.
  destruct (h !! k) as [sl|] eqn:Hk; [|reflexivity]. cbn [fmap option_fmap option_map].
  apply (f_equal Some). unfold slice_elems.
  rewrite lookup_app_l by (apply (Hwf k sl Hk)). reflexivity.
Qed.

(** [QueryStruct] on a clone appends to the clone's own array: the query
    structures of the original are what they were. *)
Lemma Clone_QueryStruct_isolated (st : store) (b : Rest) (st1 : store) (c : Rest)
    (q : option any) :
  (ptr (queryStructs b) < length (vals st))%nat ->
  Rest.Clone st b = Ok (st1, c) ->
  slice_elems (vals (fst (Rest.QueryStruct st1 c q))) (queryStructs b)
  = slice_elems (vals st) (queryStructs b) /\
  slice_elems (vals st1) (queryStructs c) = slice_elems (vals st) (queryStructs b).
Proof.
  intros Hwf Hclone. unfold Rest.Clone in Hclone.
  destruct (baseURL b) as [u|]; [|discriminate].
  destruct (url.Parse (url.URL_String u)) as [base' perr].
  unfold append in Hclone. cbn [len cap nil_slice Nat.add] in Hclone.
  set (xs := slice_elems (vals st) (queryStructs b)) in *.
  destruct (length xs) as [|n] eqn:Hlen.
  - (* nothing to copy: the clone keeps the empty slice *)
    cbn [Nat.leb] in Hclone. inversion Hclone; subst st1 c; clear Hclone.
    apply nil_length_inv in Hlen.
    rewrite list_alter_id by (intros arr; rewrite Hlen; reflexivity). split.
    + unfold Rest.QueryStruct. destruct q as [v|]; cbn [fst vals queryStructs];
        [|reflexivity].
      unfold append. cbn [len cap ptr Nat.add length Nat.leb queryStructs].
      cbn [fst vals]. unfold slice_elems at 1.
      rewrite lookup_app_l by exact Hwf. reflexivity.
    + cbn [vals queryStructs]. rewrite Hlen. reflexivity.
  - (* the clone gets a fresh array holding a copy *)
    cbn [Nat.leb] in Hclone. inversion Hclone; subst st1 c; clear Hclone.
    cbn [vals queryStructs]. split.
    + unfold Rest.QueryStruct. destruct q as [v|]; cbn [fst vals queryStructs].
      * unfold append. cbn [len cap ptr queryStructs].
        destruct (_ <=? _)%nat; cbn [fst vals]; unfold slice_elems.
        -- rewrite list_lookup_alter_ne by lia.
           rewrite lookup_app_l by exact Hwf. reflexivity.
        -- rewrite lookup_app_l by (rewrite length_app; lia).
           rewrite lookup_app_l by exact Hwf. reflexivity.
      * unfold slice_elems. rewrite lookup_app_l by exact Hwf. reflexivity.
    + unfold slice_elems at 1. cbn [ptr len].
      rewrite lookup_app_r by lia. rewrite Nat.sub_diag. cbn [lookup list_lookup default].
      unfold id. rewrite Nat.sub_diag. cbn [replicate]. rewrite app_nil_r.
      apply firstn_all2. lia.
Qed.

(** ** The two retry policies, side by side *)

(** X1: [ErrorPropagatedRetryPolicy] against [DefaultRetryPolicy], on
    every input. They panic on the same inputs. Otherwise, whenever the
    propagating policy retries, so does the default one; the default one
    retries alone exactly for a response with status 429 received
    without any error; and the error of the propagating policy is the
    context's error when there is one, the transport error itself when
    that error is one of the permanent ones, an "unexpected HTTP status"
    error when it retries a response, and none in every other case. *)
Theorem ErrorPropagatedRetryPolicy_vs_default (ctxErr : option error)
    (resp : option Response) (err : option error) :
  match DefaultRetryPolicy ctxErr resp err,
        ErrorPropagatedRetryPolicy ctxErr resp err with
  | Panic _, Panic _ => ctxErr = None /\ err = None /\ resp = None
  | Ok (retry, _), Ok (retry', err') =>
      (retry' = true -> retry = true) /\
      (retry = true /\ retry' = false <->
       ctxErr = None /\ err = None /\
       exists r, resp = Some r /\ StatusCode r = StatusTooManyRequests) /\
      err' = match ctxErr, err, resp with
             | Some e, _, _ => Some e
             | None, Some e, _ => if permanent_transport_error e then Some e else None
             | None, None, Some r =>
                 if retry'
                 then Some (errorString ("unexpected HTTP status " +:+ Status r))
                 else None
             | None, None, None => None
             end
  | _, _ => False
  end.
Proof.
  unfold DefaultRetryPolicy, ErrorPropagatedRetryPolicy.
  destruct ctxErr as [ce|].
  { split; [auto|]. split; [|reflexivity]. split; [intros [? ?]; discriminate|].
    intros [? _]; discriminate. }
  destruct err as [e|].
  { assert (Hno : ~ (@None error = None /\ Some e = None /\
                     exists r, resp = Some r /\ StatusCode r = StatusTooManyRequests)).
    { intros (_ & H & _); discriminate. }
    destruct e as [m| | | |op u inner|m u n cause];
      try (split; [auto|]; split; [|reflexivity]; split;
           [intros [? ?]; discriminate | intros H; destruct (Hno H)]).
    unfold permanent_transport_error, redirect_limit_error, unsupported_scheme_error,
      certificate_trust_error.
    destruct (redirectsErrorRe _); cbn [orb];
      [split; [auto|]; split; [|reflexivity]; split;
       [intros [? ?]; discriminate | intros H; destruct (Hno H)]|].
    destruct (schemeErrorRe _); cbn [orb];
      [split; [auto|]; split; [|reflexivity]; split;
       [intros [? ?]; discriminate | intros H; destruct (Hno H)]|].
    destruct (isUnknownAuthorityError inner);
      split; auto; split; try reflexivity; split;
      try (intros [? ?]; discriminate); intros H; destruct (Hno H). }
  destruct resp as [r|]; [|auto].
  destruct (Z.eqb_spec (StatusCode r) StatusTooManyRequests) as [H429|H429].
  - rewrite H429. cbn [Z.eqb StatusTooManyRequests Z.leb Z.compare orb andb negb
                       Pos.compare Pos.compare_cont Pos.eqb].
    split; [auto|]. split; [|reflexivity]. split; [|auto].
    intros _. repeat split. exists r. rewrite H429. auto.
  - destruct ((StatusCode r =? 0) || _) eqn:Hretry.
    + split; [auto|]. split; [|reflexivity]. split; [intros [? ?]; discriminate|].
      intros (_ & _ & r' & Hr & Hs). inversion Hr; subst. contradiction.
    + split; [intros; discriminate|]. split; [|reflexivity].
      split; [intros [? ?]; discriminate|].
      intros (_ & _ & r' & Hr & Hs). inversion Hr; subst. contradiction.
Qed.

(** ** Bounds of the backoffs *)

Lemma exponentialBackoff_le_max (a : arch) (min max k : Z) :
  exponentialBackoff a min max k <= max.
Proof.
  unfold exponentialBackoff. cbv zeta.
  destruct (negb _); cbn [orb]; [lia|].
  destruct (Z.ltb_spec max (float64_to_int64 a (fmul (Pow2 k) (float64_of_int min)))); lia.
Qed.

(** X2: whatever the arguments, the wait [DefaultBackoff] returns is at
    most [max], unless it is the number of seconds read from the first
    [Retry-After] value of a 429 response, which is returned as it is. *)
Theorem DefaultBackoff_bounded (a : arch) (min max k : Z) (resp : option Response)
    (wait : Z) :
  DefaultBackoff a min max k resp = Ok wait ->
  wait <= max \/
  exists s0 rest n,
    Retry_After resp = Some (s0 :: rest) /\ ParseInt10 s0 = Some n /\
    wait = wrap64 (Second * n).
Proof.
  unfold DefaultBackoff, Retry_After. intros H.
  assert (Hexp : Ok (exponentialBackoff a min max k) = Ok wait -> wait <= max).
  { intros H0. inversion H0; subst. apply exponentialBackoff_le_max. }
  destruct resp as [r|]; [|left; auto].
  destruct (StatusCode r =? StatusTooManyRequests); [|left; auto].
  destruct (Header r !! "Retry-After"%string) as [[|s0 rest]|]; [discriminate| |left; auto].
  destruct (ParseInt10 s0) as [n|] eqn:Hp; [|left; auto].
  right. exists s0, rest, n. inversion H; subst. auto.
Qed.

Lemma DefaultBackoff_bounded_witness :
  DefaultBackoff amd64 Second (30 * Second) 2 (Some (response_retry_after "3600"))
  = Ok (3600 * Second) /\
  (3600 * Second <= 30 * Second \/
   exists s0 rest n,
     Retry_After (Some (response_retry_after "3600")) = Some (s0 :: rest) /\
     ParseInt10 s0 = Some n /\ 3600 * Second = wrap64 (Second * n)).
Proof.
  split; [reflexivity|].
  apply (DefaultBackoff_bounded amd64 Second (30 * Second) 2
           (Some (response_retry_after "3600"))). reflexivity.
Defined.

(** X3: [LinearJitterBackoff] returns [min * (attemptNum + 1)] when
    [max <= min]. When [min < max] it panics, whatever the entropy source
    yields: [randomFloat] asks [crand.Int] for a number below
    [^int64(0)], which is -1, and [crand.Int] panics on a bound that is
    not positive. *)
Theorem LinearJitterBackoff_spec (a : arch) (reader : Z -> Z + error)
    (min max attemptNum : Z) (resp : option Response) :
  (max <= min ->
   LinearJitterBackoff a reader min max attemptNum resp
   = Ok (wrap64 (min * wrap64 (attemptNum + 1)))) /\
  (min < max ->
   LinearJitterBackoff a reader min max attemptNum resp
   = Panic "crypto/rand: argument to Int is <= 0").
Proof.
  unfold LinearJitterBackoff. cbv zeta. split; intros H.
  - destruct (Z.leb_spec max min); [reflexivity | lia].
  - destruct (Z.leb_spec max min); [lia | reflexivity].
Qed.

Lemma LinearJitterBackoff_spec_witness :
  LinearJitterBackoff amd64 (fun _ => inl 0) Second Second 2 None = Ok (3 * Second) /\
  LinearJitterBackoff amd64 (fun _ => inl 0) (800 * 1000000) (1200 * 1000000) 2 None
  = Panic "crypto/rand: argument to Int is <= 0".
Proof.
  split.
  - apply (LinearJitterBackoff_spec amd64 (fun _ => inl 0) Second Second 2 None).
    unfold Second. lia.
  - apply (LinearJitterBackoff_spec amd64 (fun _ => inl 0)
             (800 * 1000000) (1200 * 1000000) 2 None). lia.
Defined.

(** ** What a trace of the retry loop shows *)

Lemma waits_snoc (tr : list event) (ev : event) :
  waits (tr ++ [ev]) = waits tr ++ match ev with EvWait d => [d] | _ => [] end.
Proof. unfold waits. rewrite omap_app. destruct ev; reflexivity. Qed.

Lemma drained_snoc (tr : list event) (ev : event) :
  drained (tr ++ [ev]) = drained tr ++ match ev with EvDrain r => [r] | _ => [] end.
Proof. unfold drained. rewrite omap_app. destruct ev; reflexivity. Qed.

Lemma calls_snoc (tr : list event) (ev : event) :
  calls (tr ++ [ev]) = calls tr ++ match ev with EvDo n r => [(n, r)] | _ => [] end.
Proof. unfold calls. rewrite omap_app. destruct ev; reflexivity. Qed.

Lemma invocations_calls (tr : list event) : invocations tr = length (calls tr).
Proof.
  induction tr as [|ev tr IH]; [reflexivity|].
  change (ev :: tr) with ([ev] ++ tr). rewrite invocations_app.
  unfold calls. rewrite omap_app. fold (calls tr). rewrite length_app, <- IH.
  destruct ev; reflexivity.
Qed.

Lemma rewind_no_body (req : Request) (n : nat) :
  (forall f, body req = Some f -> exists b, f n = inl b) ->
  exists req', rewind req n = (req', None).
Proof.
  intros H. unfold rewind. destruct (body req) as [f|]; [|eauto].
  destruct (H f eq_refl) as [b ->]. eauto.
Qed.

(** The loop, from iteration [i] on, when every attempt is answered by a
    response that the policy wants retried and nothing interrupts. *)
Lemma DoCustom_loop_exhausts (c : RetryDoer) (req0 : Request) :
  ErrorHandler_ c = None ->
  (forall f n, body req0 = Some f -> exists b, f n = inl b) ->
  (forall n rq, exists r w,
     HTTPClient c n rq = (Some r, None) /\
     CheckRetry_ c (ctx_Err (Ctx req0) n) (Some r) None = Ok (true, None) /\
     Backoff_ c (RetryWaitMin c) (RetryWaitMax c) (Z.of_nat n) (Some (drainBody r))
     = Ok w) ->
  (forall n w, ctx_Done (Ctx req0) n w = None) ->
  forall (k : nat) (i : Z) (req : Request) (resp : option Response) (attempt : Z)
         (tr : list event),
    0 <= i ->
    RetryMax c - i = Z.of_nat k ->
    body req = body req0 -> Ctx req = Ctx req0 ->
    Method (Request_ req) = Method (Request_ req0) ->
    URL (Request_ req) = URL (Request_ req0) ->
    exists tr',
      DoCustom_loop c (S k) i req resp attempt tr
      = Some (Ok (None,
                  Some (GivingUp (Method (Request_ req0)) (URL (Request_ req0))
                          (attempt + Z.of_nat k + 1) None),
                  tr')) /\
      length (calls tr') = (length (calls tr) + k + 1)%nat /\
      length (waits tr') = (length (waits tr) + k)%nat /\
      length (drained tr') = (length (drained tr) + k + 1)%nat.
Proof.
  intros Hh Hbody Hdo Hdone.
  induction k as [|k IH]; intros i req resp attempt tr Hi Hk Hb Hc Hm Hu.
  - cbn [DoCustom_loop].
    destruct (rewind_no_body req (Z.to_nat i)) as [req' Hrw].
    { intros f Hf. apply Hbody. rewrite <- Hb. exact Hf. }
    rewrite Hrw. destruct (rewind_ok _ _ _ Hrw) as (Hb' & Hc' & Hm' & Hu').
    destruct (Hdo (Z.to_nat i) (Request_ req')) as (r & w & Hr & Hpol & Hw).
    rewrite Z2Nat.id in Hw by exact Hi.
    rewrite Hr, Hc', Hc, Hpol. cbn [negb].
    replace (RetryMax c - i <=? 0) with true by (symmetry; apply Z.leb_le; lia).
    unfold finish. rewrite Hh. eexists. split.
    { rewrite Hm', Hm, Hu', Hu.
      replace (attempt + Z.of_nat 0 + 1) with (attempt + 1) by lia. reflexivity. }
    rewrite !calls_snoc, !waits_snoc, !drained_snoc, !length_app. cbn [length].
    rewrite ?app_nil_r. lia.
  - remember (S k) as fuel eqn:Hfuel. cbn [DoCustom_loop].
    destruct (rewind_no_body req (Z.to_nat i)) as [req' Hrw].
    { intros f Hf. apply Hbody. rewrite <- Hb. exact Hf. }
    rewrite Hrw. destruct (rewind_ok _ _ _ Hrw) as (Hb' & Hc' & Hm' & Hu').
    destruct (Hdo (Z.to_nat i) (Request_ req')) as (r & w & Hr & Hpol & Hw).
    rewrite Z2Nat.id in Hw by exact Hi.
    rewrite Hr, Hc', Hc, Hpol. cbn [negb].
    replace (RetryMax c - i <=? 0) with false by (symmetry; apply Z.leb_gt; lia).
    rewrite Hw, Hdone. subst fuel.
    destruct (IH (i + 1) req' (Some (drainBody r)) (attempt + 1)
                (((tr ++ [EvDo (Z.to_nat i) (Request_ req')]) ++ [EvDrain r]) ++ [EvWait w]))
      as (tr' & Hloop & Hcalls & Hwaits & Hdrained); try congruence; try lia.
    exists tr'. split.
    { replace (attempt + Z.of_nat (S k) + 1) with (attempt + 1 + Z.of_nat k + 1) by lia.
      exact Hloop. }
    rewrite !calls_snoc, !waits_snoc, !drained_snoc, !length_app in *.
    cbn [length] in *. rewrite ?app_nil_r in *. lia.
Qed.

(** X4: a call whose every attempt is answered by a response that the
    policy wants retried, with no [ErrorHandler], a body that can be
    rewound, a backoff that returns for these responses and a context
    that stays alive, uses
    up the budget: for [RetryMax = N >= 0] the inner executor is called
    exactly [N + 1] times, the loop waits exactly [N] times, every one of
    the [N + 1] responses is drained, and the call returns no response
    and the error "giving up after N+1 attempt(s)", which wraps no
    cause. *)
Theorem DoCustom_exhausts_budget (c : RetryDoer) (req : Request) :
  0 <= RetryMax c ->
  ErrorHandler_ c = None ->
  (forall f n, body req = Some f -> exists b, f n = inl b) ->
  (forall n rq, exists r w,
     HTTPClient c n rq = (Some r, None) /\
     CheckRetry_ c (ctx_Err (Ctx req) n) (Some r) None = Ok (true, None) /\
     Backoff_ c (RetryWaitMin c) (RetryWaitMax c) (Z.of_nat n) (Some (drainBody r))
     = Ok w) ->
  (forall n w, ctx_Done (Ctx req) n w = None) ->
  exists tr,
    DoCustom c req
    = Some (Ok (None,
                Some (GivingUp (Method (Request_ req)) (URL (Request_ req))
                        (RetryMax c + 1) None),
                tr)) /\
    invocations tr = Z.to_nat (RetryMax c + 1) /\
    length (waits tr) = Z.to_nat (RetryMax c) /\
    length (drained tr) = Z.to_nat (RetryMax c + 1).
Proof.
  intros Hmax Hh Hbody Hdo Hdone. unfold DoCustom.
  destruct (DoCustom_loop_exhausts c req Hh Hbody Hdo Hdone
              (Z.to_nat (RetryMax c)) 0 req None 0 [])
    as (tr & Hloop & Hcalls & Hwaits & Hdrained); try reflexivity; try lia.
  exists tr. split.
  { rewrite Hloop. replace (0 + Z.of_nat (Z.to_nat (RetryMax c)) + 1)
      with (RetryMax c + 1) by lia. reflexivity. }
  rewrite invocations_calls.
  change (length (calls [])) with 0%nat in Hcalls.
  change (length (waits [])) with 0%nat in Hwaits.
  change (length (drained [])) with 0%nat in Hdrained. lia.
Qed.

Lemma DoCustom_exhausts_budget_witness :
  exists tr,
    DoCustom (unavailable_doer 2) (mkRequest None example_request background)
    = Some (Ok (None,
                Some (GivingUp "DELETE" "https://example.com/nocontent" 3 None), tr)) /\
    invocations tr = 3%nat /\ length (waits tr) = 2%nat /\ length (drained tr) = 3%nat.
Proof.
  apply (DoCustom_exhausts_budget (unavailable_doer 2)
           (mkRequest None example_request background)).
  - simpl. lia.
  - reflexivity.
  - simpl. intros f n H. discriminate H.
  - intros n rq. eexists. eexists. simpl. repeat split; reflexivity.
  - reflexivity.
Defined.

(** The loop from any iteration on: how a result without an
    [ErrorHandler] is made up. *)
Lemma DoCustom_loop_result (c : RetryDoer) (req0 : Request) :
  ErrorHandler_ c = None ->
  forall (fuel : nat) (i : Z) (req : Request) (resp : option Response) (attempt : Z)
         (tr : list event) (r : option Response) (err : option error)
         (tr' : list event),
    body req = body req0 -> Ctx req = Ctx req0 ->
    DoCustom_loop c fuel i req resp attempt tr = Some (Ok (r, err, tr')) ->
    match err with
    | None =>
        exists tr0 n rq,
          tr' = tr0 ++ [EvDo n rq] /\ HTTPClient c n rq = (r, None) /\
          CheckRetry_ c (ctx_Err (Ctx req0) n) r None = Ok (false, None)
    | Some e => r = None \/ rewind_failed req0 e
    end.
Proof.
  intros Hh. induction fuel as [|fuel IH];
    intros i req resp attempt tr r err tr' Hb Hc Hloop; [discriminate|].
  cbn [DoCustom_loop] in Hloop.
  destruct (rewind req (Z.to_nat i)) as [req' [e|]] eqn:Hrw.
  { inversion Hloop; subst. right.
    destruct (rewind_err _ _ _ _ Hrw) as (f & Hf & Hfn).
    exists f, (Z.to_nat i). rewrite <- Hb. auto. }
  destruct (rewind_ok _ _ _ Hrw) as (Hb' & Hc' & _ & _).
  destruct (HTTPClient c (Z.to_nat i) (Request_ req')) as [resp' doErr] eqn:Hdo.
  rewrite Hc', Hc in Hloop.
  destruct (CheckRetry_ c _ resp' doErr) as [[sr ce]|msg] eqn:Hpol; [|discriminate].
  assert (Hfin : forall sr',
    Some (Ok (finish c req' resp' doErr ce sr' (attempt + 1)
                (tr ++ [EvDo (Z.to_nat i) (Request_ req')])))
    = Some (Ok (r, err, tr')) ->
    (sr' = false -> sr = false) ->
    match err with
    | None =>
        exists tr0 n rq,
          tr' = tr0 ++ [EvDo n rq] /\ HTTPClient c n rq = (r, None) /\
          CheckRetry_ c (ctx_Err (Ctx req0) n) r None = Ok (false, None)
    | Some e => r = None \/ rewind_failed req0 e
    end).
  { intros sr' Hf Hsr. unfold finish in Hf. rewrite Hh in Hf.
    destruct doErr as [de|], ce as [ce'|], sr'; inversion Hf; subst; auto.
    exists tr, (Z.to_nat i), (Request_ req'). rewrite (Hsr eq_refl) in Hpol. auto. }
  destruct sr; cbn [negb] in Hloop; [|apply (Hfin false); auto].
  destruct (RetryMax c - i <=? 0); [apply (Hfin true); [auto | discriminate]|].
  assert (Hcont : forall resp2 tr2,
    match Backoff_ c (RetryWaitMin c) (RetryWaitMax c) i resp2 with
    | Ok wait =>
        match ctx_Done (Ctx req0) (Z.to_nat i) wait with
        | Some e => Some (Ok (None, Some e, tr2 ++ [EvWait wait]))
        | None => DoCustom_loop c fuel (i + 1) req' resp2 (attempt + 1)
                    (tr2 ++ [EvWait wait])
        end
    | Panic msg => Some (Panic msg)
    end = Some (Ok (r, err, tr')) ->
    match err with
    | None =>
        exists tr0 n rq,
          tr' = tr0 ++ [EvDo n rq] /\ HTTPClient c n rq = (r, None) /\
          CheckRetry_ c (ctx_Err (Ctx req0) n) r None = Ok (false, None)
    | Some e => r = None \/ rewind_failed req0 e
    end).
  { intros resp2 tr2 H.
    destruct (Backoff_ c _ _ i resp2) as [wait|msg]; [|discriminate].
    destruct (ctx_Done (Ctx req0) (Z.to_nat i) wait) as [e|].
    - inversion H; subst. auto.
    - apply (IH _ _ _ _ _ _ _ _ (eq_trans Hb' Hb) (eq_trans Hc' Hc) H). }
  destruct doErr as [de|].
  - apply (Hcont _ _ Hloop).
  - destruct resp' as [r'|]; [|discriminate]. apply (Hcont _ _ Hloop).
Qed.

(** X5: without an [ErrorHandler], [DoCustom] returns either a response
    or an error, not both, except when the rewind of the body fails.
    When it returns no error, the response is the one the inner executor
    returned last, without a transport error, and the policy declined to
    retry it without an error of its own: the call to the executor is
    the last event, so the body of that response was not drained. When it
    returns an error, there is no response, unless the error is that of
    the rewind. *)
Theorem DoCustom_result_shape (c : RetryDoer) (req : Request)
    (r : option Response) (err : option error) (tr : list event) :
  ErrorHandler_ c = None ->
  DoCustom c req = Some (Ok (r, err, tr)) ->
  match err with
  | None =>
      exists tr0 n rq,
        tr = tr0 ++ [EvDo n rq] /\ HTTPClient c n rq = (r, None) /\
        CheckRetry_ c (ctx_Err (Ctx req) n) r None = Ok (false, None)
  | Some e => r = None \/ rewind_failed req e
  end.
Proof.
  intros Hh Hrun.
  exact (DoCustom_loop_result c req Hh _ _ _ _ _ _ _ _ _ eq_refl eq_refl Hrun).
Qed.

Lemma DoCustom_result_shape_witness :
  DoCustom (unavailable_doer 1) (mkRequest None example_request background)
  = Some (Ok (None, Some (GivingUp "DELETE" "https://example.com/nocontent" 2 None),
              [EvDo 0 example_request; EvDrain (response_with_status 503);
               EvWait (1 * Second); EvDo 1 example_request;
               EvDrain (response_with_status 503)])) /\
  (@None Response = None \/
   rewind_failed (mkRequest None example_request background)
     (GivingUp "DELETE" "https://example.com/nocontent" 2 None)).
Proof.
  split; [reflexivity|].
  apply (DoCustom_result_shape (unavailable_doer 1)
           (mkRequest None example_request background) None
           (Some (GivingUp "DELETE" "https://example.com/nocontent" 2 None))
           [EvDo 0 example_request; EvDrain (response_with_status 503);
            EvWait (1 * Second); EvDo 1 example_request;
            EvDrain (response_with_status 503)]); reflexivity.
Defined.




Lemma finish_waits (c : RetryDoer) (req : Request) (resp : option Response)
    (doErr checkErr : option error) (shouldRetry : bool) (attempt : Z)
    (tr : list event) :
  waits (snd (finish c req resp doErr checkErr shouldRetry attempt tr)) = waits tr.
Proof.
  unfold finish.
  destruct (ErrorHandler_ c) as [h|].
  - destruct doErr, checkErr, shouldRetry; try destruct (h _ _ _); reflexivity.
  - destruct doErr, checkErr, shouldRetry, resp; cbn [snd];
      rewrite ?waits_snoc, ?app_nil_r; reflexivity.
Qed.

(** The loop from iteration [i] on, under [DefaultBackoff] and an inner
    executor that never answers 429. *)
Lemma DoCustom_loop_waits (c : RetryDoer) (a : arch) :
  Backoff_ c = DefaultBackoff a ->
  (forall n rq resp e,
     HTTPClient c n rq = (Some resp, e) -> StatusCode resp <> StatusTooManyRequests) ->
  forall (fuel : nat) (i : Z) (req : Request) (resp : option Response) (attempt : Z)
         (tr : list event) (r : option Response) (err : option error)
         (tr' : list event),
    Forall (fun d => d <= RetryWaitMax c) (waits tr) ->
    DoCustom_loop c fuel i req resp attempt tr = Some (Ok (r, err, tr')) ->
    Forall (fun d => d <= RetryWaitMax c) (waits tr') /\
    (length (waits tr') <= length (waits tr) + Z.to_nat (RetryMax c - i))%nat.
Proof.
  intros Hback Hno. induction fuel as [|fuel IH];
    intros i req resp attempt tr r err tr' Hall Hloop; [discriminate|].
  cbn [DoCustom_loop] in Hloop.
  destruct (rewind req (Z.to_nat i)) as [req' [e|]].
  { inversion Hloop; subst. split; [exact Hall | lia]. }
  destruct (HTTPClient c (Z.to_nat i) (Request_ req')) as [resp' doErr] eqn:Hdo.
  set (tr1 := tr ++ [EvDo (Z.to_nat i) (Request_ req')]) in *.
  assert (Htr1 : waits tr1 = waits tr).
  { unfold tr1. rewrite waits_snoc, app_nil_r. reflexivity. }
  destruct (CheckRetry_ c _ resp' doErr) as [[sr ce]|msg]; [|discriminate].
  assert (Hfin : forall sr',
    Some (Ok (finish c req' resp' doErr ce sr' (attempt + 1) tr1))
    = Some (Ok (r, err, tr')) ->
    Forall (fun d => d <= RetryWaitMax c) (waits tr') /\
    (length (waits tr') <= length (waits tr) + Z.to_nat (RetryMax c - i))%nat).
  { intros sr' Hf.
    pose proof (finish_waits c req' resp' doErr ce sr' (attempt + 1) tr1) as Hw.
    inversion Hf as [Hf']. rewrite Hf' in Hw. cbn [snd] in Hw.
    rewrite Hw, Htr1. split; [exact Hall | lia]. }
  destruct sr; cbn [negb] in Hloop; [|apply (Hfin false Hloop)].
  destruct (Z.leb_spec (RetryMax c - i) 0) as [Hrem|Hrem]; [apply (Hfin true Hloop)|].
  assert (Hcont : forall resp2 tr2,
    waits tr2 = waits tr ->
    (forall r2, resp2 = Some r2 -> StatusCode r2 <> StatusTooManyRequests) ->
    match Backoff_ c (RetryWaitMin c) (RetryWaitMax c) i resp2 with
    | Ok wait =>
        match ctx_Done (Ctx req') (Z.to_nat i) wait with
        | Some e => Some (Ok (None, Some e, tr2 ++ [EvWait wait]))
        | None => DoCustom_loop c fuel (i + 1) req' resp2 (attempt + 1)
                    (tr2 ++ [EvWait wait])
        end
    | Panic msg => Some (Panic msg)
    end = Some (Ok (r, err, tr')) ->
    Forall (fun d => d <= RetryWaitMax c) (waits tr') /\
    (length (waits tr') <= length (waits tr) + Z.to_nat (RetryMax c - i))%nat).
  { intros resp2 tr2 Htr2 Hst H. rewrite Hback in H.
    destruct (DefaultBackoff a _ _ i resp2) as [wait|msg] eqn:Hw; [|discriminate].
    assert (Hle : wait <= RetryWaitMax c).
    { destruct (DefaultBackoff_bounded _ _ _ _ _ _ Hw) as [Hle | (s0 & rest & n & Hra & _)];
        [exact Hle|].
      unfold Retry_After in Hra. destruct resp2 as [r2|]; [|discriminate].
      destruct (Z.eqb_spec (StatusCode r2) StatusTooManyRequests) as [H429|];
        [|discriminate].
      destruct (Hst r2 eq_refl H429). }
    assert (Hall2 : Forall (fun d => d <= RetryWaitMax c) (waits (tr2 ++ [EvWait wait]))).
    { rewrite waits_snoc, Htr2. apply Forall_app. split; [exact Hall|].
      constructor; [exact Hle | constructor]. }
    assert (Hlen2 : length (waits (tr2 ++ [EvWait wait])) = S (length (waits tr))).
    { rewrite waits_snoc, Htr2, length_app. cbn [length]. lia. }
    destruct (ctx_Done (Ctx req') (Z.to_nat i) wait) as [e|].
    - inversion H; subst. split; [exact Hall2 | lia].
    - destruct (IH _ _ _ _ _ _ _ _ Hall2 H) as [H1 H2]. split; [exact H1|].
      rewrite Hlen2 in H2. lia. }
  destruct doErr as [de|].
  - apply (Hcont resp' tr1 Htr1); [|exact Hloop].
    intros r2 ->. exact (Hno _ _ _ _ Hdo).
  - destruct resp' as [r'|]; [|discriminate].
    apply (Hcont (Some (drainBody r')) (tr1 ++ [EvDrain r'])); [| |exact Hloop].
    + rewrite waits_snoc, app_nil_r. exact Htr1.
    + intros r2 Hr2. inversion Hr2; subst. cbn [drainBody StatusCode].
      exact (Hno _ _ _ _ Hdo).
Qed.

(** X7: with [DefaultBackoff] and an inner executor that never answers
    429, a call waits at most [RetryMax] times and never longer than
    [RetryWaitMax] at a time, so it sleeps for at most
    [RetryMax * RetryWaitMax] in all. *)
Theorem DoCustom_waits_bounded (c : RetryDoer) (a : arch) (req : Request)
    (r : option Response) (err : option error) (tr : list event) :
  Backoff_ c = DefaultBackoff a ->
  (forall n rq resp e,
     HTTPClient c n rq = (Some resp, e) -> StatusCode resp <> StatusTooManyRequests) ->
  DoCustom c req = Some (Ok (r, err, tr)) ->
  Forall (fun d => d <= RetryWaitMax c) (waits tr) /\
  (length (waits tr) <= Z.to_nat (RetryMax c))%nat.
Proof.
  intros Hback Hno Hrun. unfold DoCustom in Hrun.
  destruct (DoCustom_loop_waits c a Hback Hno _ 0 req None 0 [] r err tr
              (Forall_nil_2 _) Hrun) as [H1 H2].
  split; [exact H1|]. change (length (waits [])) with 0%nat in H2.
  rewrite Z.sub_0_r in H2. lia.
Qed.

Lemma DoCustom_waits_bounded_witness :
  exists r err tr,
    DoCustom (unavailable_doer 6) (mkRequest None example_request background)
    = Some (Ok (r, err, tr)) /\
    waits tr = [1 * Second; 2 * Second; 4 * Second; 8 * Second; 16 * Second;
                30 * Second] /\
    Forall (fun d => d <= 30 * Second) (waits tr) /\ (length (waits tr) <= 6)%nat.
Proof.
  eexists. eexists. eexists. split; [reflexivity|]. split; [reflexivity|].
  apply (DoCustom_waits_bounded (unavailable_doer 6) amd64
           (mkRequest None example_request background) None
           (Some (GivingUp "DELETE" "https://example.com/nocontent" 7 None))).
  - reflexivity.
  - simpl. intros n rq resp e H. inversion H. simpl. discriminate.
  - reflexivity.
Defined.

(** ** [Path] and the base URL *)

Lemma Parse_ok_some (rawURL : string) :
  snd (url.Parse rawURL) = None -> exists u, fst (url.Parse rawURL) = Some u.
Proof.
  unfold url.Parse. destruct (Cut rawURL "#") as [[u frag] found].
  destruct (url.parse u false) as [parsed|err]; [|discriminate].
  destruct (String.eqb frag ""); [eauto|].
  destruct (url.setFragment parsed frag); [eauto | discriminate].
Qed.

(** X8: on a builder that has a base URL, [Path] resolves its argument
    against that base and never against the raw URL an earlier [Path]
    left: two calls in a row give what the second call alone gives,
    whenever the second path parses. *)
Theorem Path_resolves_against_base (s : Rest) (b : url.URL) (p1 p2 : string) :
  baseURL s = Some b ->
  snd (url.Parse p2) = None ->
  Rest.Path (Rest.Path s p1) p2 = Rest.Path s p2.
Proof.
  intros Hb Hp2. destruct (Parse_ok_some p2 Hp2) as [u2 Hu2].
  destruct (url.Parse p2) as [o2 e2] eqn:HP2. cbn [fst snd] in *. subst o2 e2.
  assert (Hstep : forall s', baseURL s' = Some b ->
            Rest.Path s' p2
            = set_url s' (Some b)
                ((if HasSuffix p2 "/" &&
                     negb (HasSuffix (url.URL_String (url.ResolveReference b u2)) "/")
                  then url.URL_String (url.ResolveReference b u2) +:+ "/"
                  else url.URL_String (url.ResolveReference b u2)))).
  { intros s' Hs'. unfold Rest.Path. rewrite Hs', HP2. reflexivity. }
  rewrite (Hstep s Hb).
  assert (Hs1 : exists raw, Rest.Path s p1 = set_url s (Some b) raw).
  { unfold Rest.Path. rewrite Hb.
    destruct (url.Parse p1) as [[u1|] [e1|]];
      try (exists (rawURL s); rewrite <- Hb; symmetry; apply set_url_same).
    eauto. }
  destruct Hs1 as [raw ->]. rewrite Hstep by reflexivity. reflexivity.
Qed.

Lemma Path_resolves_against_base_witness :
  exists s, Rest.Base (New (example_config 200)) "https://a.io/v1/" = Ok s /\
    rawURL (Rest.Path s "users") = "https://a.io/v1/users"%string /\
    rawURL (Rest.Path (Rest.Path s "users") "42") = "https://a.io/v1/42"%string /\
    Rest.Path (Rest.Path s "users") "42" = Rest.Path s "42".
Proof.
  eexists. split; [reflexivity|]. split; [reflexivity|]. split; [reflexivity|].
  eapply Path_resolves_against_base; reflexivity.
Defined.

Lemma ResolveReference_self (u : url.URL) :
  String.eqb (url.Host u) "" = false -> url.Path u = ""%string ->
  url.RawPath u = ""%string ->
  url.ResolveReference u u = u.
Proof.
  intros Hh Hp Hrp. destruct u as [sch opq usr host p rp omit fq rq fr rfr].
  cbn in Hh, Hp, Hrp. subst p rp.
  unfold url.ResolveReference.
  cbn [url.Scheme url.Host url.User url.Opaque url.Path url.RawPath url.OmitHost
       url.ForceQuery url.RawQuery url.Fragment url.RawFragment].
  rewrite Hh. cbn [negb orb]. rewrite orb_true_r. cbn [orb].
  destruct (String.eqb sch ""); reflexivity.
Qed.

(** X9: on a builder without a base URL, [Path] makes its argument the
    base. For a URL with a host and without path, query or fragment, the
    raw URL is then that URL, and a following plain relative path is
    appended to it after a slash. *)
Theorem Path_sets_missing_base (s : Rest) (base path : string) :
  baseURL s = None ->
  host_only_base base = true ->
  plain_relative_path path = true ->
  baseURL (Rest.Path s base) = fst (url.Parse base) /\
  rawURL (Rest.Path s base) = base /\
  rawURL (Rest.Path (Rest.Path s base) path) = base +:+ "/" +:+ path.
Proof.
  intros Hnone Hbase Hpath. unfold host_only_base in Hbase.
  destruct (url.Parse base) as [[u|] [e|]] eqn:HP; try discriminate.
  repeat (apply andb_prop in Hbase; destruct Hbase as [Hbase ?]).
  repeat match goal with
         | H : String.eqb _ _ = true |- _ => apply String.eqb_eq in H
         | H : negb _ = true |- _ => apply negb_true_iff in H
         end.
  assert (Hfirst : Rest.Path s base = set_url s (Some u) base).
  { unfold Rest.Path. rewrite Hnone, HP. cbn [baseURL set_url].
    rewrite ResolveReference_self by assumption. rewrite Hbase.
    destruct (HasSuffix base "/"); reflexivity. }
  rewrite Hfirst. cbn [baseURL rawURL set_url fst]. split; [reflexivity|].
  split; [reflexivity|].
  unfold Rest.Path. cbn [baseURL set_url]. rewrite (Parse_plain_path path Hpath).
  cbn [rawURL set_url]. rewrite <- Hbase.
  destruct u as [sch opq usr host p rp omit fq rq fr rfr].
  cbn [url.Host url.Path url.RawPath url.Opaque url.RawQuery url.ForceQuery
       url.Fragment] in *. subst.
  rewrite (resolve_plain_path sch usr host omit rfr path) by assumption.
  destruct (plain_of_relative path Hpath) as [_ Hne].
  rewrite (HasSuffix_after_slash _ path Hne).
  destruct (HasSuffix path "/"); reflexivity.
Qed.

Lemma Path_sets_missing_base_witness :
  baseURL (Rest.Path (New (example_config 200)) "https://a.io")
  = fst (url.Parse "https://a.io") /\
  rawURL (Rest.Path (New (example_config 200)) "https://a.io") = "https://a.io"%string /\
  rawURL (Rest.Path (Rest.Path (New (example_config 200)) "https://a.io") "v1/users")
  = "https://a.io/v1/users"%string.
Proof.
  apply (Path_sets_missing_base (New (example_config 200)) "https://a.io" "v1/users");
    reflexivity.
Defined.

(** ** Slices in order *)

Lemma slice_ok_spec {T : Type} (h : list (list T)) (s : slice) :
  slice_ok h s = true <->
  (len s <= cap s)%nat /\
  (cap s = 0%nat \/ exists arr, h !! ptr s = Some arr /\ length arr = cap s).
Proof.
  unfold slice_ok. rewrite andb_true_iff, orb_true_iff, Nat.leb_le, Nat.eqb_eq.
  split; intros [H1 H2]; (split; [exact H1|]); destruct H2 as [H2|H2]; auto.
  - destruct (h !! ptr s) as [arr|]; [|discriminate].
    apply Nat.eqb_eq in H2. eauto.
  - destruct H2 as (arr & -> & Hlen). right. apply Nat.eqb_eq. exact Hlen.
Qed.

Lemma slice_ok_nil {T : Type} (h : list (list T)) : slice_ok h nil_slice = true.
Proof. reflexivity. Qed.

Lemma grow_loop_ge (fuel n c : nat) : (n <= grow_loop fuel n c)%nat.
Proof.
  revert c. induction fuel as [|fuel IH]; intros c; cbn [grow_loop];
    destruct (Nat.leb_spec n c); try lia. apply IH.
Qed.

(** The capacity [append] allocates holds the new length. *)
Lemma growcap_ge (oldCap n : nat) : (oldCap < n -> n <= growcap oldCap n)%nat.
Proof.
  intros Hlt. unfold growcap.
  destruct (Nat.ltb_spec (2 * oldCap) n); [lia|].
  destruct (Nat.ltb_spec oldCap 256); [lia|]. apply grow_loop_ge.
Qed.

Section append_facts.
Context {T : Type} (zero : T).

(** [append] to a slice in order: the result shows the old elements
    followed by the new ones, is in order, and every slice in order that
    is apart from the first shows what it showed and stays in order. *)
Lemma append_spec (h : list (list T)) (s : slice) (xs : list T) :
  slice_ok h s = true ->
  let '(h', s') := append zero h s xs in
  slice_elems h' s' = slice_elems h s ++ xs /\
  slice_ok h' s' = true /\
  (length h <= length h')%nat /\
  (ptr s' = ptr s \/ ptr s' = length h) /\
  (cap s' = 0%nat -> s' = s /\ xs = []) /\
  forall t, slice_ok h t = true -> slices_apart s t = true ->
            slice_elems h' t = slice_elems h t /\ slice_ok h' t = true /\
            slices_apart s' t = true.
Proof.
  intros Hok. apply slice_ok_spec in Hok. destruct Hok as [Hlen Harr].
  assert (Hse : length (slice_elems h s) = len s).
  { unfold slice_elems. rewrite length_take.
    destruct Harr as [Hc | (a & -> & Hl)]; simpl; lia. }
  unfold append. cbv zeta.
  destruct (Nat.leb_spec (len s + length xs) (cap s)) as [Hfit|Hgrow].
  - (* in place *)
    assert (Harr' : exists arr, h !! ptr s = Some arr /\ length arr = cap s \/
                                (cap s = 0%nat /\ xs = [] /\ len s = 0%nat)).
    { destruct Harr as [Hc | (arr & Ha & Hl)].
      - exists []. right. destruct xs; cbn in *; [auto with lia | lia].
      - exists arr. left. auto. }
    destruct Harr' as [arr Harr'].
    assert (Hsame : forall t, slice_ok h t = true ->
              slices_apart s t = true ->
              slice_elems
                (alter (fun arr0 => take (len s) arr0 ++ xs ++ drop (len s + length xs) arr0)
                   (ptr s) h) t = slice_elems h t /\
              slice_ok
                (alter (fun arr0 => take (len s) arr0 ++ xs ++ drop (len s + length xs) arr0)
                   (ptr s) h) t = true /\
              slices_apart (mkSlice (ptr s) (len s + length xs) (cap s)) t = true).
    { intros t Ht Hap. pose proof Ht as Ht0.
      apply slice_ok_spec in Ht. destruct Ht as [Htl Hta].
      split; [|split; [|exact Hap]];
        unfold slices_apart in Hap; rewrite !orb_true_iff in Hap;
        destruct Hap as [[Hc | Hc] | Hne].
      - apply Nat.eqb_eq in Hc.
        assert (xs = []) as -> by (destruct xs; cbn in *; [auto|lia]).
        rewrite list_alter_id; [auto|].
        intros a. cbn. rewrite Nat.add_0_r. apply take_drop.
      - apply Nat.eqb_eq in Hc. unfold slice_elems.
        assert (len t = 0%nat) as -> by lia. reflexivity.
      - apply negb_true_iff, Nat.eqb_neq in Hne.
        unfold slice_elems. rewrite list_lookup_alter_ne by exact Hne. reflexivity.
      - apply Nat.eqb_eq in Hc.
        assert (xs = []) as -> by (destruct xs; cbn in *; [auto|lia]).
        rewrite list_alter_id; [auto|].
        intros a. cbn. rewrite Nat.add_0_r. apply take_drop.
      - apply Nat.eqb_eq in Hc. apply slice_ok_spec. split; [exact Htl | left; exact Hc].
      - apply negb_true_iff, Nat.eqb_neq in Hne.
        apply slice_ok_spec. split; [exact Htl|].
        destruct Hta as [Hc | Ha]; [left; exact Hc | right].
        rewrite list_lookup_alter_ne by exact Hne. exact Ha. }
    split; [|split; [|split; [|split; [|split]]]].
    + unfold slice_elems. cbn [ptr len].
      destruct Harr' as [(Ha & Hl) | (Hc & -> & Hl0)].
      * rewrite list_lookup_alter, Ha. cbn [fmap option_fmap option_map default].
        destruct (decide (ptr s = ptr s)) as [_|Hne]; [|destruct (Hne eq_refl)].
        cbn [default]. unfold id. rewrite app_assoc.
        apply take_app_length'. rewrite length_app, length_take. lia.
      * rewrite Hl0. cbn. rewrite app_nil_r. reflexivity.
    + apply slice_ok_spec. cbn [ptr len cap]. split; [exact Hfit|].
      destruct Harr as [Hc | (a & Ha & Hl)]; [left; exact Hc | right].
      rewrite list_lookup_alter, Ha. cbn [fmap option_fmap option_map].
      destruct (decide (ptr s = ptr s)) as [_|Hne]; [|destruct (Hne eq_refl)].
      eexists. split; [reflexivity|].
      rewrite !length_app, length_take, length_drop. lia.
    + rewrite length_alter. lia.
    + left. reflexivity.
    + cbn [cap]. intros Hc. assert (xs = []) as -> by (destruct xs; cbn in *; [auto|lia]).
      split; [|reflexivity]. destruct s as [p l c]. cbn in *. f_equal. lia.
    + exact Hsame.
  - (* a fresh array *)
    split; [|split; [|split; [|split; [|split]]]].
    + unfold slice_elems at 1. cbn [ptr len].
      rewrite lookup_app_r by lia. rewrite Nat.sub_diag. cbn [lookup list_lookup default].
      unfold id. rewrite app_assoc. apply take_app_length'.
      rewrite length_app, Hse. reflexivity.
    + apply slice_ok_spec. cbn [ptr len cap].
      pose proof (growcap_ge (cap s) (len s + length xs) Hgrow) as Hcap.
      split; [exact Hcap | right].
      rewrite lookup_app_r by lia. rewrite Nat.sub_diag. cbn [lookup list_lookup].
      eexists. split; [reflexivity|].
      rewrite !length_app, length_replicate, Hse. lia.
    + rewrite length_app. lia.
    + right. reflexivity.
    + cbn [cap]. intros Hc. exfalso.
      pose proof (growcap_ge (cap s) (len s + length xs) Hgrow). lia.
    + intros t Ht _. pose proof Ht as Ht0.
      apply slice_ok_spec in Ht. destruct Ht as [Htl Hta].
      destruct Hta as [Hc | (a & Ha & Hl)].
      * split; [|split].
        -- unfold slice_elems. assert (len t = 0%nat) as -> by lia. reflexivity.
        -- apply slice_ok_spec. split; [exact Htl | left; exact Hc].
        -- unfold slices_apart. rewrite Hc. cbn [Nat.eqb].
           rewrite orb_true_r. reflexivity.
      * pose proof (lookup_lt_Some _ _ _ Ha) as Hlt.
        split; [|split].
        -- unfold slice_elems. rewrite lookup_app_l by exact Hlt. reflexivity.
        -- apply slice_ok_spec. split; [exact Htl | right].
           rewrite lookup_app_l by exact Hlt. eauto.
        -- unfold slices_apart. cbn [ptr cap].
           replace (length h =? ptr t)%nat with false
             by (symmetry; apply Nat.eqb_neq; lia).
           cbn [negb]. apply orb_true_r.
Qed.
End append_facts.

(** ** Headers of one builder *)

Lemma slices_apart_sym (s1 s2 : slice) : slices_apart s1 s2 = slices_apart s2 s1.
Proof.
  unfold slices_apart. rewrite (Nat.eqb_sym (ptr s1)).
  destruct (cap s1 =? 0)%nat, (cap s2 =? 0)%nat; reflexivity.
Qed.

Lemma header_ok_spec (strs : heap string) (h : gmap string slice) :
  header_ok strs h = true <->
  (forall k sl, h !! k = Some sl -> slice_ok strs sl = true) /\
  (forall k1 k2 sl1 sl2,
     h !! k1 = Some sl1 -> h !! k2 = Some sl2 -> k1 <> k2 ->
     slices_apart sl1 sl2 = true).
Proof.
  unfold header_ok. rewrite forallb_forall. split.
  - intros H. split.
    + intros k sl Hk.
      assert (Hin : In (k, sl) (map_to_list h))
        by (apply list_elem_of_In, elem_of_map_to_list; exact Hk).
      apply H in Hin. apply andb_prop in Hin. tauto.
    + intros k1 k2 sl1 sl2 H1 H2 Hne.
      assert (Hin1 : In (k1, sl1) (map_to_list h))
        by (apply list_elem_of_In, elem_of_map_to_list; exact H1).
      assert (Hin2 : In (k2, sl2) (map_to_list h))
        by (apply list_elem_of_In, elem_of_map_to_list; exact H2).
      apply H in Hin1. apply andb_prop in Hin1. destruct Hin1 as [_ Hall].
      rewrite forallb_forall in Hall. apply Hall in Hin2. cbn [fst snd] in Hin2.
      apply orb_prop in Hin2. destruct Hin2 as [Heq|Hap]; [|exact Hap].
      apply String.eqb_eq in Heq. contradiction.
  - intros [Hok Hap] [k1 sl1] Hin1. cbn [fst snd].
    apply list_elem_of_In, elem_of_map_to_list in Hin1.
    rewrite (Hok k1 sl1 Hin1). cbn [andb]. apply forallb_forall.
    intros [k2 sl2] Hin2. cbn [fst snd].
    apply list_elem_of_In, elem_of_map_to_list in Hin2.
    destruct (String.eqb_spec k1 k2) as [|Hne]; [reflexivity|].
    cbn [orb]. exact (Hap k1 k2 sl1 sl2 Hin1 Hin2 Hne).
Qed.

(** [Header.Add] on a header in order: the values of the canonical key
    get the new value at the end, no other key changes, and the header
    stays in order. *)
Lemma Header_Add_spec (strs : heap string) (h : gmap string slice) (key value : string) :
  header_ok strs h = true ->
  let p := Header_Add strs h key value in
  let k := CanonicalMIMEHeaderKey key in
  Header_view (fst p) (snd p)
  = <[k := default [] (Header_view strs h !! k) ++ [value]]> (Header_view strs h) /\
  header_ok (fst p) (snd p) = true.
Proof.
  intros Hwf. apply header_ok_spec in Hwf. destruct Hwf as [Hok Hap].
  cbv zeta. unfold Header_Add.
  set (k := CanonicalMIMEHeaderKey key).
  set (s0 := default nil_slice (h !! k)).
  assert (Hs0 : slice_ok strs s0 = true).
  { unfold s0. destruct (h !! k) as [sl|] eqn:Hk; [exact (Hok k sl Hk) | reflexivity]. }
  assert (Hapart : forall k' t, h !! k' = Some t -> k' <> k -> slices_apart s0 t = true).
  { intros k' t Hk' Hne. unfold s0. destruct (h !! k) as [sl|] eqn:Hk.
    - exact (Hap k k' sl t Hk Hk' (not_eq_sym Hne)).
    - reflexivity. }
  pose proof (append_spec ""%string strs s0 [value] Hs0) as Happ.
  destruct (append ""%string strs s0 [value]) as [strs' s'].
  destruct Happ as (Helems & Hok' & _ & _ & _ & Hframe). cbn [fst snd]. split.
  - apply map_eq. intros k'. unfold Header_view. rewrite lookup_fmap.
    destruct (decide (k' = k)) as [->|Hne].
    + rewrite !lookup_insert. rewrite decide_True by reflexivity.
      rewrite decide_True by reflexivity.
      cbn [fmap option_fmap option_map]. f_equal. rewrite Helems. f_equal.
      rewrite lookup_fmap. unfold s0. destruct (h !! k); reflexivity.
    + rewrite !lookup_insert_ne by (apply not_eq_sym; exact Hne).
      rewrite lookup_fmap. destruct (h !! k') as [t|] eqn:Hk'; [|reflexivity].
      cbn [fmap option_fmap option_map]. f_equal.
      destruct (Hframe t (Hok k' t Hk') (Hapart k' t Hk' Hne)) as [He _]. exact He.
  - apply header_ok_spec. split.
    + intros k' sl Hk'. destruct (decide (k' = k)) as [->|Hne].
      * rewrite lookup_insert in Hk'. rewrite decide_True in Hk' by reflexivity.
        inversion Hk'; subst. exact Hok'.
      * rewrite lookup_insert_ne in Hk' by (apply not_eq_sym; exact Hne).
        destruct (Hframe sl (Hok k' sl Hk') (Hapart k' sl Hk' Hne)) as (_ & H2 & _).
        exact H2.
    + intros k1 k2 sl1 sl2 H1 H2 Hne12.
      destruct (decide (k1 = k)) as [->|Hne1]; destruct (decide (k2 = k)) as [->|Hne2].
      * contradiction.
      * rewrite lookup_insert in H1. rewrite decide_True in H1 by reflexivity.
        inversion H1; subst.
        rewrite lookup_insert_ne in H2 by (apply not_eq_sym; exact Hne2).
        destruct (Hframe sl2 (Hok k2 sl2 H2) (Hapart k2 sl2 H2 Hne2)) as (_ & _ & H3).
        exact H3.
      * rewrite lookup_insert in H2. rewrite decide_True in H2 by reflexivity.
        inversion H2; subst.
        rewrite lookup_insert_ne in H1 by (apply not_eq_sym; exact Hne1).
        destruct (Hframe sl1 (Hok k1 sl1 H1) (Hapart k1 sl1 H1 Hne1)) as (_ & _ & H3).
        rewrite slices_apart_sym. exact H3.
      * rewrite lookup_insert_ne in H1 by (apply not_eq_sym; exact Hne1).
        rewrite lookup_insert_ne in H2 by (apply not_eq_sym; exact Hne2).
        exact (Hap k1 k2 sl1 sl2 H1 H2 Hne12).
Qed.

(** [Header.Set] on a header in order. *)
Lemma Header_Set_spec (strs : heap string) (h : gmap string slice) (key value : string) :
  header_ok strs h = true ->
  let p := Header_Set strs h key value in
  let k := CanonicalMIMEHeaderKey key in
  Header_view (fst p) (snd p) = <[k := [value]]> (Header_view strs h) /\
  header_ok (fst p) (snd p) = true.
Proof.
  intros Hwf. apply header_ok_spec in Hwf. destruct Hwf as [Hok Hap].
  cbv zeta. unfold Header_Set, literal. cbn [fst snd length].
  set (k := CanonicalMIMEHeaderKey key).
  assert (Hframe : forall t, slice_ok strs t = true ->
            slice_elems (strs ++ [[value]]) t = slice_elems strs t /\
            slice_ok (strs ++ [[value]]) t = true /\
            slices_apart (mkSlice (length strs) 1 1) t = true).
  { intros t Ht. pose proof Ht as Ht0. apply slice_ok_spec in Ht.
    destruct Ht as [Htl [Hc | (a & Ha & Hl)]].
    - split; [|split].
      + unfold slice_elems. assert (len t = 0%nat) as -> by lia. reflexivity.
      + apply slice_ok_spec. split; [exact Htl | left; exact Hc].
      + unfold slices_apart. rewrite Hc. reflexivity.
    - pose proof (lookup_lt_Some _ _ _ Ha) as Hlt. split; [|split].
      + unfold slice_elems. rewrite lookup_app_l by exact Hlt. reflexivity.
      + apply slice_ok_spec. split; [exact Htl | right].
        rewrite lookup_app_l by exact Hlt. eauto.
      + unfold slices_apart. cbn [ptr cap].
        replace (length strs =? ptr t)%nat with false
          by (symmetry; apply Nat.eqb_neq; lia).
        cbn [negb]. apply orb_true_r. }
  assert (Hnew : slice_elems (strs ++ [[value]]) (mkSlice (length strs) 1 1) = [value] /\
                 slice_ok (strs ++ [[value]]) (mkSlice (length strs) 1 1) = true).
  { unfold slice_elems, slice_ok. cbn [ptr len cap].
    rewrite lookup_app_r by lia. rewrite Nat.sub_diag. split; reflexivity. }
  destruct Hnew as [Hnew1 Hnew2]. split.
  - apply map_eq. intros k'. unfold Header_view. rewrite lookup_fmap.
    destruct (decide (k' = k)) as [->|Hne].
    + rewrite !lookup_insert. rewrite decide_True by reflexivity.
      rewrite decide_True by reflexivity.
      cbn [fmap option_fmap option_map]. f_equal. exact Hnew1.
    + rewrite !lookup_insert_ne by (apply not_eq_sym; exact Hne).
      rewrite lookup_fmap. destruct (h !! k') as [t|] eqn:Hk'; [|reflexivity].
      cbn [fmap option_fmap option_map]. f_equal.
      destruct (Hframe t (Hok k' t Hk')) as [He _]. exact He.
  - apply header_ok_spec. split.
    + intros k' sl Hk'. destruct (decide (k' = k)) as [->|Hne].
      * rewrite lookup_insert in Hk'. rewrite decide_True in Hk' by reflexivity.
        inversion Hk'; subst. exact Hnew2.
      * rewrite lookup_insert_ne in Hk' by (apply not_eq_sym; exact Hne).
        destruct (Hframe sl (Hok k' sl Hk')) as (_ & H2 & _). exact H2.
    + intros k1 k2 sl1 sl2 H1 H2 Hne12.
      destruct (decide (k1 = k)) as [->|Hne1]; destruct (decide (k2 = k)) as [->|Hne2].
      * contradiction.
      * rewrite lookup_insert in H1. rewrite decide_True in H1 by reflexivity.
        inversion H1; subst.
        rewrite lookup_insert_ne in H2 by (apply not_eq_sym; exact Hne2).
        destruct (Hframe sl2 (Hok k2 sl2 H2)) as (_ & _ & H3). exact H3.
      * rewrite lookup_insert in H2. rewrite decide_True in H2 by reflexivity.
        inversion H2; subst.
        rewrite lookup_insert_ne in H1 by (apply not_eq_sym; exact Hne1).
        destruct (Hframe sl1 (Hok k1 sl1 H1)) as (_ & _ & H3).
        rewrite slices_apart_sym. exact H3.
      * rewrite lookup_insert_ne in H1 by (apply not_eq_sym; exact Hne1).
        rewrite lookup_insert_ne in H2 by (apply not_eq_sym; exact Hne2).
        exact (Hap k1 k2 sl1 sl2 H1 H2 Hne12).
Qed.

(** X10: [AddHeader] on a builder whose header is in order appends the
    value to the values of the canonical form of the key, changes the
    values of no other key, and leaves the header in order. *)
Theorem AddHeader_appends (st : store) (s : Rest) (key value : string) :
  header_ok (strs st) (header s) = true ->
  let k := CanonicalMIMEHeaderKey key in
  let p := Rest.AddHeader st s key value in
  header_of p = <[k := default [] (header_values st s k) ++ [value]]> (header_of (st, s)) /\
  header_ok (strs (fst p)) (header (snd p)) = true.
Proof.
  intros Hok. cbv zeta. unfold Rest.AddHeader, header_of, header_values.
  pose proof (Header_Add_spec (strs st) (header s) key value Hok) as H.
  cbv zeta in H. destruct (Header_Add (strs st) (header s) key value) as [strs' h'].
  exact H.
Qed.

Lemma AddHeader_appends_witness :
  let p := Rest.AddHeader empty_store (New (example_config 200)) "accept" "a/1" in
  header_of (Rest.AddHeader (fst p) (snd p) "ACCEPT" "a/2")
  = {[ "Accept"%string := ["a/1"; "a/2"]%string ]}.
Proof.
  cbv zeta.
  destruct (AddHeader_appends
              (fst (Rest.AddHeader empty_store (New (example_config 200)) "accept" "a/1"))
              (snd (Rest.AddHeader empty_store (New (example_config 200)) "accept" "a/1"))
              "ACCEPT" "a/2") as [H _]; [reflexivity|].
  rewrite H. reflexivity.
Defined.

(** X11: [SetHeader] on a builder whose header is in order makes the
    value the only one of the canonical form of the key, changes the
    values of no other key, and leaves the header in order. *)
Theorem SetHeader_replaces (st : store) (s : Rest) (key value : string) :
  header_ok (strs st) (header s) = true ->
  let p := Rest.SetHeader st s key value in
  header_of p = <[CanonicalMIMEHeaderKey key := [value]]> (header_of (st, s)) /\
  header_ok (strs (fst p)) (header (snd p)) = true.
Proof.
  intros Hok. cbv zeta. unfold Rest.SetHeader, header_of.
  pose proof (Header_Set_spec (strs st) (header s) key value Hok) as H.
  cbv zeta in H. destruct (Header_Set (strs st) (header s) key value) as [strs' h'].
  exact H.
Qed.

Lemma SetHeader_replaces_witness :
  let p := Rest.AddHeader empty_store (New (example_config 200)) "accept" "a/1" in
  header_of (Rest.SetHeader (fst p) (snd p) "ACCEPT" "a/2")
  = {[ "Accept"%string := ["a/2"%string] ]}.
Proof.
  cbv zeta.
  destruct (SetHeader_replaces
              (fst (Rest.AddHeader empty_store (New (example_config 200)) "accept" "a/1"))
              (snd (Rest.AddHeader empty_store (New (example_config 200)) "accept" "a/1"))
              "ACCEPT" "a/2") as [H _]; [reflexivity|].
  rewrite H. reflexivity.
Defined.

Lemma run_header_calls_spec (calls : list header_call) :
  forall p : store * Rest,
    header_ok (strs (fst p)) (header (snd p)) = true ->
    header_of (fold_left run_header_call calls p)
    = fold_left header_call_meaning calls (header_of p).
Proof.
  induction calls as [|c calls IH]; intros [st s] Hok; [reflexivity|].
  cbn [fold_left fst snd] in *.
  assert (Hstep : header_of (run_header_call (st, s) c)
                  = header_call_meaning (header_of (st, s)) c /\
                  header_ok (strs (fst (run_header_call (st, s) c)))
                            (header (snd (run_header_call (st, s) c))) = true).
  { destruct c as [k v|k v]; cbn [run_header_call header_call_meaning fst snd];
      unfold Rest.AddHeader, Rest.SetHeader, header_of.
    - pose proof (Header_Add_spec (strs st) (header s) k v Hok) as H. cbv zeta in H.
      destruct (Header_Add (strs st) (header s) k v). exact H.
    - pose proof (Header_Set_spec (strs st) (header s) k v Hok) as H. cbv zeta in H.
      destruct (Header_Set (strs st) (header s) k v). exact H. }
  destruct Hstep as [Hview Hok']. rewrite IH by exact Hok'. rewrite Hview. reflexivity.
Qed.

(** X12: on a builder that [New] returned, whatever the store holds, any
    sequence of [AddHeader] and [SetHeader] calls leaves the header that
    the same sequence of [Header.Add] and [Header.Set] gives on an empty
    map of value lists: without [Clone], the sharing of arrays between
    value slices cannot be observed. *)
Theorem header_calls_on_new_builder (st : store) (c : config) (calls : list header_call) :
  header_of (fold_left run_header_call calls (st, New c))
  = fold_left header_call_meaning calls ∅.
Proof.
  rewrite run_header_calls_spec by reflexivity.
  f_equal.
Qed.

(** ** Canonical header keys *)

Lemma header_byte_facts (c : ascii) :
  to_upper_byte (to_upper_byte c) = to_upper_byte c /\
  to_lower_byte (to_lower_byte c) = to_lower_byte c /\
  to_upper_byte (to_lower_byte c) = to_upper_byte c /\
  validHeaderFieldByte (to_upper_byte c) = validHeaderFieldByte c /\
  validHeaderFieldByte (to_lower_byte c) = validHeaderFieldByte c.
Proof. destruct c as [[] [] [] [] [] [] [] []]; vm_compute; repeat split. Qed.

Lemma canonical_case_valid (s : string) :
  forall upper,
    string_forallb validHeaderFieldByte (canonical_case upper s)
    = string_forallb validHeaderFieldByte s.
Proof.
  induction s as [|c s IH]; intros upper; [reflexivity|].
  cbn [canonical_case string_forallb]. rewrite IH.
  destruct (header_byte_facts c) as (_ & _ & _ & Hu & Hl).
  destruct upper; [rewrite Hu | rewrite Hl]; reflexivity.
Qed.

Lemma canonical_case_idempotent (s : string) :
  forall upper,
    canonical_case upper (canonical_case upper s) = canonical_case upper s.
Proof.
  induction s as [|c s IH]; intros upper; [reflexivity|].
  cbn [canonical_case].
  destruct (header_byte_facts c) as (Huu & Hll & _).
  destruct upper; [rewrite Huu | rewrite Hll]; rewrite IH; reflexivity.
Qed.

(** X13: [CanonicalMIMEHeaderKey] is idempotent, so the keys under which
    [AddHeader] and [SetHeader] store values are fixed points of the
    canonical form. *)
Theorem CanonicalMIMEHeaderKey_idempotent (s : string) :
  CanonicalMIMEHeaderKey (CanonicalMIMEHeaderKey s) = CanonicalMIMEHeaderKey s.
Proof.
  unfold CanonicalMIMEHeaderKey.
  destruct (string_forallb validHeaderFieldByte s) eqn:Hv.
  - rewrite canonical_case_valid, Hv. apply canonical_case_idempotent.
  - rewrite Hv. reflexivity.
Qed.

Lemma canonical_case_lower (s1 : string) :
  forall s2 upper,
    ToLower s1 = ToLower s2 ->
    canonical_case upper s1 = canonical_case upper s2 /\
    string_forallb validHeaderFieldByte s1 = string_forallb validHeaderFieldByte s2.
Proof.
  unfold ToLower.
  induction s1 as [|c1 s1 IH]; intros [|c2 s2] upper H; cbn [string_map] in H;
    try discriminate; [split; reflexivity|].
  inversion H as [[Hc Hs]].
  cbn [canonical_case string_forallb].
  destruct (header_byte_facts c1) as (_ & _ & Hul1 & _ & Hvl1).
  destruct (header_byte_facts c2) as (_ & _ & Hul2 & _ & Hvl2).
  assert (Hup : to_upper_byte c1 = to_upper_byte c2) by (rewrite <- Hul1, Hc; exact Hul2).
  assert (Hv : validHeaderFieldByte c1 = validHeaderFieldByte c2)
    by (rewrite <- Hvl1, Hc; exact Hvl2).
  rewrite Hv. destruct upper; [rewrite Hup | rewrite Hc];
    destruct (IH s2 (Ascii.eqb (if true then to_upper_byte c2 else to_lower_byte c2) "-") Hs)
      as [_ Hv2];
    rewrite Hv2.
  - destruct (IH s2 (Ascii.eqb (to_upper_byte c2) "-") Hs) as [-> _]. split; reflexivity.
  - destruct (IH s2 (Ascii.eqb (to_lower_byte c2) "-") Hs) as [-> _]. split; reflexivity.
Qed.

(** X14: header keys made of token bytes are case-insensitive. Two such
    keys that differ only in the case of their letters have the same
    canonical form, and [AddHeader] and [SetHeader] do the same with the
    one as with the other. *)
Theorem header_keys_case_insensitive (st : store) (s : Rest) (k1 k2 value : string) :
  string_forallb validHeaderFieldByte k1 = true ->
  ToLower k1 = ToLower k2 ->
  CanonicalMIMEHeaderKey k1 = CanonicalMIMEHeaderKey k2 /\
  Rest.AddHeader st s k1 value = Rest.AddHeader st s k2 value /\
  Rest.SetHeader st s k1 value = Rest.SetHeader st s k2 value.
Proof.
  intros Hv Hl.
  assert (Hk : CanonicalMIMEHeaderKey k1 = CanonicalMIMEHeaderKey k2).
  { unfold CanonicalMIMEHeaderKey.
    destruct (canonical_case_lower k1 k2 true Hl) as [Hc Hv2].
    rewrite <- Hv2, Hv. exact Hc. }
  split; [exact Hk|].
  unfold Rest.AddHeader, Rest.SetHeader, Header_Add, Header_Set. rewrite Hk.
  split; reflexivity.
Qed.

Lemma header_keys_case_insensitive_witness :
  CanonicalMIMEHeaderKey "content-TYPE" = CanonicalMIMEHeaderKey "Content-type" /\
  Rest.AddHeader empty_store (New (example_config 200)) "content-TYPE" "text/xml"
  = Rest.AddHeader empty_store (New (example_config 200)) "Content-type" "text/xml" /\
  Rest.SetHeader empty_store (New (example_config 200)) "content-TYPE" "text/xml"
  = Rest.SetHeader empty_store (New (example_config 200)) "Content-type" "text/xml".
Proof.
  apply (header_keys_case_insensitive empty_store (New (example_config 200))
           "content-TYPE" "Content-type" "text/xml"); reflexivity.
Defined.

(** ** Query structures *)

(** X15: [QueryStruct] appends: after any sequence of calls on a builder
    whose list of query structures is in order, the list holds what it
    held, followed by the arguments that were not [nil], in the order of
    the calls; and it is in order again. *)
Theorem QueryStruct_appends (qs : list (option any)) :
  forall p : store * Rest,
    slice_ok (vals (fst p)) (queryStructs (snd p)) = true ->
    query_structs (fold_left run_QueryStruct qs p) = query_structs p ++ omap id qs /\
    slice_ok (vals (fst (fold_left run_QueryStruct qs p)))
             (queryStructs (snd (fold_left run_QueryStruct qs p))) = true.
Proof.
  induction qs as [|q qs IH]; intros [st s] Hok; cbn [fold_left fst snd] in *.
  { split; [rewrite app_nil_r; reflexivity | exact Hok]. }
  assert (Hstep : query_structs (run_QueryStruct (st, s) q)
                  = query_structs (st, s) ++ match q with Some v => [v] | None => [] end /\
                  slice_ok (vals (fst (run_QueryStruct (st, s) q)))
                           (queryStructs (snd (run_QueryStruct (st, s) q))) = true).
  { unfold run_QueryStruct, Rest.QueryStruct, query_structs. cbn [fst snd].
    destruct q as [v|]; [|split; [rewrite app_nil_r; reflexivity | exact Hok]].
    pose proof (append_spec (AnyInt 0) (vals st) (queryStructs s) [v] Hok) as H.
    destruct (append (AnyInt 0) (vals st) (queryStructs s) [v]) as [vals' sl].
    destruct H as (He & Ho & _). cbn [fst snd vals queryStructs set_queryStructs].
    split; assumption. }
  destruct Hstep as [Hq Hok'].
  destruct (IH _ Hok') as [H1 H2]. split; [|exact H2].
  rewrite H1, Hq, <- app_assoc. f_equal. destruct q; reflexivity.
Qed.

Lemma QueryStruct_appends_witness :
  query_structs
    (fold_left run_QueryStruct [Some (AnyInt 1); None; Some (AnyString "b")]
       (empty_store, New (example_config 200)))
  = [AnyInt 1; AnyString "b"].
Proof.
  destruct (QueryStruct_appends [Some (AnyInt 1); None; Some (AnyString "b")]
              (empty_store, New (example_config 200))) as [H _]; [reflexivity|].
  rewrite H. reflexivity.
Defined.

(** ** What [Clone] copies *)

(** X16: [Clone] of a builder that has a base URL returns a builder with
    the same context, client, method, raw URL, header entries, query
    parameters, body provider, decoder and success decider, with a copy
    of the list of query structures, and with the base URL parsed again
    from its text; it has no multipart body provider, whatever the
    original has. The header values in the store are not touched. *)
Theorem Clone_copies (st : store) (s : Rest) (u : url.URL) :
  baseURL s = Some u ->
  exists st' c,
    Rest.Clone st s = Ok (st', c) /\
    strs st' = strs st /\ header c = header s /\
    query_structs (st', c) = query_structs (st, s) /\
    baseURL c = fst (url.Parse (url.URL_String u)) /\
    multipartBodyProvider c = None /\
    ctx c = ctx s /\ httpClient c = httpClient s /\ method c = method s /\
    rawURL c = rawURL s /\ queryParams c = queryParams s /\
    bodyProvider c = bodyProvider s /\ responseDecoder c = responseDecoder s /\
    isSuccess c = isSuccess s.
Proof.
  intros Hb. unfold Rest.Clone. rewrite Hb, headerCopy_same.
  destruct (url.Parse (url.URL_String u)) as [base' perr].
  pose proof (append_spec (AnyInt 0) (vals st) nil_slice
                (slice_elems (vals st) (queryStructs s)) eq_refl) as H.
  destruct (append (AnyInt 0) (vals st) nil_slice
              (slice_elems (vals st) (queryStructs s))) as [vals' qs].
  destruct H as (He & _). do 2 eexists. split; [reflexivity|].
  unfold query_structs. cbn [fst snd strs vals header queryStructs baseURL
    multipartBodyProvider ctx httpClient method rawURL queryParams bodyProvider
    responseDecoder isSuccess].
  rewrite He. repeat split; reflexivity.
Qed.

Lemma Clone_copies_witness :
  exists s st' c,
    Rest.Base (New (example_config 200)) "https://a.io" = Ok s /\
    Rest.Clone empty_store
      (snd (Rest.BodyMultipart empty_store s (Some ∅) None)) = Ok (st', c) /\
    multipartBodyProvider (snd (Rest.BodyMultipart empty_store s (Some ∅) None))
    = Some (multipartDataBodyProvider (Some ∅) None) /\
    multipartBodyProvider c = None /\ rawURL c = "https://a.io"%string.
Proof.
  eexists. 
  destruct (Clone_copies empty_store
              (snd (Rest.BodyMultipart empty_store
                      (set_url (New (example_config 200))
                         (fst (url.Parse "https://a.io")) "https://a.io")
                      (Some ∅) None))
              (url.mkURL "https" "" None "a.io" "" "" false false "" "" ""))
    as (st' & c & Hc & _ & _ & _ & _ & Hm & _ & _ & _ & Hr & _); [reflexivity|].
  exists st', c. split; [reflexivity|]. split; [exact Hc|]. split; [reflexivity|].
  split; [exact Hm | exact Hr].
Defined.

(** ** [Do]: bodies and targets *)

(** X17: whenever the client returns no error and [Do] returns, the
    response it returns is the client's, with its body read to the end
    and closed: this holds for a 204, with and without targets, and
    whether or not decoding failed. *)
Theorem Do_drains_and_closes (s : Rest) (req : HttpRequest) (successV failureV : target)
    (r : option Response) (err : option error) (sv fv : target) :
  snd (httpClient s req) = None ->
  Rest.Do s req successV failureV = Ok (r, err, sv, fv) ->
  exists resp0 resp,
    fst (httpClient s req) = Some resp0 /\ r = Some resp /\
    Status resp = Status resp0 /\ StatusCode resp = StatusCode resp0 /\
    Header resp = Header resp0 /\
    content (RespBody resp) = ""%string /\ closed (RespBody resp) = true.
Proof.
  unfold Rest.Do. destruct (httpClient s req) as [[resp0|] [e|]]; cbn [fst snd];
    intros Hnone Hdo; try discriminate.
  exists resp0.
  destruct (StatusCode resp0 =? StatusNoContent).
  { inversion Hdo; subst. eexists. repeat split; reflexivity. }
  destruct (negb (is_nil_target successV) || negb (is_nil_target failureV));
    [|inversion Hdo; subst; eexists; repeat split; reflexivity].
  unfold Rest.decodeResponse in Hdo.
  destruct (isSuccess s) as [d|]; [|discriminate].
  unfold ReadAll in Hdo.
  destruct (d resp0); [destruct successV as [|x|v] | destruct failureV as [|x|v]];
    try (destruct (responseDecoder s (RespBody resp0) v) as [[b v'] e']);
    inversion Hdo; subst; eexists; repeat split; reflexivity.
Qed.

Lemma Do_drains_and_closes_witness :
  exists resp0 resp,
    fst (httpClient (New (example_config 500)) example_request) = Some resp0 /\
    Some (mkResponse "" 500 ∅ (mkBody "" None true)) = Some resp /\
    Status resp = Status resp0 /\ StatusCode resp = StatusCode resp0 /\
    Header resp = Header resp0 /\
    content (RespBody resp) = ""%string /\ closed (RespBody resp) = true.
Proof.
  apply (Do_drains_and_closes (New (example_config 500)) example_request
           (ValueTarget (AnyInt 0)) NilTarget _ None (ValueTarget (AnyInt 0)) NilTarget);
    reflexivity.
Defined.

(** X18: what [Do] does to the two targets. With a transport error it
    returns the client's response and error and touches neither target.
    Otherwise it writes to at most one of them, the success target when
    the decider accepts the response and the failure target when it does
    not; a target that is [nil] stays [nil]; and for a 204 neither is
    touched. *)
Theorem Do_targets (s : Rest) (req : HttpRequest) (successV failureV : target)
    (r : option Response) (err : option error) (sv fv : target) :
  Rest.Do s req successV failureV = Ok (r, err, sv, fv) ->
  match httpClient s req with
  | (resp0, Some e) => r = resp0 /\ err = Some e /\ sv = successV /\ fv = failureV
  | (Some resp0, None) =>
      (successV = NilTarget -> sv = NilTarget) /\
      (failureV = NilTarget -> fv = NilTarget) /\
      (StatusCode resp0 = StatusNoContent -> sv = successV /\ fv = failureV) /\
      forall d, isSuccess s = Some d ->
                if d resp0 then fv = failureV else sv = successV
  | (None, None) => False
  end.
Proof.
  unfold Rest.Do. destruct (httpClient s req) as [[resp0|] [e|]]; intros Hdo;
    try (inversion Hdo; subst; auto; fail); try discriminate.
  destruct (Z.eqb_spec (StatusCode resp0) StatusNoContent) as [H204|H204].
  { inversion Hdo; subst. repeat split; auto. intros d _. destruct (d resp0); reflexivity. }
  destruct (negb (is_nil_target successV) || negb (is_nil_target failureV)).
  2:{ inversion Hdo; subst. repeat split; auto; try contradiction.
      intros d _. destruct (d resp0); reflexivity. }
  unfold Rest.decodeResponse in Hdo.
  destruct (isSuccess s) as [d|]; [|discriminate].
  unfold ReadAll in Hdo.
  destruct (d resp0) eqn:Hd;
    [destruct successV as [|x|v] | destruct failureV as [|x|v]];
    try (destruct (responseDecoder s (RespBody resp0) v) as [[b v'] e']);
    inversion Hdo; subst;
    (split; [intros; try discriminate; auto|]);
    (split; [intros; try discriminate; auto|]);
    (split; [intros; contradiction|]);
    intros d0 Hd0; inversion Hd0; subst; rewrite Hd; reflexivity.
Qed.

Lemma Do_targets_witness :
  (ValueTarget (AnyInt 7) = NilTarget -> ValueTarget (AnyInt 7) = NilTarget) /\
  (RawTarget None = NilTarget -> RawTarget (Some "{}"%string) = NilTarget) /\
  (500 = StatusNoContent ->
   ValueTarget (AnyInt 7) = ValueTarget (AnyInt 7) /\
   RawTarget (Some "{}"%string) = RawTarget None) /\
  forall d, Some DecodeOnSuccess = Some d ->
            if d (mkResponse "" 500 ∅ (mkBody "{}" None false))
            then RawTarget (Some "{}"%string) = RawTarget None
            else ValueTarget (AnyInt 7) = ValueTarget (AnyInt 7).
Proof.
  apply (Do_targets (New (example_config 500)) example_request
           (ValueTarget (AnyInt 7)) (RawTarget None)
           (Some (mkResponse "" 500 ∅ (mkBody "" None true))) None
           (ValueTarget (AnyInt 7)) (RawTarget (Some "{}"%string))).
  reflexivity.
Defined.

(** X19: raw targets and the failure without target. When the client
    returns a response other than a 204 and no error: a success target
    of type [*Raw] receives the unread bytes of the body of an accepted
    response, and a failure target of type [*Raw] those of a response
    that is not accepted, without the decoder being asked; the error
    returned is the read error of the body, next to the bytes that were
    read. A response that is not accepted, with a [nil] failure target
    and some success target, is read and dropped, and [Do] returns no
    error even if reading failed. *)
Theorem Do_raw_targets (s : Rest) (req : HttpRequest) (resp0 : Response)
    (d : SuccessDecider) (successV failureV : target) (x : option bytes) :
  httpClient s req = (Some resp0, None) ->
  StatusCode resp0 <> StatusNoContent ->
  isSuccess s = Some d ->
  let done := Some (mkResponse (Status resp0) (StatusCode resp0) (Header resp0)
                      (mkBody "" (readErr (RespBody resp0)) true)) in
  let raw := RawTarget (Some (content (RespBody resp0))) in
  (d resp0 = true -> successV = RawTarget x ->
   Rest.Do s req successV failureV
   = Ok (done, readErr (RespBody resp0), raw, failureV)) /\
  (d resp0 = false -> failureV = RawTarget x ->
   Rest.Do s req successV failureV
   = Ok (done, readErr (RespBody resp0), successV, raw)) /\
  (d resp0 = false -> failureV = NilTarget -> successV <> NilTarget ->
   Rest.Do s req successV failureV = Ok (done, None, successV, failureV)).
Proof.
  intros Hc H204 Hd. cbv zeta. unfold Rest.Do. rewrite Hc.
  apply Z.eqb_neq in H204. rewrite H204.
  unfold Rest.decodeResponse, ReadAll. rewrite Hd.
  split; [|split].
  - intros -> ->. reflexivity.
  - intros -> ->. rewrite orb_true_r. reflexivity.
  - intros -> -> Hsv. destruct successV; [contradiction| |]; reflexivity.
Qed.

Lemma Do_raw_targets_witness :
  Rest.Do (New (example_config 404)) example_request (ValueTarget (AnyInt 0))
    (RawTarget None)
  = Ok (Some (mkResponse "" 404 ∅ (mkBody "" None true)), None,
        ValueTarget (AnyInt 0), RawTarget (Some "{}"%string)).
Proof.
  destruct (Do_raw_targets (New (example_config 404)) example_request
              (mkResponse "" 404 ∅ (mkBody "{}" None false)) DecodeOnSuccess
              (ValueTarget (AnyInt 0)) (RawTarget None) None)
    as (_ & H & _); [reflexivity | discriminate | reflexivity |].
  apply H; reflexivity.
Defined.

(** ** Body setters and the [Content-Type] header *)

(** X20: [BodyProvider] with a provider stores it, drops a multipart
    provider, and, on a header in order, sets [Content-Type] to the
    content type of the provider when that is not empty; when it is
    empty, as for the provider of [Body], the header is left as it is,
    so that a [Content-Type] set by an earlier body setter stays. *)
Theorem BodyProvider_content_type (st : store) (s : Rest) (b : BodyProvider) :
  header_ok (strs st) (header s) = true ->
  let p := Rest.BodyProvider st s (Some b) in
  bodyProvider (snd p) = Some b /\ multipartBodyProvider (snd p) = None /\
  header_ok (strs (fst p)) (header (snd p)) = true /\
  header_of p
  = if String.eqb (ContentType b) ""
    then header_of (st, s)
    else <["Content-Type"%string := [ContentType b]]> (header_of (st, s)).
Proof.
  intros Hok. cbv zeta. unfold Rest.BodyProvider.
  destruct (String.eqb (ContentType b) ""); cbn [negb].
  - repeat split; try reflexivity. exact Hok.
  - unfold Rest.SetHeader, header_of.
    pose proof (Header_Set_spec (strs st) (header s) hdrContentTypeKey (ContentType b) Hok)
      as H. cbv zeta in H.
    cbn [header set_bodies].
    destruct (Header_Set (strs st) (header s) hdrContentTypeKey (ContentType b))
      as [strs' h']. cbn [fst snd] in *. destruct H as [Hv Hok'].
    repeat split; try reflexivity; [exact Hok' | exact Hv].
Qed.

Lemma BodyProvider_content_type_witness :
  let p := Rest.BodyJSON empty_store (New (example_config 200)) (Some (AnyInt 1)) in
  let q := Rest.Body (fst p) (snd p) (Some "raw"%string) in
  header_of p = {[ "Content-Type"%string := ["application/json"%string] ]} /\
  bodyProvider (snd q) = Some (bodyProvider' "raw") /\
  header_of q = {[ "Content-Type"%string := ["application/json"%string] ]}.
Proof.
  cbv zeta. split; [reflexivity|].
  destruct (BodyProvider_content_type
              (fst (Rest.BodyJSON empty_store (New (example_config 200)) (Some (AnyInt 1))))
              (snd (Rest.BodyJSON empty_store (New (example_config 200)) (Some (AnyInt 1))))
              (bodyProvider' "raw")) as (Hb & _ & _ & Hh); [reflexivity|].
  split; [exact Hb|]. unfold Rest.Body. rewrite Hh. reflexivity.
Defined.

(** ** What [Clone] keeps apart *)

Lemma slice_elems_fresh {T : Type} (h : list (list T)) (arr : list T) (t : slice) :
  slice_ok h t = true -> slice_elems (h ++ [arr]) t = slice_elems h t.
Proof.
  intros Ht. apply slice_ok_spec in Ht. destruct Ht as [Htl [Hc | (a & Ha & Hl)]].
  - unfold slice_elems. assert (len t = 0%nat) as -> by lia. reflexivity.
  - unfold slice_elems. rewrite lookup_app_l by (apply (lookup_lt_Some _ _ _ Ha)).
    reflexivity.
Qed.

(** X21: [SetHeader] and [QueryStruct] do not reach across [Clone]. After
    [c := s.Clone()] on a builder in order, a [SetHeader] on the clone
    leaves the header of the original as it was and a [SetHeader] on the
    original leaves that of the clone; a [QueryStruct] on the clone
    leaves the query structures of the original and a [QueryStruct] on
    the original those of the clone. *)
Theorem Clone_isolates_SetHeader_QueryStruct (st : store) (s : Rest) (st1 : store)
    (c : Rest) (key value : string) (q : option any) :
  header_ok (strs st) (header s) = true ->
  slice_ok (vals st) (queryStructs s) = true ->
  Rest.Clone st s = Ok (st1, c) ->
  header_of (fst (Rest.SetHeader st1 c key value), s) = header_of (st, s) /\
  header_of (fst (Rest.SetHeader st1 s key value), c) = header_of (st, s) /\
  query_structs (fst (Rest.QueryStruct st1 c q), s) = query_structs (st, s) /\
  query_structs (fst (Rest.QueryStruct st1 s q), c) = query_structs (st, s).
Proof.
  intros Hh Hq Hclone. unfold Rest.Clone in Hclone.
  destruct (baseURL s) as [u|]; [|discriminate]. rewrite headerCopy_same in Hclone.
  destruct (url.Parse (url.URL_String u)) as [base' perr].
  pose proof (append_spec (AnyInt 0) (vals st) nil_slice
                (slice_elems (vals st) (queryStructs s)) eq_refl) as Happ.
  destruct (append (AnyInt 0) (vals st) nil_slice
              (slice_elems (vals st) (queryStructs s))) as [vals' qs].
  destruct Happ as (He & Hok' & _ & _ & _ & Hframe).
  destruct (Hframe (queryStructs s) Hq eq_refl) as (Hes & Hoks & Hap).
  inversion Hclone; subst st1 c; clear Hclone.
  apply header_ok_spec in Hh. destruct Hh as [Hhok _].
  assert (Hview : forall v0,
            Header_view (strs st ++ [[v0]]) (header s) = Header_view (strs st) (header s)).
  { intros v0. unfold Header_view. apply map_eq. intros k. rewrite !lookup_fmap.
    destruct (header s !! k) as [sl|] eqn:Hk; [|reflexivity].
    cbn [fmap option_fmap option_map]. f_equal.
    apply slice_elems_fresh. exact (Hhok k sl Hk). }
  unfold header_of, query_structs, Rest.SetHeader, Rest.QueryStruct, Header_Set, literal.
  cbn [fst snd strs vals header queryStructs].
  split; [apply Hview|]. split; [apply Hview|].
  destruct q as [v|]; cbn [fst snd strs vals header queryStructs].
  2:{ split; [exact Hes | rewrite He; reflexivity]. }
  split.
  - pose proof (append_spec (AnyInt 0) vals' qs [v] Hok') as H1.
    destruct (append (AnyInt 0) vals' qs [v]) as [vals2 qs2].
    destruct H1 as (_ & _ & _ & _ & _ & Hframe1). cbn [fst vals].
    destruct (Hframe1 (queryStructs s) Hoks Hap) as [H1 _]. rewrite H1. exact Hes.
  - pose proof (append_spec (AnyInt 0) vals' (queryStructs s) [v] Hoks) as H1.
    destruct (append (AnyInt 0) vals' (queryStructs s) [v]) as [vals2 qs2].
    destruct H1 as (_ & _ & _ & _ & _ & Hframe1). cbn [fst vals].
    rewrite slices_apart_sym in Hap.
    destruct (Hframe1 qs Hok' Hap) as [H1 _]. rewrite H1, He. reflexivity.
Qed.

Lemma Clone_isolates_SetHeader_QueryStruct_witness :
  header_of (fst (Rest.SetHeader (fst template_clone) (snd template_clone)
                    "Accept" "c/4"),
             snd template_pair)
  = {[ "Accept"%string := ["a/1"; "a/2"; "a/3"]%string ]} /\
  header_of (fst (Rest.SetHeader (fst template_clone) (snd template_pair)
                    "Accept" "c/4"),
             snd template_clone)
  = {[ "Accept"%string := ["a/1"; "a/2"; "a/3"]%string ]}.
Proof.
  destruct (Clone_isolates_SetHeader_QueryStruct
              (fst template_pair) (snd template_pair)
              (fst template_clone) (snd template_clone) "Accept" "c/4" None)
    as (H1 & H2 & _); [reflexivity | reflexivity | reflexivity |].
  split; [exact H1 | exact H2].
Defined.

(** ** Hexadecimal quantities: [Sprintf("%#x")] and [ConvertHexToDec] *)

(** What the loop of [ParseUint] makes of one lower-case hexadecimal
    digit. *)
Lemma ParseUint_loop_hex_digit (cutoff maxVal n d : Z) (s : string) :
  0 <= d < 16 ->
  ParseUint_loop true 16 cutoff maxVal n false
    (String (hex_digit_of false (Z.to_nat d)) s)
  = if cutoff <=? n then inr (maxVal, ErrRange)
    else
      let n0 := (n * 16) mod 2 ^ 64 in
      let n1 := (n0 + d) mod 2 ^ 64 in
      if (n1 <? n0) || (maxVal <? n1) then inr (maxVal, ErrRange)
      else ParseUint_loop true 16 cutoff maxVal n1 false s.
Proof.
  intros Hd.
  assert (Hcases : d = 0 \/ d = 1 \/ d = 2 \/ d = 3 \/ d = 4 \/ d = 5 \/ d = 6 \/ d = 7 \/
                   d = 8 \/ d = 9 \/ d = 10 \/ d = 11 \/ d = 12 \/ d = 13 \/ d = 14 \/
                   d = 15) by lia.
  repeat (destruct Hcases as [-> | Hcases]); try subst d; reflexivity.
Qed.

Lemma hex_digits_step (fuel : nat) (u : Z) (acc : string) :
  hex_digits (S fuel) u acc
  = if 16 <=? u
    then hex_digits fuel (u / 16) (String (hex_digit_of false (Z.to_nat (u mod 16))) acc)
    else String (hex_digit_of false (Z.to_nat u)) acc.
Proof.
  cbn [hex_digits]. rewrite Z.shiftr_div_pow2 by lia.
  change 15 with (Z.ones 4). rewrite Z.land_ones by lia. reflexivity.
Qed.

Lemma hex_digits_nonempty (fuel : nat) :
  forall u acc, hex_digits (S fuel) u acc <> ""%string.
Proof.
  induction fuel as [|fuel IH]; intros u acc; rewrite hex_digits_step.
  - destruct (16 <=? u); cbn [hex_digits]; discriminate.
  - destruct (16 <=? u); [apply IH | discriminate].
Qed.

(** Reading back the digits that [fmtInteger] wrote. *)
Lemma ParseUint_loop_hex_digits (fuel : nat) :
  forall u acc,
    0 <= u < 16 ^ Z.of_nat fuel -> u < 2 ^ 64 ->
    ParseUint_loop true 16 (maxUint64 / 16 + 1) (2 ^ 64 - 1) 0 false
      (hex_digits fuel u acc)
    = ParseUint_loop true 16 (maxUint64 / 16 + 1) (2 ^ 64 - 1) u false acc.
Proof.
  change (maxUint64 / 16 + 1) with (2 ^ 60).
  induction fuel as [|fuel IH]; intros u acc Hu Hmax.
  { change (16 ^ Z.of_nat 0) with 1 in Hu. assert (u = 0) as -> by lia. reflexivity. }
  rewrite hex_digits_step.
  assert (Hstep : forall n d, 0 <= n -> n * 16 + d < 2 ^ 64 -> 0 <= d < 16 ->
            ParseUint_loop true 16 (2 ^ 60) (2 ^ 64 - 1) n false
              (String (hex_digit_of false (Z.to_nat d)) acc)
            = ParseUint_loop true 16 (2 ^ 60) (2 ^ 64 - 1) (n * 16 + d) false acc).
  { intros n d Hn Hnd Hd. rewrite ParseUint_loop_hex_digit by exact Hd. cbv zeta.
    destruct (Z.leb_spec (2 ^ 60) n) as [Hc|Hc]; [lia|].
    rewrite (Z.mod_small (n * 16)) by lia.
    rewrite (Z.mod_small (n * 16 + d)) by lia.
    destruct (Z.ltb_spec (n * 16 + d) (n * 16)); [lia|].
    destruct (Z.ltb_spec (2 ^ 64 - 1) (n * 16 + d)); [lia|]. reflexivity. }
  destruct (Z.leb_spec 16 u) as [Hge|Hlt].
  - pose proof (Z.div_mod u 16 ltac:(lia)) as Hdm.
    pose proof (Z.mod_pos_bound u 16 ltac:(lia)) as Hmod.
    rewrite IH.
    + rewrite Hstep by lia. f_equal. lia.
    + rewrite Nat2Z.inj_succ, Z.pow_succ_r in Hu by lia. split; [apply Z.div_pos; lia|].
      apply Z.div_lt_upper_bound; lia.
    + apply Z.div_lt_upper_bound; lia.
  - rewrite (Hstep 0 u) by lia. reflexivity.
Qed.

Lemma ParseUint_Sprintf (u : Z) :
  0 <= u < 2 ^ 64 ->
  ParseUint (String "0" (String "x" (hex_digits 16 u ""))) 0 64 = (u, None).
Proof.
  intros Hu. unfold ParseUint.
  change (String.eqb (String "0" (String "x" (hex_digits 16 u ""))) "") with false.
  cbn match. cbv zeta.
  change ((2 <=? 0) && (0 <=? 36)) with false. cbn match.
  change (0 =? 0) with true. cbn match.
  change (Ascii.eqb "0" "0") with true. cbn match.
  destruct (hex_digits 16 u "") as [|c r] eqn:Hd.
  { destruct (hex_digits_nonempty 15 u "" Hd). }
  change (Ascii.eqb (lower "x") "b") with false.
  change (Ascii.eqb (lower "x") "o") with false.
  change (Ascii.eqb (lower "x") "x") with true. cbn match.
  change ((64 <? 0) || (64 <? 64)) with false. cbn match.
  change (64 =? 0) with false. cbn match.
  rewrite <- Hd. rewrite ParseUint_loop_hex_digits.
  - reflexivity.
  - change (16 ^ Z.of_nat 16) with (2 ^ 64). exact Hu.
  - lia.
Qed.

(** X22: the two ends of a hexadecimal quantity agree. What
    [fmt.Sprintf("%#x", v)] writes for an [int] [v], as [subscribe] does
    for a transaction index, [ConvertHexToDec] reads back as [v]: for
    every 64-bit [v], negative or not, [ParseInt] accepts the text
    without error. *)
Theorem ConvertHexToDec_Sprintf (v : Z) :
  in_int64 v ->
  ParseInt (Sprintf_sharp_x v) 0 64 = (v, None) /\
  ConvertHexToDec (Sprintf_sharp_x v) = v.
Proof.
  unfold in_int64, MinInt64, MaxInt64. intros Hv.
  assert (HP : ParseInt (Sprintf_sharp_x v) 0 64 = (v, None)).
  { unfold Sprintf_sharp_x. destruct (Z.ltb_spec v 0) as [Hneg|Hpos].
    - change ("-" +:+ "0x" +:+ hex_digits 16 ((- v) mod 2 ^ 64) "")%string
        with (String "-" (String "0" (String "x" (hex_digits 16 ((- v) mod 2 ^ 64) "")))).
      unfold ParseInt.
      change (String.eqb (String "-" _) "") with false. cbn match.
      change (Ascii.eqb "-" "+") with false. change (Ascii.eqb "-" "-") with true.
      cbn match. rewrite ParseUint_Sprintf by (apply Z.mod_pos_bound; lia).
      rewrite Z.mod_small by lia. cbv zeta.
      change (64 =? 0) with false. cbn match. change (negb true) with false.
      cbn [andb]. change (2 ^ (64 - 1)) with (2 ^ 63).
      destruct (Z.ltb_spec (2 ^ 63) (- v)) as [|Hc]; [lia|].
      f_equal. unfold wrap64.
      destruct (Z.eq_dec v (- 2 ^ 63)) as [->|Hne]; [reflexivity|].
      rewrite (Z.mod_small (- v + 2 ^ 63)) by lia.
      replace (- (- v + 2 ^ 63 - 2 ^ 63) + 2 ^ 63) with (v + 2 ^ 63) by lia.
      rewrite Z.mod_small by lia. lia.
    - change ("" +:+ "0x" +:+ hex_digits 16 v "")%string
        with (String "0" (String "x" (hex_digits 16 v ""))).
      unfold ParseInt.
      change (String.eqb (String "0" _) "") with false. cbn match.
      change (Ascii.eqb "0" "+") with false. change (Ascii.eqb "0" "-") with false.
      cbn match. rewrite ParseUint_Sprintf by lia. cbv zeta.
      change (64 =? 0) with false. cbn match. change (negb false) with true.
      cbn [andb]. change (2 ^ (64 - 1)) with (2 ^ 63).
      destruct (Z.leb_spec (2 ^ 63) v) as [|Hc]; [lia|].
      f_equal. unfold wrap64. rewrite Z.mod_small by lia. lia. }
  split; [exact HP|]. unfold ConvertHexToDec. rewrite HP. reflexivity.
Qed.

Lemma ConvertHexToDec_Sprintf_witness :
  Sprintf_sharp_x (-255) = "-0xff"%string /\ ConvertHexToDec "-0xff" = -255.
Proof.
  split; [reflexivity|].
  apply (ConvertHexToDec_Sprintf (-255)). unfold in_int64, MinInt64, MaxInt64. lia.
Defined.

(** The base prefix decides: without "0x" the digits are read in base
    10, or in base 8 after a leading zero, and a text that is no number
    gives 0, like "0x0". *)
Example ConvertHexToDec_cases :
  map ConvertHexToDec
    ["0x1f"; "0X1F"; "1f"; "10"; "010"; "0b101"; "0x_1f"; "0x"; ""; "0x0";
     "0x8000000000000000"; "-0x8000000000000000"]%string
  = [31; 31; 0; 10; 8; 5; 31; 0; 0; 0; 0; - 2 ^ 63].
Proof. vm_compute. reflexivity. Qed.

(** ** The in-memory repository *)

(** X23: the block infos of [InMemory] are a map by address.
    [UpsertBlockInfo] of a block info always succeeds; afterwards
    [GetBlockInfo] returns that block info for its address, whatever was
    stored for it, and for every other address what it returned before;
    the transactions are not touched. An address that was never stored
    gives [ErrNotFound], which [errors.Is] recognizes. *)
Theorem InMemory_upsert_get (s : repositories.InMemory) (b : models.BlockInfo)
    (address : string) :
  exists s',
    repositories.UpsertBlockInfo s (Some b) = Ok (s', None) /\
    repositories.GetBlockInfo s' address
    = (if String.eqb address (models.BlockAddress b) then (Some b, None)
       else repositories.GetBlockInfo s address) /\
    repositories.blockTransactions s' = repositories.blockTransactions s /\
    repositories.GetBlockInfo repositories.New address
    = (None, Some repositories.ErrNotFound) /\
    errors_Is repositories.ErrNotFound repositories.ErrNotFound = true.
Proof.
  eexists. split; [reflexivity|].
  cbn [repositories.GetBlockInfo repositories.InMemory_Repository].
  unfold repositories.InMemory_GetBlockInfo.
  cbn [repositories.mapBlockInfo repositories.blockTransactions].
  split; [|split; [reflexivity | split; reflexivity]].
  destruct (String.eqb_spec address (models.BlockAddress b)) as [->|Hne].
  - rewrite lookup_insert. rewrite decide_True by reflexivity. reflexivity.
  - rewrite lookup_insert_ne by (apply not_eq_sym; exact Hne). reflexivity.
Qed.

(** ** [subscribe] *)

Lemma subscribe_loop_spec (node : parser.Node) (address : string)
    (txs : nat -> parser.Transaction) (i0 : Z) (n : nat) :
  forall (j : nat) (acc : list models.BlockTransaction) (latest : string),
    (forall k, (j <= k < j + n)%nat ->
       parser.GetTransactionByIndex node k address (Sprintf_sharp_x (i0 + Z.of_nat k))
       = Some (txs k)) ->
    parser.subscribe_loop node address n (i0 + Z.of_nat j) j acc latest
    = Ok (acc ++ map (fun k => models.mkBlockTransaction 0 address
                                 (parser.Hash (txs k)) (parser.Now node k))
                     (seq j n),
          match n with
          | O => latest
          | S m => parser.Hash (txs (j + m)%nat)
          end).
Proof.
  induction n as [|n IH]; intros j acc latest Hfetch.
  { cbn [parser.subscribe_loop seq map]. rewrite app_nil_r. reflexivity. }
  cbn [parser.subscribe_loop]. rewrite (Hfetch j) by lia.
  replace (i0 + Z.of_nat j + 1) with (i0 + Z.of_nat (S j)) by lia.
  rewrite IH by (intros k Hk; apply Hfetch; lia).
  cbn [seq map]. rewrite <- app_assoc. cbn [app]. f_equal. f_equal.
  destruct n as [|m]; [rewrite Nat.add_0_r; reflexivity|].
  f_equal. f_equal. lia.
Qed.

(** X24: what [subscribe] stores. On an [InMemory] repository, when the
    node reports a count (as a text that is not empty) which differs
    from the count stored for the address, and delivers the transactions
    with the indices from the stored count (0 if there is none) up to the
    reported count, each asked for with its index in the form
    [Sprintf("%#x")], then [subscribe] returns no error; it has appended
    one record per transaction, in the order of the indices, with the
    address, the hash and the time of the clock, and it has stored for
    the address the reported count and the hash of the last transaction
    it fetched, which is the empty text when it fetched none. No other
    address is touched. *)
Theorem subscribe_stores (repo : repositories.InMemory) (node : parser.Node)
    (address : string) (txs : nat -> parser.Transaction) :
  let count := ConvertHexToDec (parser.CountBlockTransaction node address) in
  let first := stored_count repo address in
  let n := Z.to_nat (count - first) in
  parser.CountBlockTransaction node address <> ""%string ->
  (stored_info repo address = None \/ first <> count) ->
  (forall k, (k < n)%nat ->
     parser.GetTransactionByIndex node k address (Sprintf_sharp_x (first + Z.of_nat k))
     = Some (txs k)) ->
  exists repo',
    parser.subscribe repo node address = Ok (repo', None) /\
    repositories.blockTransactions repo'
    = repositories.blockTransactions repo ++ fetched node address txs n /\
    stored_info repo' address
    = Some (models.mkBlockInfo address count (latest_hash txs n)) /\
    forall other, other <> address -> stored_info repo' other = stored_info repo other.
Proof.
  intros count first n Hcount Hnew Hfetch.
  unfold parser.subscribe.
  cbn [repositories.GetBlockInfo repositories.UpsertBlockInfo
       repositories.CreateBlockTransactions repositories.InMemory_Repository].
  unfold repositories.InMemory_GetBlockInfo.
  unfold stored_count, stored_info in *.
  apply String.eqb_neq in Hcount.
  assert (Hloop :
    parser.subscribe_loop node address n first 0 [] ""
    = Ok (fetched node address txs n, latest_hash txs n)).
  { pose proof (subscribe_loop_spec node address txs first n 0%nat [] "") as H.
    rewrite Z.add_0_r in H. rewrite H; [|intros k Hk; apply Hfetch; lia].
    unfold fetched, latest_hash. cbn [app]. destruct n; reflexivity. }
  destruct (repositories.mapBlockInfo repo !! address) as [b|] eqn:Hb.
  - cbn [errors_Is negb]. rewrite Hcount. fold count.
    destruct Hnew as [Hnone | Hne]; [discriminate|].
    apply Z.eqb_neq in Hne. change first with (models.Count b) in Hne, Hloop.
    rewrite Hne. change (Z.to_nat (count - models.Count b)) with n.
    rewrite Hloop. cbn [mbind outcome_bind].
    unfold repositories.InMemory_CreateBlockTransactions,
      repositories.InMemory_UpsertBlockInfo.
    cbn [mbind outcome_bind models.BlockAddress repositories.mapBlockInfo
         repositories.blockTransactions].
    eexists. split; [reflexivity|].
    cbn [repositories.mapBlockInfo repositories.blockTransactions].
    split; [reflexivity|]. split.
    + rewrite lookup_insert. rewrite decide_True by reflexivity. reflexivity.
    + intros other Hother. rewrite lookup_insert_ne by (apply not_eq_sym; exact Hother).
      reflexivity.
  - change (negb (errors_Is repositories.ErrNotFound repositories.ErrNotFound))
      with false.
    cbn match. rewrite Hcount. fold count.
    change (Z.to_nat (count - 0)) with n. change first with 0 in Hloop.
    rewrite Hloop. cbn [mbind outcome_bind].
    unfold repositories.InMemory_CreateBlockTransactions,
      repositories.InMemory_UpsertBlockInfo.
    cbn [mbind outcome_bind models.BlockAddress repositories.mapBlockInfo
         repositories.blockTransactions].
    eexists. split; [reflexivity|].
    cbn [repositories.mapBlockInfo repositories.blockTransactions].
    split; [reflexivity|]. split.
    + rewrite lookup_insert. rewrite decide_True by reflexivity. reflexivity.
    + intros other Hother. rewrite lookup_insert_ne by (apply not_eq_sym; exact Hother).
      reflexivity.
Qed.

Lemma subscribe_stores_witness :
  exists repo',
    parser.subscribe repositories.New example_node "0xb10c" = Ok (repo', None) /\
    map models.TransactionAddress (repositories.blockTransactions repo')
    = ["hash-0x0"; "hash-0x1"; "hash-0x2"]%string /\
    stored_info repo' "0xb10c" = Some (models.mkBlockInfo "0xb10c" 3 "hash-0x2").
Proof.
  destruct (subscribe_stores repositories.New example_node "0xb10c"
              (fun k => plain_transaction ("hash-" +:+ Sprintf_sharp_x (Z.of_nat k))))
    as (repo' & Hs & Htx & Hinfo & _).
  - discriminate.
  - left. reflexivity.
  - intros k Hk. reflexivity.
  - exists repo'. split; [exact Hs|]. split; [rewrite Htx; reflexivity | exact Hinfo].
Defined.

(** X25: polling again changes nothing. If [subscribe] returns without
    error on an [InMemory] repository, a second [subscribe] for the same
    address, with the node reporting the same count, returns without
    error and leaves the repository as the first call left it: it
    fetches and stores nothing. *)
Theorem subscribe_again (repo repo' : repositories.InMemory) (node node' : parser.Node)
    (address : string) :
  parser.CountBlockTransaction node' address = parser.CountBlockTransaction node address ->
  parser.subscribe repo node address = Ok (repo', None) ->
  parser.subscribe repo' node' address = Ok (repo', None).
Proof.
  intros Hsame H1.
  assert (Hnoop : forall r b,
            repositories.mapBlockInfo r !! address = Some b ->
            parser.CountBlockTransaction node address <> ""%string ->
            models.Count b = ConvertHexToDec (parser.CountBlockTransaction node address) ->
            parser.subscribe r node' address = Ok (r, None)).
  { intros r b Hb Hne Hc. unfold parser.subscribe.
    cbn [repositories.GetBlockInfo repositories.InMemory_Repository].
    unfold repositories.InMemory_GetBlockInfo. rewrite Hb, Hsame.
    apply String.eqb_neq in Hne. rewrite Hne, Hc, Z.eqb_refl. reflexivity. }
  unfold parser.subscribe in H1.
  cbn [repositories.GetBlockInfo repositories.UpsertBlockInfo
       repositories.CreateBlockTransactions repositories.InMemory_Repository] in H1.
  unfold repositories.InMemory_GetBlockInfo in H1.
  destruct (String.eqb_spec (parser.CountBlockTransaction node address) "") as [Hc|Hc].
  { destruct (repositories.mapBlockInfo repo !! address); discriminate. }
  assert (Hstored : forall r0 latest,
    parser.subscribe
      (repositories.mkInMemory
         (<[address := models.mkBlockInfo address
                         (ConvertHexToDec (parser.CountBlockTransaction node address))
                         latest]> (repositories.mapBlockInfo repo)) r0)
      node' address
    = Ok (repositories.mkInMemory
            (<[address := models.mkBlockInfo address
                            (ConvertHexToDec (parser.CountBlockTransaction node address))
                            latest]> (repositories.mapBlockInfo repo)) r0, None)).
  { intros r0 latest. eapply Hnoop; [|exact Hc|].
    - cbn [repositories.mapBlockInfo]. rewrite lookup_insert.
      rewrite decide_True by reflexivity. reflexivity.
    - reflexivity. }
  destruct (repositories.mapBlockInfo repo !! address) as [b|] eqn:Hb.
  - cbn [errors_Is negb] in H1.
    destruct (Z.eqb_spec (models.Count b)
                (ConvertHexToDec (parser.CountBlockTransaction node address))) as [He|He].
    + inversion H1; subst repo'. exact (Hnoop repo b Hb Hc He).
    + destruct (parser.subscribe_loop _ _ _ _ _ _ _) as [[txs latest]|msg];
        [|discriminate].
      unfold repositories.InMemory_CreateBlockTransactions,
        repositories.InMemory_UpsertBlockInfo in H1.
      cbn [mbind outcome_bind models.BlockAddress repositories.mapBlockInfo
           repositories.blockTransactions] in H1.
      inversion H1; subst repo'. apply Hstored.
  - change (negb (errors_Is repositories.ErrNotFound repositories.ErrNotFound))
      with false in H1. cbn match in H1.
    destruct (parser.subscribe_loop _ _ _ _ _ _ _) as [[txs latest]|msg];
      [|discriminate].
    unfold repositories.InMemory_CreateBlockTransactions,
      repositories.InMemory_UpsertBlockInfo in H1.
    cbn [mbind outcome_bind models.BlockAddress repositories.mapBlockInfo
         repositories.blockTransactions] in H1.
    inversion H1; subst repo'. apply Hstored.
Qed.

Lemma subscribe_again_witness :
  exists repo',
    parser.subscribe repositories.New example_node "0xb10c" = Ok (repo', None) /\
    parser.subscribe repo' failing_node "0xb10c" = Ok (repo', None).
Proof.
  destruct (subscribe_stores repositories.New example_node "0xb10c"
              (fun k => plain_transaction ("hash-" +:+ Sprintf_sharp_x (Z.of_nat k))))
    as (repo' & Hs & _).
  - discriminate.
  - left. reflexivity.
  - intros k Hk. reflexivity.
  - exists repo'. split; [exact Hs|].
    apply (subscribe_again repositories.New repo' example_node failing_node "0xb10c");
      [reflexivity | exact Hs].
Defined.

Lemma classic_first {A : Type} (bad : nat) (f : nat -> option A) :
  (forall k, (k < bad)%nat -> f k <> None) \/ exists k, (k < bad)%nat /\ f k = None.
Proof.
  induction bad as [|bad [IH | (k & Hk & Hn)]].
  - left. intros k Hk. lia.
  - destruct (f bad) as [a|] eqn:Hf.
    + left. intros k Hk. destruct (Nat.eq_dec k bad) as [->|Hne];
        [rewrite Hf; discriminate | apply IH; lia].
    + right. exists bad. split; [lia | exact Hf].
  - right. exists k. split; [lia | exact Hn].
Qed.

Lemma subscribe_loop_nil (node : parser.Node) (address : string) (i0 : Z) (n : nat) :
  forall (j : nat) (acc : list models.BlockTransaction) (latest : string) (bad : nat),
    (j <= bad < j + n)%nat ->
    (forall k, (j <= k < bad)%nat ->
       parser.GetTransactionByIndex node k address (Sprintf_sharp_x (i0 + Z.of_nat k))
       <> None) ->
    parser.GetTransactionByIndex node bad address (Sprintf_sharp_x (i0 + Z.of_nat bad))
    = None ->
    parser.subscribe_loop node address n (i0 + Z.of_nat j) j acc latest
    = Panic "invalid memory address or nil pointer dereference".
Proof.
  induction n as [|n IH]; intros j acc latest bad Hbad Hok Hnil; [lia|].
  cbn [parser.subscribe_loop].
  destruct (Nat.eq_dec j bad) as [->|Hne].
  - rewrite Hnil. reflexivity.
  - destruct (parser.GetTransactionByIndex node j address _) as [trans|] eqn:Hj;
      [|reflexivity].
    replace (i0 + Z.of_nat j + 1) with (i0 + Z.of_nat (S j)) by lia.
    apply (IH (S j) _ _ bad); [lia | intros k Hk; apply Hok; lia | exact Hnil].
Qed.

(** X26: how [subscribe] fails on an [InMemory] repository. When the
    count cannot be fetched ([CountBlockTransaction] returns the empty
    text) it returns the error "failed to fetch block count" and leaves
    the repository alone. When the count is new and one of the
    transactions up to it cannot be fetched ([GetTransactionByIndex]
    returns [nil]), it panics on the [nil] transaction: nothing of the
    poll is stored, not even the transactions fetched before. *)
Theorem subscribe_failures (repo : repositories.InMemory) (node : parser.Node)
    (address : string) :
  let count := ConvertHexToDec (parser.CountBlockTransaction node address) in
  let first := stored_count repo address in
  (parser.CountBlockTransaction node address = ""%string ->
   parser.subscribe repo node address
   = Ok (repo, Some (errorString "failed to fetch block count"))) /\
  (forall bad : nat,
     parser.CountBlockTransaction node address <> ""%string ->
     (stored_info repo address = None \/ first <> count) ->
     first + Z.of_nat bad < count ->
     parser.GetTransactionByIndex node bad address
       (Sprintf_sharp_x (first + Z.of_nat bad)) = None ->
     exists msg, parser.subscribe repo node address = Panic msg).
Proof.
  intros count first. unfold parser.subscribe.
  cbn [repositories.GetBlockInfo repositories.UpsertBlockInfo
       repositories.CreateBlockTransactions repositories.InMemory_Repository].
  unfold repositories.InMemory_GetBlockInfo. split.
  - intros ->. destruct (repositories.mapBlockInfo repo !! address); reflexivity.
  - intros bad Hcount Hnew Hlt Hnil. apply String.eqb_neq in Hcount.
    assert (Hfirst : exists bad0, (bad0 <= bad)%nat /\
              parser.GetTransactionByIndex node bad0 address
                (Sprintf_sharp_x (first + Z.of_nat bad0)) = None /\
              forall k, (0 <= k < bad0)%nat ->
                parser.GetTransactionByIndex node k address
                  (Sprintf_sharp_x (first + Z.of_nat k)) <> None).
    { clear Hlt. induction bad as [bad IHbad] using lt_wf_ind.
      destruct (classic_first bad
                  (fun k => parser.GetTransactionByIndex node k address
                              (Sprintf_sharp_x (first + Z.of_nat k)))) as [Hall|(k & Hk & Hkn)].
      - exists bad. split; [lia|]. split; [exact Hnil|]. intros k Hk. apply Hall. lia.
      - destruct (IHbad k Hk Hkn) as (b0 & Hb0 & Hn0 & Hall0).
        exists b0. split; [lia|]. split; assumption. }
    destruct Hfirst as (bad0 & Hle & Hnil0 & Hbefore).
    assert (Hloop :
      parser.subscribe_loop node address (Z.to_nat (count - first)) first 0 [] ""
      = Panic "invalid memory address or nil pointer dereference").
    { pose proof (subscribe_loop_nil node address first (Z.to_nat (count - first))
                    0%nat [] "" bad0) as H.
      rewrite Z.add_0_r in H. apply H; [lia | exact Hbefore | exact Hnil0]. }
    unfold stored_count, stored_info in *.
    destruct (repositories.mapBlockInfo repo !! address) as [b|] eqn:Hb.
    + cbn [errors_Is negb]. rewrite Hcount. fold count.
      destruct Hnew as [Hnone | Hne]; [discriminate|].
      apply Z.eqb_neq in Hne. change first with (models.Count b) in Hne, Hloop.
      rewrite Hne, Hloop. eexists. reflexivity.
    + change (negb (errors_Is repositories.ErrNotFound repositories.ErrNotFound))
        with false.
      cbn match. rewrite Hcount. fold count. change first with 0 in Hloop.
      rewrite Hloop. eexists. reflexivity.
Qed.

Lemma subscribe_failures_witness :
  exists msg, parser.subscribe repositories.New failing_node "0xb10c" = Panic msg.
Proof.
  destruct (subscribe_failures repositories.New failing_node "0xb10c") as [_ H].
  apply (H 1%nat).
  - discriminate.
  - left. reflexivity.
  - reflexivity.
  - reflexivity.
Defined.

(** ** Query strings: escaping *)

Lemma query_escape_byte (c : ascii) (rest : string) :
  url.unescape_check url.encodeQueryComponent
    (url.escape_byte c url.encodeQueryComponent +:+ rest)
  = url.unescape_check url.encodeQueryComponent rest /\
  url.unescape_bytes url.encodeQueryComponent
    (url.escape_byte c url.encodeQueryComponent +:+ rest)
  = String c (url.unescape_bytes url.encodeQueryComponent rest) /\
  string_forallb (fun d => negb (byte_in "&=;" d))
    (url.escape_byte c url.encodeQueryComponent) = true.
Proof. destruct c as [[] [] [] [] [] [] [] []]; repeat split; reflexivity. Qed.

Lemma string_forallb_app (p : ascii -> bool) (a b : string) :
  string_forallb p (a +:+ b) = string_forallb p a && string_forallb p b.
Proof.
  induction a as [|c a IH]; [reflexivity|].
  rewrite append_cons. cbn [string_forallb]. rewrite IH, andb_assoc. reflexivity.
Qed.

(** [QueryUnescape] undoes [QueryEscape], and the escaped text holds
    none of the bytes that structure a query. *)
Lemma QueryUnescape_QueryEscape (s : string) :
  QueryUnescape (QueryEscape s) = inl s /\
  string_forallb (fun d => negb (byte_in "&=;" d)) (QueryEscape s) = true.
Proof.
  unfold QueryUnescape, QueryEscape, url.unescape.
  assert (H : url.unescape_check url.encodeQueryComponent
                (url.escape s url.encodeQueryComponent) = None /\
              url.unescape_bytes url.encodeQueryComponent
                (url.escape s url.encodeQueryComponent) = s /\
              string_forallb (fun d => negb (byte_in "&=;" d))
                (url.escape s url.encodeQueryComponent) = true).
  { induction s as [|c s (IH1 & IH2 & IH3)]; [repeat split; reflexivity|].
    cbn [url.escape].
    destruct (query_escape_byte c (url.escape s url.encodeQueryComponent))
      as (H1 & H2 & H3).
    rewrite H1, H2, string_forallb_app, H3, IH1, IH2, IH3. repeat split; reflexivity. }
  destruct H as (H1 & H2 & H3). rewrite H1, H2. split; [reflexivity | exact H3].
Qed.

(** ** Query strings: the texts between the "&" *)

Lemma split_absent (s : string) (sep : ascii) :
  string_forallb (fun c => negb (Ascii.eqb c sep)) s = true ->
  url.split s sep = [s].
Proof.
  induction s as [|c s IH]; [reflexivity|]. cbn [string_forallb url.split].
  intros H. apply andb_prop in H. destruct H as [Hc Hs].
  apply negb_true_iff in Hc. rewrite Hc, (IH Hs). reflexivity.
Qed.

Lemma split_app_sep (a b : string) (sep : ascii) :
  url.split (a +:+ String sep b) sep = url.split a sep ++ url.split b sep.
Proof.
  induction a as [|c a IH].
  - rewrite append_nil_l. cbn [url.split]. rewrite Ascii.eqb_refl. reflexivity.
  - rewrite append_cons. cbn [url.split]. rewrite IH.
    destruct (Ascii.eqb c sep); [reflexivity|].
    destruct (split_cons a sep) as (x & xs & ->). reflexivity.
Qed.

Lemma Cut_at_first (a b : string) (sep : ascii) :
  string_forallb (fun c => negb (Ascii.eqb c sep)) a = true ->
  Cut (a +:+ String sep b) sep = (a, b, true).
Proof.
  induction a as [|c a IH]; intros H.
  - rewrite append_nil_l. cbn [Cut]. rewrite Ascii.eqb_refl. reflexivity.
  - cbn [string_forallb] in H. apply andb_prop in H. destruct H as [Hc Ha].
    apply negb_true_iff in Hc. rewrite append_cons. cbn [Cut].
    rewrite Hc, (IH Ha). reflexivity.
Qed.

Lemma Contains_byte_absent (s : string) (c : ascii) :
  string_forallb (fun d => negb (Ascii.eqb d c)) s = true ->
  Contains s (String c "") = false.
Proof.
  induction s as [|d s IH]; [reflexivity|]. cbn [string_forallb Contains String.prefix].
  intros H. apply andb_prop in H. destruct H as [Hd Hs].
  apply negb_true_iff, Ascii.eqb_neq in Hd.
  destruct (ascii_dec c d) as [->|_]; [contradiction|]. cbn [orb]. exact (IH Hs).
Qed.

(** The text of one pair of [Encode], and the way [Encode] joins. *)
Lemma encode_values_pieces (keyEscaped : string) (vs : list string) :
  forall buf,
    Values.encode_values keyEscaped buf vs
    = fold_left (fun buf p => (if negb (String.eqb buf "") then buf +:+ "&" else buf) +:+ p)
        (map (fun v => keyEscaped +:+ "=" +:+ QueryEscape v) vs) buf.
Proof.
  unfold Values.encode_values. induction vs as [|v vs IH]; intros buf; [reflexivity|].
  cbn [fold_left map]. apply IH.
Qed.

Lemma split_joined_from (ps : list string) :
  forall buf,
    buf <> ""%string ->
    Forall (fun p => p <> ""%string /\
                     string_forallb (fun c => negb (Ascii.eqb c "&")) p = true) ps ->
    let q := fold_left
               (fun buf p => (if negb (String.eqb buf "") then buf +:+ "&" else buf) +:+ p)
               ps buf in
    q <> ""%string /\ url.split q "&" = url.split buf "&" ++ ps.
Proof.
  induction ps as [|p ps IH]; intros buf Hbuf Hall; cbv zeta.
  - cbn [fold_left]. rewrite app_nil_r. auto.
  - inversion Hall as [|? ? [Hp Hclean] Hall']; subst. cbn [fold_left].
    apply String.eqb_neq in Hbuf. rewrite Hbuf. cbn [negb].
    rewrite append_assoc.
    destruct (IH (buf +:+ "&" +:+ p)) as [H1 H2].
    + destruct buf; [discriminate|]. rewrite append_cons. discriminate.
    + exact Hall'.
    + split; [exact H1|]. rewrite H2.
      change ("&" +:+ p)%string with (String "&" p).
      rewrite split_app_sep, (split_absent p "&" Hclean), <- app_assoc. reflexivity.
Qed.

(** Cutting what [Encode] joined gives the pairs back. *)
Lemma split_joined (ps : list string) :
  Forall (fun p => p <> ""%string /\
                   string_forallb (fun c => negb (Ascii.eqb c "&")) p = true) ps ->
  let q := fold_left
             (fun buf p => (if negb (String.eqb buf "") then buf +:+ "&" else buf) +:+ p)
             ps ""%string in
  (if String.eqb q "" then [] else url.split q "&") = ps.
Proof.
  cbv zeta. intros Hall. destruct ps as [|p ps]; [reflexivity|].
  inversion Hall as [|? ? [Hp Hclean] Hall']; subst.
  cbn [fold_left]. change (negb (String.eqb "" "")) with false. cbn match.
  rewrite append_nil_l.
  destruct (split_joined_from ps p Hp Hall') as [H1 H2].
  apply String.eqb_neq in H1. rewrite H1, H2, (split_absent p "&" Hclean). reflexivity.
Qed.

(** ** Query strings: [ParseQuery] after [Encode] *)

Lemma escaped_clean (s : string) (c : ascii) :
  byte_in "&=;" c = true ->
  string_forallb (fun d => negb (Ascii.eqb d c)) (QueryEscape s) = true.
Proof.
  intros Hc. destruct (QueryUnescape_QueryEscape s) as [_ H].
  revert H. apply string_forallb_impl. intros d Hd.
  destruct (Ascii.eqb_spec d c) as [->|]; [|reflexivity].
  rewrite Hc in Hd. discriminate.
Qed.

(** [parseQuery] reads one pair of [Encode] as the key and the value
    that were encoded. *)
Lemma parseQuery_pair_encoded (m : Values.t) (k x : string) :
  parseQuery_pair (m, None) (QueryEscape k +:+ "=" +:+ QueryEscape x)
  = (Values.Add m k x, None).
Proof.
  unfold parseQuery_pair.
  assert (Hsemi : Contains (QueryEscape k +:+ "=" +:+ QueryEscape x) ";" = false).
  { apply Contains_byte_absent. rewrite !string_forallb_app.
    rewrite (escaped_clean k ";" eq_refl), (escaped_clean x ";" eq_refl). reflexivity. }
  rewrite Hsemi.
  assert (Hne : String.eqb (QueryEscape k +:+ "=" +:+ QueryEscape x) "" = false).
  { apply String.eqb_neq. destruct (QueryEscape k); [discriminate|].
    rewrite append_cons. discriminate. }
  rewrite Hne.
  change ("=" +:+ QueryEscape x)%string with (String "=" (QueryEscape x)).
  rewrite (Cut_at_first _ _ "=" (escaped_clean k "=" eq_refl)).
  destruct (QueryUnescape_QueryEscape k) as [-> _].
  destruct (QueryUnescape_QueryEscape x) as [-> _]. reflexivity.
Qed.

Lemma parseQuery_pairs_encoded (pairs : list (string * string)) :
  forall m,
    fold_left parseQuery_pair
      (map (fun kx => QueryEscape (fst kx) +:+ "=" +:+ QueryEscape (snd kx)) pairs)
      (m, None)
    = (fold_left (fun m kx => Values.Add m (fst kx) (snd kx)) pairs m, None).
Proof.
  induction pairs as [|[k x] pairs IH]; intros m; [reflexivity|].
  cbn [map fold_left fst snd]. rewrite parseQuery_pair_encoded. apply IH.
Qed.

(** Adding the values of one key, one after the other. *)
Lemma Add_values (k : string) (xs : list string) :
  forall m : Values.t,
    fold_left (fun a x => Values.Add a k x) xs m
    = match xs with
      | [] => m
      | _ :: _ => <[k := default [] (m !! k) ++ xs]> m
      end.
Proof.
  induction xs as [|x xs IH]; intros m; [reflexivity|].
  cbn [fold_left]. rewrite IH. unfold Values.Add. destruct xs as [|y ys].
  - reflexivity.
  - rewrite lookup_insert. rewrite decide_True by reflexivity. cbn [default].
    rewrite insert_insert. rewrite decide_True by reflexivity.
    unfold id. rewrite <- app_assoc. reflexivity.
Qed.

(** Adding the values of several keys, key after key. *)
Lemma Add_groups (f : string -> list string) (keys : list string) :
  forall m : Values.t,
    NoDup keys -> (forall k, k ∈ keys -> m !! k = None) ->
    forall k',
      fold_left (fun m kx => Values.Add m (fst kx) (snd kx))
        (flat_map (fun k => map (fun x => (k, x)) (f k)) keys) m !! k'
      = if decide (k' ∈ keys) then
          match f k' with
          | [] => None
          | _ :: _ => Some (f k')
          end
        else m !! k'.
Proof.
  induction keys as [|k keys IH]; intros m Hnd Hfresh k'.
  { cbn [flat_map fold_left]. rewrite decide_False by (apply not_elem_of_nil).
    reflexivity. }
  apply NoDup_cons in Hnd. destruct Hnd as [Hk Hnd].
  cbn [flat_map]. rewrite fold_left_app.
  assert (Hgroup :
    fold_left (fun m kx => Values.Add m (fst kx) (snd kx))
      (map (fun x => (k, x)) (f k)) m
    = match f k with
      | [] => m
      | _ :: _ => <[k := f k]> m
      end).
  { assert (Hmap : forall xs m0,
              fold_left (fun m kx => Values.Add m (fst kx) (snd kx))
                (map (fun x => (k, x)) xs) m0
              = fold_left (fun a x => Values.Add a k x) xs m0).
    { induction xs as [|x xs IHxs]; intros m0; [reflexivity|].
      cbn [map fold_left fst snd]. apply IHxs. }
    rewrite Hmap, Add_values. destruct (f k) as [|x xs]; [reflexivity|].
    rewrite (Hfresh k) by (apply list_elem_of_here). reflexivity. }
  rewrite Hgroup.
  rewrite IH; [| exact Hnd |].
  - destruct (decide (k' = k)) as [->|Hne].
    + rewrite decide_False by exact Hk. rewrite decide_True by (apply list_elem_of_here).
      destruct (f k) as [|x xs].
      * apply Hfresh. apply list_elem_of_here.
      * rewrite lookup_insert. rewrite decide_True by reflexivity. reflexivity.
    + destruct (decide (k' ∈ keys)) as [Hin|Hnin].
      * rewrite decide_True by (apply list_elem_of_further; exact Hin). reflexivity.
      * rewrite decide_False by (intros Hin; apply elem_of_cons in Hin;
                                 destruct Hin; [contradiction | contradiction]).
        destruct (f k); [reflexivity|].
        rewrite lookup_insert_ne by (apply not_eq_sym; exact Hne). reflexivity.
  - intros k2 Hk2. destruct (f k).
    + apply Hfresh. apply list_elem_of_further. exact Hk2.
    + rewrite lookup_insert_ne by (intros ->; contradiction).
      apply Hfresh. apply list_elem_of_further. exact Hk2.
Qed.

Lemma insert_sorted_perm (k : string) (l : list string) : insert_sorted k l ≡ₚ k :: l.
Proof.
  induction l as [|x l IH]; [reflexivity|]. cbn [insert_sorted].
  destruct (String.leb k x); [reflexivity|]. rewrite IH. apply Permutation_swap.
Qed.

Lemma sort_Strings_perm (l : list string) : sort_Strings l ≡ₚ l.
Proof.
  induction l as [|x l IH]; [reflexivity|]. cbn [sort_Strings fold_right].
  rewrite insert_sorted_perm. fold (sort_Strings l). rewrite IH. reflexivity.
Qed.

(** What [Encode] writes is the pairs of the keys in order, joined. *)
Lemma Encode_pairs (v : Values.t) :
  Values.Encode v
  = fold_left
      (fun buf p => (if negb (String.eqb buf "") then buf +:+ "&" else buf) +:+ p)
      (map (fun kx => QueryEscape (fst kx) +:+ "=" +:+ QueryEscape (snd kx))
         (flat_map (fun k => map (fun x => (k, x)) (default [] (v !! k)))
            (sort_Strings (map fst (map_to_list v)))))
      ""%string.
Proof.
  unfold Values.Encode.
  assert (Hgen : forall keys buf,
    fold_left
      (fun buf k => Values.encode_values (QueryEscape k) buf (default [] (v !! k)))
      keys buf
    = fold_left
        (fun buf p => (if negb (String.eqb buf "") then buf +:+ "&" else buf) +:+ p)
        (map (fun kx => QueryEscape (fst kx) +:+ "=" +:+ QueryEscape (snd kx))
           (flat_map (fun k => map (fun x => (k, x)) (default [] (v !! k))) keys))
        buf).
  { induction keys as [|k keys IH]; intros buf; [reflexivity|].
    cbn [fold_left flat_map]. rewrite map_app, fold_left_app, IH.
    rewrite encode_values_pieces, map_map. reflexivity. }
  apply Hgen.
Qed.

(** The round trip of [url.Values]: [ParseQuery] reads what [Encode]
    wrote as the same values, if no key has an empty list of values
    (such a key is not written). *)
Lemma ParseQuery_Encode (v : Values.t) :
  no_empty_list v -> ParseQuery (Values.Encode v) = (v, None).
Proof.
  intros Hne. unfold ParseQuery, parseQuery. rewrite Encode_pairs.
  set (keys := sort_Strings (map fst (map_to_list v))).
  set (pairs := flat_map (fun k => map (fun x => (k, x)) (default [] (v !! k))) keys).
  rewrite split_joined.
  2:{ apply Forall_forall. intros p Hp. apply list_elem_of_In, in_map_iff in Hp.
      destruct Hp as ([k x] & <- & _). cbn [fst snd]. split.
      - destruct (QueryEscape k); [discriminate|]. rewrite append_cons. discriminate.
      - rewrite !string_forallb_app.
        rewrite (escaped_clean k "&" eq_refl), (escaped_clean x "&" eq_refl).
        reflexivity. }
  rewrite parseQuery_pairs_encoded. f_equal.
  assert (Hkeys : forall k, k ∈ keys <-> is_Some (v !! k)).
  { intros k. unfold keys. rewrite sort_Strings_perm.
    rewrite list_elem_of_fmap. split.
    - intros ([k0 x] & -> & Hin). apply elem_of_map_to_list in Hin. eauto.
    - intros [x Hx]. exists (k, x). split; [reflexivity|].
      apply elem_of_map_to_list. exact Hx. }
  assert (Hnd : NoDup keys).
  { unfold keys. rewrite sort_Strings_perm. apply NoDup_fst_map_to_list. }
  apply map_eq. intros k'. unfold pairs.
  rewrite (Add_groups (fun k => default [] (v !! k)) keys ∅ Hnd)
    by (intros; apply lookup_empty).
  destruct (decide (k' ∈ keys)) as [Hin|Hnin].
  - apply Hkeys in Hin. destruct Hin as [xs Hxs]. rewrite Hxs. cbn [default].
    destruct xs as [|x xs]; [destruct (Hne k' [] Hxs eq_refl) | reflexivity].
  - rewrite lookup_empty. destruct (v !! k') as [xs|] eqn:Hxs; [|reflexivity].
    destruct Hnin. apply Hkeys. eauto.
Qed.

Lemma Add_no_empty_list (v : Values.t) (k x : string) :
  no_empty_list v -> no_empty_list (Values.Add v k x).
Proof.
  intros Hv k' vs. unfold Values.Add. destruct (decide (k' = k)) as [->|Hne].
  - rewrite lookup_insert. rewrite decide_True by reflexivity.
    intros H. inversion H. destruct (default [] (v !! k)); discriminate.
  - rewrite lookup_insert_ne by (apply not_eq_sym; exact Hne). apply Hv.
Qed.

Lemma parseQuery_no_empty_list (pairs : list string) :
  forall m err,
    no_empty_list m -> no_empty_list (fst (fold_left parseQuery_pair pairs (m, err))).
Proof.
  induction pairs as [|p pairs IH]; intros m err Hm; [exact Hm|].
  cbn [fold_left]. unfold parseQuery_pair at 2.
  destruct (Contains p ";"); [apply IH; exact Hm|].
  destruct (String.eqb p ""); [apply IH; exact Hm|].
  destruct (Cut p "=") as [[key value] found].
  destruct (QueryUnescape key) as [key'|e1]; [|apply IH; exact Hm].
  destruct (QueryUnescape value) as [value'|e1]; [|apply IH; exact Hm].
  apply IH. apply Add_no_empty_list. exact Hm.
Qed.

Lemma fold_Add_no_empty_list (k : string) (xs : list string) :
  forall v, no_empty_list v ->
            no_empty_list (fold_left (fun a x => Values.Add a k x) xs v).
Proof.
  induction xs as [|x xs IH]; intros v Hv; [exact Hv|].
  cbn [fold_left]. apply IH, Add_no_empty_list, Hv.
Qed.

Lemma add_values_no_empty_list (urlValues queryValues : Values.t) :
  no_empty_list urlValues -> no_empty_list (add_values urlValues queryValues).
Proof.
  intros Hv. unfold add_values.
  apply (map_fold_weak_ind (fun r _ => no_empty_list r)); [exact Hv|].
  intros k xs m r _ Hr. apply fold_Add_no_empty_list. exact Hr.
Qed.

Lemma add_queryStructs_no_empty_list (goquery_Values : any -> Values.t + error)
    (queryStructs : list any) :
  forall urlValues v,
    no_empty_list urlValues ->
    add_queryStructs goquery_Values urlValues queryStructs = inl v ->
    no_empty_list v.
Proof.
  induction queryStructs as [|q qs IH]; intros urlValues v Hv H; cbn in H.
  - inversion H; subst. exact Hv.
  - destruct (goquery_Values q) as [qv|e]; [|discriminate].
    apply (IH _ _ (add_values_no_empty_list _ qv Hv) H).
Qed.

(** X27: the query that [buildQueryParamUrl] writes. When it returns an
    error, which is the error of parsing the query the URL had or of
    encoding a query structure, the URL is as it was. When it returns no
    error, only the query of the URL has changed; the new query is what
    [Encode] writes, pairs "key=value" joined by "&" with the keys in
    order; [ParseQuery] reads it back without error as the values that
    were put together from the old query, the query structures and the
    parameters; and a second call that adds nothing leaves the URL as it
    is. *)
Theorem buildQueryParamUrl_spec (goquery_Values : any -> Values.t + error)
    (reqURL : url.URL) (queryStructs : list any)
    (queryParams : option (gmap string string)) :
  match buildQueryParamUrl goquery_Values reqURL queryStructs queryParams with
  | (u, Some err) =>
      u = reqURL /\
      (snd (ParseQuery (url.RawQuery reqURL)) = Some err \/
       exists q, q ∈ queryStructs /\ goquery_Values q = inr err)
  | (u, None) =>
      exists old merged,
        ParseQuery (url.RawQuery reqURL) = (old, None) /\
        add_queryStructs goquery_Values old queryStructs = inl merged /\
        let values :=
          map_fold (fun k v acc => Values.Add acc k v) merged (default ∅ queryParams) in
        u = url.mkURL (url.Scheme reqURL) (url.Opaque reqURL) (url.User reqURL)
              (url.Host reqURL) (url.Path reqURL) (url.RawPath reqURL)
              (url.OmitHost reqURL) (url.ForceQuery reqURL) (Values.Encode values)
              (url.Fragment reqURL) (url.RawFragment reqURL) /\
        ParseQuery (url.RawQuery u) = (values, None) /\
        buildQueryParamUrl goquery_Values u [] None = (u, None)
  end.
Proof.
  unfold buildQueryParamUrl.
  destruct (ParseQuery (url.RawQuery reqURL)) as [old [e|]] eqn:HP.
  { split; [reflexivity | left; reflexivity]. }
  assert (Hold : no_empty_list old).
  { pose proof (parseQuery_no_empty_list
                  (if String.eqb (url.RawQuery reqURL) "" then []
                   else url.split (url.RawQuery reqURL) "&") ∅ None) as H.
    unfold ParseQuery, parseQuery in HP. rewrite HP in H. apply H.
    intros k vs Hk. rewrite lookup_empty in Hk. discriminate. }
  destruct (add_queryStructs goquery_Values old queryStructs) as [merged|e] eqn:Hadd.
  2:{ split; [reflexivity | right].
      clear HP Hold. revert old Hadd.
      induction queryStructs as [|q qs IH]; intros old Hadd; cbn in Hadd; [discriminate|].
      destruct (goquery_Values q) as [qv|e0] eqn:Hq.
      - destruct (IH _ Hadd) as (q0 & Hin & Hq0). exists q0.
        split; [apply list_elem_of_further; exact Hin | exact Hq0].
      - inversion Hadd; subst. exists q. split; [apply list_elem_of_here | exact Hq]. }
  exists old, merged. split; [reflexivity|]. split; [exact Hadd|]. cbv zeta.
  set (values := map_fold (fun k v acc => Values.Add acc k v) merged (default ∅ queryParams)).
  assert (Hvalues : no_empty_list values).
  { unfold values. apply (map_fold_weak_ind (fun r _ => no_empty_list r)).
    - exact (add_queryStructs_no_empty_list _ _ _ _ Hold Hadd).
    - intros k x m r _ Hr. apply Add_no_empty_list. exact Hr. }
  split; [reflexivity|]. cbn [url.RawQuery url.Scheme url.Opaque url.User url.Host
    url.Path url.RawPath url.OmitHost url.ForceQuery url.Fragment url.RawFragment].
  rewrite (ParseQuery_Encode values Hvalues). split; [reflexivity|].
  cbn [add_queryStructs default]. rewrite map_fold_empty. reflexivity.
Qed.

(** X28: the body of [BodyUrlEncode]. The text that
    [formUrlEncodedProvider.Body] yields for a map of values is read by
    [ParseQuery] without error as that map, each key with its one value:
    no key or value is lost or changed by the escaping, whatever bytes
    they hold. *)
Theorem formUrlEncodedProvider_Body_round_trip (values : gmap string string) :
  ParseQuery (formUrlEncodedProvider_Body values)
  = ((fun v => [v]) <$> values, None).
Proof.
  unfold formUrlEncodedProvider_Body.
  assert (Hdata : map_fold (fun k v data => Values.Set_ data k v) ∅ values
                  = (fun v => [v]) <$> values).
  { apply (map_fold_weak_ind (fun r m => r = (fun v => [v]) <$> m)).
    - rewrite fmap_empty. reflexivity.
    - intros k x m r _ ->. unfold Values.Set_. rewrite fmap_insert. reflexivity. }
  rewrite Hdata. apply ParseQuery_Encode.
  intros k vs Hk. rewrite lookup_fmap in Hk.
  destruct (values !! k); inversion Hk. discriminate.
Qed.

(** The cases of [TestAddQueryStructs]. *)
Example TestAddQueryStructs_cases :
  map (fun c : string * list any =>
         match url.Parse (fst c) with
         | (Some u, None) =>
             url.URL_String (fst (buildQueryParamUrl fields_Values u (snd c) (Some ∅)))
         | _ => ""%string
         end)
    [("https://a.io", []);
     ("https://a.io", [AnyFields [("limit", "30")]]);
     ("https://a.io", [AnyFields [("limit", "30")]; AnyFields [("limit", "30")]]);
     ("https://a.io", [AnyFields [("limit", "30")];
                       AnyFields [("kind_name", "recent"); ("count", "25")]]);
     ("https://a.io?initial=7", [AnyFields [("limit", "30")]])]%string
  = ["https://a.io"; "https://a.io?limit=30"; "https://a.io?limit=30&limit=30";
     "https://a.io?count=25&kind_name=recent&limit=30";
     "https://a.io?initial=7&limit=30"]%string.
Proof. vm_compute. reflexivity. Qed.

(** ** The success decider: option and method *)

(** X29: a builder that [New] returns always has a success decider,
    whatever the options: the option [WithSuccessDecider(nil)] is
    ignored, and the decider is that of the last option that gives one,
    or [DecodeOnSuccess]. The method [WithSuccessDecider] has no such
    check: after [WithSuccessDecider(nil)] on a builder, [Do] panics for
    every response other than a 204 that the client returns without
    error, as soon as one target is not [nil]. *)
Theorem WithSuccessDecider_nil (lib : library) (opts : list Option_) (s : Rest)
    (req : HttpRequest) (resp : Response) (successV failureV : target) :
  isSuccess (New_opts lib opts) = Some (last_SuccessDecider opts) /\
  (httpClient s req = (Some resp, None) ->
   StatusCode resp <> StatusNoContent ->
   is_nil_target successV && is_nil_target failureV = false ->
   Rest.Do (Rest.WithSuccessDecider s None) req successV failureV
   = Panic "invalid memory address or nil pointer dereference").
Proof.
  split.
  - unfold New_opts, New, newConfig, last_SuccessDecider. cbn [fold_left isSuccess].
    f_equal. generalize DecodeOnSuccess as d.
    generalize (defaultClient lib) as cl. generalize (jsonDecoder lib) as dec.
    induction opts as [|o opts IH]; intros dec cl d; [reflexivity|].
    cbn [fold_left]. destruct o as [[c0|]| | |[d0|]|[i0|]]; cbn [apply]; apply IH.
  - intros Hc H204 Hnil. unfold Rest.Do. cbn [Rest.WithSuccessDecider httpClient].
    rewrite Hc. apply Z.eqb_neq in H204. rewrite H204.
    rewrite <- negb_andb, Hnil. cbn [negb]. reflexivity.
Qed.

Lemma WithSuccessDecider_nil_witness :
  isSuccess (New_opts example_library [WithSuccessDecider None])
  = Some DecodeOnSuccess /\
  Rest.Do (Rest.WithSuccessDecider (New (example_config 200)) None) example_request
    (ValueTarget (AnyInt 0)) NilTarget
  = Panic "invalid memory address or nil pointer dereference".
Proof.
  destruct (WithSuccessDecider_nil example_library [WithSuccessDecider None]
              (New (example_config 200)) example_request
              (mkResponse "" 200 ∅ (mkBody "{}" None false))
              (ValueTarget (AnyInt 0)) NilTarget) as [H1 H2].
  split; [exact H1|]. apply H2; [reflexivity | discriminate | reflexivity].
Defined.

(** ** [SetHeaders] and the order of the map *)

Lemma SetHeaders_calls (st : store) (s : Rest) (headers : list (string * string)) :
  SetHeaders st s headers
  = fold_left run_header_call (map (fun hv => CallSetHeader (fst hv) (snd hv)) headers)
      (st, s).
Proof.
  unfold SetHeaders. generalize (st, s) as p.
  induction headers as [|hv headers IH]; intros p; [reflexivity|].
  cbn [fold_left map run_header_call]. apply IH.
Qed.

Lemma fold_Set_lookup (headers : list (string * string)) :
  forall (m : gmap string (list string)) (K : string),
    NoDup (map (fun hv => CanonicalMIMEHeaderKey (fst hv)) headers) ->
    fold_left header_call_meaning
      (map (fun hv => CallSetHeader (fst hv) (snd hv)) headers) m !! K
    = match list_find (fun hv => CanonicalMIMEHeaderKey (fst hv) = K) headers with
      | Some (_, hv) => Some [snd hv]
      | None => m !! K
      end.
Proof.
  induction headers as [|[h v] headers IH]; intros m K Hnd; [reflexivity|].
  cbn [map fst snd] in Hnd. apply NoDup_cons in Hnd. destruct Hnd as [Hh Hnd].
  cbn [map fold_left header_call_meaning fst snd]. rewrite IH by exact Hnd.
  cbn [list_find fst]. destruct (decide (CanonicalMIMEHeaderKey h = K)) as [<-|Hne].
  - destruct (list_find _ headers) as [[i hv]|] eqn:Hf.
    + apply list_find_Some in Hf. destruct Hf as (Hi & Heq & _).
      destruct Hh. rewrite <- Heq. apply list_elem_of_fmap.
      exists hv. split; [reflexivity|]. apply (list_elem_of_lookup_2 _ i). exact Hi.
    + cbn [default fmap option_fmap option_map]. rewrite lookup_insert.
      rewrite decide_True by reflexivity. reflexivity.
  - destruct (list_find _ headers) as [[i hv]|] eqn:Hf; [reflexivity|].
    cbn [default fmap option_fmap option_map].
    rewrite lookup_insert_ne by exact Hne. reflexivity.
Qed.

(** X30: [SetHeaders] does not depend on the order in which the map is
    walked, as long as no two keys of the map have the same canonical
    form. On a builder whose header is in order, for any two orders of
    the same entries the header is the same afterwards: each key of the
    map has, under its canonical form, its value as the only value, and
    every other key is as it was. *)
Theorem SetHeaders_any_order (st : store) (s : Rest)
    (order1 order2 : list (string * string)) :
  header_ok (strs st) (header s) = true ->
  order1 ≡ₚ order2 ->
  NoDup (map (fun hv => CanonicalMIMEHeaderKey (fst hv)) order1) ->
  header_of (SetHeaders st s order1) = header_of (SetHeaders st s order2) /\
  (forall h v : string, (h, v) ∈ order1 ->
     header_of (SetHeaders st s order1) !! CanonicalMIMEHeaderKey h = Some [v]) /\
  (forall K, K ∉ map (fun hv => CanonicalMIMEHeaderKey (fst hv)) order1 ->
     header_of (SetHeaders st s order1) !! K = header_of (st, s) !! K).
Proof.
  intros Hok Hperm Hnd.
  assert (Hnd2 : NoDup (map (fun hv => CanonicalMIMEHeaderKey (fst hv)) order2)).
  { rewrite <- Hperm. exact Hnd. }
  assert (Hin : forall (order : list (string * string)) (h v : string),
            NoDup (map (fun hv => CanonicalMIMEHeaderKey (fst hv)) order) ->
            (h, v) ∈ order ->
            list_find (fun hv => CanonicalMIMEHeaderKey (fst hv) = CanonicalMIMEHeaderKey h)
              order
            = None -> False).
  { intros order h v _ Hhv Hf. apply list_find_None in Hf.
    rewrite Forall_forall in Hf. apply (Hf (h, v) Hhv). reflexivity. }
  assert (Hval : forall (order : list (string * string)) (K : string),
            NoDup (map (fun hv => CanonicalMIMEHeaderKey (fst hv)) order) ->
            header_of (SetHeaders st s order) !! K
            = match list_find (fun hv => CanonicalMIMEHeaderKey (fst hv) = K) order with
              | Some (_, hv) => Some [snd hv]
              | None => header_of (st, s) !! K
              end).
  { intros order K Hn. rewrite SetHeaders_calls.
    rewrite run_header_calls_spec by exact Hok. apply fold_Set_lookup. exact Hn. }
  assert (Hfound : forall (order : list (string * string)) (K : string) i hv,
            NoDup (map (fun hv => CanonicalMIMEHeaderKey (fst hv)) order) ->
            list_find (fun hv => CanonicalMIMEHeaderKey (fst hv) = K) order = Some (i, hv) ->
            forall h v : string, (h, v) ∈ order -> CanonicalMIMEHeaderKey h = K -> v = snd hv).
  { intros order K i hv Hn Hf h v Hhv HK.
    apply list_find_Some in Hf. destruct Hf as (Hi & Heq & _).
    apply list_elem_of_lookup_1 in Hhv. destruct Hhv as [j Hj].
    assert (Hij : i = j).
    { apply (NoDup_lookup _ i j K Hn); rewrite list_lookup_fmap.
      - rewrite Hi. cbn. rewrite Heq. reflexivity.
      - rewrite Hj. cbn. rewrite HK. reflexivity. }
    subst j. rewrite Hi in Hj. inversion Hj. reflexivity. }
  split; [|split].
  - apply map_eq. intros K. rewrite !Hval by assumption.
    destruct (list_find _ order1) as [[i1 hv1]|] eqn:Hf1;
      destruct (list_find _ order2) as [[i2 hv2]|] eqn:Hf2; try reflexivity.
    + f_equal. f_equal.
      pose proof Hf1 as Hf1'. apply list_find_Some in Hf1'. destruct Hf1' as (Hi1 & Heq1 & _).
      destruct hv1 as [h1 v1]. cbn [snd].
      apply (Hfound order2 K i2 hv2 Hnd2 Hf2 h1 v1); [|exact Heq1].
      rewrite <- Hperm. apply (list_elem_of_lookup_2 _ i1). exact Hi1.
    + exfalso. pose proof Hf1 as Hf1'. apply list_find_Some in Hf1'.
      destruct Hf1' as (Hi1 & Heq1 & _). apply list_find_None in Hf2.
      rewrite Forall_forall in Hf2. apply (Hf2 hv1); [|exact Heq1].
      rewrite <- Hperm. apply (list_elem_of_lookup_2 _ i1). exact Hi1.
    + exfalso. pose proof Hf2 as Hf2'. apply list_find_Some in Hf2'.
      destruct Hf2' as (Hi2 & Heq2 & _). apply list_find_None in Hf1.
      rewrite Forall_forall in Hf1. apply (Hf1 hv2); [|exact Heq2].
      rewrite Hperm. apply (list_elem_of_lookup_2 _ i2). exact Hi2.
  - intros h v Hhv. rewrite Hval by exact Hnd.
    destruct (list_find _ order1) as [[i hv]|] eqn:Hf.
    + f_equal. f_equal. symmetry.
      apply (Hfound order1 _ i hv Hnd Hf h v Hhv). reflexivity.
    + destruct (Hin order1 h v Hnd Hhv Hf).
  - intros K HK. rewrite Hval by exact Hnd.
    destruct (list_find _ order1) as [[i hv]|] eqn:Hf; [|reflexivity].
    apply list_find_Some in Hf. destruct Hf as (Hi & Heq & _).
    destruct HK. rewrite <- Heq. apply list_elem_of_fmap.
    exists hv. split; [reflexivity|]. apply (list_elem_of_lookup_2 _ i). exact Hi.
Qed.

Lemma SetHeaders_any_order_witness :
  header_of (SetHeaders empty_store (New (example_config 200))
               [("accept", "a/1"); ("x-id", "7")]%string)
  = header_of (SetHeaders empty_store (New (example_config 200))
                 [("x-id", "7"); ("accept", "a/1")]%string).
Proof.
  apply (SetHeaders_any_order empty_store (New (example_config 200))
           [("accept", "a/1"); ("x-id", "7")]%string
           [("x-id", "7"); ("accept", "a/1")]%string).
  - reflexivity.
  - apply Permutation_swap.
  - refine (bool_decide_unpack _ _). vm_compute. exact I.
Defined.

(** With two keys of one canonical form the order of the walk decides. *)
Example SetHeaders_same_canonical_key :
  header_of (SetHeaders empty_store (New (example_config 200))
               [("accept", "a/1"); ("Accept", "a/2")]%string)
  = {[ "Accept"%string := ["a/2"%string] ]} /\
  header_of (SetHeaders empty_store (New (example_config 200))
               [("Accept", "a/2"); ("accept", "a/1")]%string)
  = {[ "Accept"%string := ["a/1"%string] ]}.
Proof. split; vm_compute; reflexivity. Qed.

(** ** The order of [range] over a map *)

(** The loops over a map in [buildQueryParamUrl] and in
    [formUrlEncodedProvider.Body] are written above with [map_fold].
    The order in which [range] walks a map is not fixed; these loops
    write a different key at each turn, so every order gives the same
    result. *)
Lemma range_any_order {A B : Type} (f : string -> A -> B -> B) (m : gmap string A)
    (b : B) (order : list (string * A)) :
  (forall k1 k2 a1 a2 acc, k1 <> k2 ->
     f k1 a1 (f k2 a2 acc) = f k2 a2 (f k1 a1 acc)) ->
  order ≡ₚ map_to_list m ->
  fold_left (fun acc kv => f (fst kv) (snd kv) acc) order b = map_fold f b m.
Proof.
  intros Hcomm Hperm. rewrite map_fold_foldr.
  rewrite <- fold_left_rev_right.
  assert (Hrev : rev order ≡ₚ map_to_list m).
  { rewrite <- Hperm. symmetry. apply Permutation_rev. }
  transitivity (foldr (uncurry f) b (rev order)).
  { generalize (rev order) as l. induction l as [|[k a] l IH]; [reflexivity|].
    cbn [fold_right foldr uncurry fst snd]. rewrite IH. reflexivity. }
  symmetry. apply (foldr_permutation eq (uncurry f) b); [|symmetry; exact Hrev].
  intros j1 [k1 a1] j2 [k2 a2] acc Hj H1 H2. cbn [uncurry].
  apply Hcomm. intros ->.
  apply Hj. apply (NoDup_lookup ((map_to_list m).*1) j1 j2 k2).
  - apply NoDup_fst_map_to_list.
  - rewrite list_lookup_fmap, H1. reflexivity.
  - rewrite list_lookup_fmap, H2. reflexivity.
Qed.

Lemma Add_Add_ne (v : gmap string (list string)) (k1 k2 x1 x2 : string) :
  k1 <> k2 ->
  Values.Add (Values.Add v k2 x2) k1 x1 = Values.Add (Values.Add v k1 x1) k2 x2.
Proof.
  intros Hne. unfold Values.Add.
  rewrite (lookup_insert_ne v k2 k1) by congruence.
  rewrite (lookup_insert_ne v k1 k2) by congruence.
  apply insert_insert_ne. congruence.
Qed.

Lemma Add_fold_ne (xs : list string) :
  forall (v : gmap string (list string)) (k1 k2 x2 : string),
    k1 <> k2 ->
    fold_left (fun a value => Values.Add a k1 value) xs (Values.Add v k2 x2)
    = Values.Add (fold_left (fun a value => Values.Add a k1 value) xs v) k2 x2.
Proof.
  induction xs as [|x xs IH]; intros v k1 k2 x2 Hne; [reflexivity|].
  cbn [fold_left]. rewrite Add_Add_ne by exact Hne. apply IH. exact Hne.
Qed.

Lemma Add_folds_ne (xs2 : list string) :
  forall (v : gmap string (list string)) (k1 k2 : string) (xs1 : list string),
    k1 <> k2 ->
    fold_left (fun a value => Values.Add a k1 value) xs1
      (fold_left (fun a value => Values.Add a k2 value) xs2 v)
    = fold_left (fun a value => Values.Add a k2 value) xs2
        (fold_left (fun a value => Values.Add a k1 value) xs1 v).
Proof.
  induction xs2 as [|x xs2 IH]; intros v k1 k2 xs1 Hne; [reflexivity|].
  cbn [fold_left]. rewrite IH by exact Hne. f_equal.
  apply Add_fold_ne. exact Hne.
Qed.

(** The loop over the values of a query structure, in any order of its
    keys. *)
Lemma add_values_any_order (urlValues queryValues : gmap string (list string))
    (order : list (string * list string)) :
  order ≡ₚ map_to_list queryValues ->
  fold_left
    (fun acc kv => fold_left (fun a value => Values.Add a (fst kv) value) (snd kv) acc)
    order urlValues
  = add_values urlValues queryValues.
Proof.
  intros Hperm. unfold add_values.
  apply (range_any_order
           (fun key values acc => fold_left (fun a value => Values.Add a key value) values acc));
    [|exact Hperm].
  intros k1 k2 a1 a2 acc Hne. apply Add_folds_ne. exact Hne.
Qed.

(** The loop over the query parameters, in any order. *)
Lemma queryParams_any_order (urlValues : gmap string (list string))
    (queryParams : gmap string string) (order : list (string * string)) :
  order ≡ₚ map_to_list queryParams ->
  fold_left (fun acc kv => Values.Add acc (fst kv) (snd kv)) order urlValues
  = map_fold (fun k v acc => Values.Add acc k v) urlValues queryParams.
Proof.
  intros Hperm.
  apply (range_any_order (fun k v acc => Values.Add acc k v)); [|exact Hperm].
  intros k1 k2 a1 a2 acc Hne. apply Add_Add_ne. exact Hne.
Qed.

(** The loop of [formUrlEncodedProvider.Body], in any order. *)
Lemma formUrlEncodedProvider_any_order (values : gmap string string)
    (order : list (string * string)) :
  order ≡ₚ map_to_list values ->
  Values.Encode (fold_left (fun data kv => Values.Set_ data (fst kv) (snd kv)) order ∅)
  = formUrlEncodedProvider_Body values.
Proof.
  intros Hperm. unfold formUrlEncodedProvider_Body. f_equal.
  apply (range_any_order (fun k v data => Values.Set_ data k v)); [|exact Hperm].
  intros k1 k2 a1 a2 acc Hne. unfold Values.Set_.
  apply insert_insert_ne. congruence.
Qed.
